(** * QuicIntervalSet<T> (quiche, quic_interval_set.h), instantiated at T = Z.

    The container is a [std::set<QuicInterval<T>, IntervalLess>].  We model
    the [std::set] as a list kept sorted by [IntervalLess], and a
    [const_iterator] into it by the key it designates ([Some k]), or [None]
    for [end()].  Keys of a [std::set] are unique and an iterator stays
    valid while its element is not erased, so an iterator is determined by
    its key: [++it] is the first element greater than [*it], [--it] the
    last element smaller.

    Every [while] loop of the source is a [Fixpoint] with a fuel argument;
    [None] is returned when the fuel runs out or when the source would
    dereference or increment [end()] (undefined behaviour). *)

From Stdlib Require Import ZArith List Bool Lia.
From Stdlib Require Import Sorting.Sorted Sorting.Permutation.
Import ListNotations.
Open Scope Z_scope.

(** The half-open interval [min, max) ([QuicInterval<T>]). *)
Record Interval := make { min : Z; max : Z }.

(** Modelled from the spec: [QuicInterval<T>] (quic_interval.h, not part of
    the sources).  §3 "Data model" gives emptiness, point containment,
    intersection and difference; containment of an interval follows §4.1
    ("Contains(interval) returns false for an empty argument"), which is also
    the convention stated by the header comment of
    [QuicIntervalSet::Contains(const value_type&)]. *)
Module QuicInterval.

(** [T()] for [T = int]. *)
Definition default : Interval := make 0 0.

(** Empty when [min >= max]. *)
Definition Empty (i : Interval) : bool := max i <=? min i.

(** [min <= v && v < max]. *)
Definition Contains_value (i : Interval) (v : Z) : bool :=
  (min i <=? v) && (v <? max i).

(** false on an empty argument; otherwise [min <= o.min && o.max <= max]. *)
Definition Contains (i o : Interval) : bool :=
  negb (Empty o) && (min i <=? min o) && (max o <=? max i).

(** Both non-empty and [max > o.min && o.max > min]. *)
Definition Intersects (i o : Interval) : bool :=
  negb (Empty i) && negb (Empty o) && (min o <? max i) && (min i <? max o).

(** [Intersects(o, &out)]: the materialised intersection
    [[max(min, o.min), min(max, o.max))] when it exists. *)
Definition Intersects_out (i o : Interval) : option Interval :=
  if Intersects i o
  then Some (make (Z.max (min i) (min o)) (Z.min (max i) (max o)))
  else None.

(** [Difference(o, &lo, &hi)]: [lo = [min, min(max, o.min))],
    [hi = [max(min, o.max), max)]. *)
Definition Difference (i o : Interval) : Interval * Interval :=
  (make (min i) (Z.min (max i) (min o)), make (Z.max (min i) (max o)) (max i)).

Definition SetMax (i : Interval) (m : Z) : Interval := make (min i) m.

Definition eqb (a b : Interval) : bool := (min a =? min b) && (max a =? max b).

End QuicInterval.

Module QuicIntervalSet.

(** [IntervalLess::operator()]. *)
Definition IntervalLess (a b : Interval) : bool :=
  (min a <? min b) || ((min a =? min b) && (max a >? max b)).

(** The [std::set<value_type, IntervalLess>], sorted by [IntervalLess]. *)
Definition Set_ := list Interval.

(** A [const_iterator]: [Some k] designates the element [k], [None] is [end()]. *)
Definition iterator := option Interval.

Definition iter_eqb (a b : iterator) : bool :=
  match a, b with
  | Some x, Some y => QuicInterval.eqb x y
  | None, None => true
  | _, _ => false
  end.

(** [std::set::insert]: the iterator is the key itself; the flag is false
    when an equivalent key is already present. *)
Fixpoint set_insert (x : Interval) (s : Set_) : Set_ * bool :=
  match s with
  | [] => ([x], true)
  | y :: s' =>
      if IntervalLess x y then (x :: s, true)
      else if IntervalLess y x then
        let (r, b) := set_insert x s' in (y :: r, b)
      else (s, false)
  end.

(** [std::set::upper_bound]: first element [e] with [k < e]. *)
Fixpoint set_upper_bound (s : Set_) (k : Interval) : iterator :=
  match s with
  | [] => None
  | y :: s' => if IntervalLess k y then Some y else set_upper_bound s' k
  end.

(** [std::set::lower_bound]: first element [e] with [!(e < k)]. *)
Fixpoint set_lower_bound (s : Set_) (k : Interval) : iterator :=
  match s with
  | [] => None
  | y :: s' => if IntervalLess y k then set_lower_bound s' k else Some y
  end.

Definition set_begin (s : Set_) : iterator := hd_error s.

(** [rbegin()]: the last element. *)
Fixpoint set_last (s : Set_) : iterator :=
  match s with
  | [] => None
  | [y] => Some y
  | _ :: s' => set_last s'
  end.

(** [++it] (only applied to non-end iterators by the code). *)
Definition set_next (s : Set_) (it : iterator) : iterator :=
  match it with
  | Some k => set_upper_bound s k
  | None => None
  end.

(** The last element smaller than [k]. *)
Fixpoint set_prev_of (s : Set_) (k : Interval) : iterator :=
  match s with
  | [] => None
  | y :: s' =>
      if IntervalLess y k then
        match set_prev_of s' k with
        | None => Some y
        | r => r
        end
      else None
  end.

(** [--it]; [--end()] is the last element. *)
Definition set_prev (s : Set_) (it : iterator) : iterator :=
  match it with
  | Some k => set_prev_of s k
  | None => set_last s
  end.

(** [std::set::erase(it)]. *)
Definition set_erase (s : Set_) (k : Interval) : Set_ :=
  filter (fun y => negb (QuicInterval.eqb y k)) s.

Definition before_iter (y : Interval) (last : iterator) : bool :=
  match last with
  | Some l => IntervalLess y l
  | None => true
  end.

(** [std::set::erase(first, last)]: removes the elements of [[first, last)]. *)
Definition set_erase_range (s : Set_) (first last : iterator) : Set_ :=
  match first with
  | None => s
  | Some f => filter (fun y => IntervalLess y f || negb (before_iter y last)) s
  end.

Definition Empty (s : Set_) : bool :=
  match s with [] => true | _ => false end.

Definition Size (s : Set_) : nat := length s.

Definition SpanningInterval (s : Set_) : Interval :=
  match s with
  | [] => QuicInterval.default
  | f :: _ =>
      match set_last s with
      | Some l => make (min f) (max l)
      | None => QuicInterval.default
      end
  end.

(** [Compact(begin, end)]: the [while] loop.  At the head of each iteration
    [next] designates the same element as [it]. *)
Fixpoint compact_loop (fuel : nat) (s : Set_) (prev : Interval)
    (it next end_ : iterator) : option Set_ :=
  match fuel with
  | O => None
  | S fuel' =>
      if iter_eqb it end_ then Some s else
      match it with
      | None => None
      | Some itv =>
          let next := set_next s next in
          if min itv <=? max prev then
            let i := make (min prev) (Z.max (max prev) (max itv)) in
            let s := set_erase (set_erase s prev) itv in
            let (s, _) := set_insert i s in
            compact_loop fuel' s i next next end_
          else compact_loop fuel' s itv next next end_
      end
  end.

Definition Compact (s : Set_) (begin end_ : iterator) : option Set_ :=
  if iter_eqb begin end_ then Some s else
  match begin with
  | None => None
  | Some b =>
      let it := set_next s begin in
      compact_loop (S (length s)) s b it it end_
  end.

Definition Add (s : Set_) (interval : Interval) : option Set_ :=
  if QuicInterval.Empty interval then Some s else
  let (s', inserted) := set_insert interval s in
  if negb inserted then Some s else
  let begin :=
    if iter_eqb (Some interval) (set_begin s') then Some interval
    else set_prev s' (Some interval) in
  let target_end := make (max interval) (max interval) in
  let end_ := set_upper_bound s' target_end in
  Compact s' begin end_.

Definition AddOptimizedForAppend (s : Set_) (interval : Interval) : option Set_ :=
  if Empty s then Add s interval else
  match set_last s with
  | None => Add s interval
  | Some last_interval =>
      if (min interval <? min last_interval) || (min interval >? max last_interval)
      then Add s interval
      else if max interval <=? max last_interval then Some s
      else
        (* in-place [SetMax] on the last element *)
        Some (removelast s ++ [QuicInterval.SetMax last_interval (max interval)])
  end.

Definition Contains_value (s : Set_) (value : Z) : bool :=
  let tmp := make value value in
  let it := set_upper_bound s tmp in
  if iter_eqb it (set_begin s) then false else
  match set_prev s it with
  | Some i => QuicInterval.Contains_value i value
  | None => false
  end.

Definition Contains (s : Set_) (interval : Interval) : bool :=
  let it := set_upper_bound s interval in
  if iter_eqb it (set_begin s) then false else
  match set_prev s it with
  | Some i => QuicInterval.Contains i interval
  | None => false
  end.

Definition Contains_set (s other : Set_) : bool :=
  if negb (QuicInterval.Contains (SpanningInterval s) (SpanningInterval other))
  then false
  else forallb (fun i => Contains s i) other.

Definition LowerBound (s : Set_) (value : Z) : iterator :=
  let it := set_lower_bound s (make value value) in
  if iter_eqb it (set_begin s) then it else
  let it := set_prev s it in
  match it with
  | Some i => if QuicInterval.Contains_value i value then it else set_next s it
  | None => None
  end.

Definition UpperBound (s : Set_) (value : Z) : iterator :=
  set_upper_bound s (make value value).

Definition IsDisjoint (s : Set_) (interval : Interval) : bool :=
  if QuicInterval.Empty interval then true else
  let tmp := make (min interval) (min interval) in
  let it := set_upper_bound s tmp in
  match it with
  | Some i => if max interval >? min i then false else
      if iter_eqb it (set_begin s) then true else
      match set_prev s it with
      | Some p => max p <=? min interval
      | None => false
      end
  | None =>
      if iter_eqb it (set_begin s) then true else
      match set_prev s it with
      | Some p => max p <=? min interval
      | None => false
      end
  end.

Definition Union (s other : Set_) : option Set_ :=
  let s := fold_left (fun acc x => fst (set_insert x acc)) other s in
  Compact s (set_begin s) None.

Definition FindIntersectionCandidate_interval (s : Set_) (interval : Interval)
    : iterator :=
  let mine := set_upper_bound s interval in
  if negb (iter_eqb mine (set_begin s)) then set_prev s mine else mine.

(** Dereferences [other.begin()]: undefined on an empty [other]. *)
Definition FindIntersectionCandidate (s other : Set_) : option iterator :=
  match set_begin other with
  | Some o => Some (FindIntersectionCandidate_interval s o)
  | None => None
  end.

(** The [on_hole] callback of [FindNextIntersectingPairImpl]. *)
Definition hole_fn := Set_ -> iterator -> iterator -> Set_.

Definition no_hole : hole_fn := fun x _ _ => x.

Definition erase_hole : hole_fn := fun x from to => set_erase_range x from to.

(** The loop skipping the intervals of [mine] that end before [theirs]. *)
Fixpoint skip_mine (fuel : nat) (x : Set_) (mine : iterator) (theirs : Interval)
    : option iterator :=
  match fuel with
  | O => None
  | S fuel' =>
      match mine with
      | Some m =>
          if max m <=? min theirs then skip_mine fuel' x (set_next x mine) theirs
          else Some mine
      | None => Some None
      end
  end.

(** The loop skipping the intervals of [theirs] that end before [mine]. *)
Fixpoint skip_theirs (fuel : nat) (y : Set_) (theirs : iterator) (mine : Interval)
    : option iterator :=
  match fuel with
  | O => None
  | S fuel' =>
      match theirs with
      | Some t =>
          if max t <=? min mine then skip_theirs fuel' y (set_next y theirs) mine
          else Some theirs
      | None => Some None
      end
  end.

(** The loop "while mine and theirs do not intersect" of
    [FindNextIntersectingPairImpl]; returns the result together with the
    updated [x], [*mine] and [*theirs]. *)
Fixpoint fnip_loop (fuel : nat) (on_hole : hole_fn) (x y : Set_)
    (mine theirs : iterator) : option (bool * Set_ * iterator * iterator) :=
  match fuel with
  | O => None
  | S fuel' =>
      match mine, theirs with
      | Some m, Some t =>
          if QuicInterval.Intersects m t then Some (true, x, mine, theirs) else
          let erase_first := mine in
          match skip_mine (S (length x)) x mine t with
          | None => None
          | Some mine =>
              let x := on_hole x erase_first mine in
              match mine with
              | None => Some (false, x, mine, theirs)
              | Some m' =>
                  match skip_theirs (S (length y)) y theirs m' with
                  | None => None
                  | Some None => Some (false, on_hole x mine None, mine, None)
                  | Some theirs => fnip_loop fuel' on_hole x y mine theirs
                  end
              end
          end
      | _, _ => None
      end
  end.

Definition FindNextIntersectingPairImpl (on_hole : hole_fn) (x y : Set_)
    (mine theirs : iterator) : option (bool * Set_ * iterator * iterator) :=
  if iter_eqb mine None || iter_eqb theirs None then Some (false, x, mine, theirs)
  else fnip_loop (S (length x + length y)) on_hole x y mine theirs.

Definition FindNextIntersectingPair := FindNextIntersectingPairImpl no_hole.

Definition FindNextIntersectingPairAndEraseHoles :=
  FindNextIntersectingPairImpl erase_hole.

(** The inner [while] of [Intersection]: insert [i ∩ *theirs] while they
    intersect. *)
Fixpoint intersection_inner (fuel : nat) (s other : Set_) (i : Interval)
    (mine theirs : iterator) : option (Set_ * iterator * iterator) :=
  match fuel with
  | O => None
  | S fuel' =>
      match theirs with
      | None => Some (s, mine, theirs)
      | Some t =>
          match QuicInterval.Intersects_out i t with
          | None => Some (s, mine, theirs)
          | Some intersection =>
              let (s, _) := set_insert intersection s in
              intersection_inner fuel' s other i (Some intersection)
                (set_next other theirs)
          end
      end
  end.

Fixpoint intersection_loop (fuel : nat) (s other : Set_) (mine theirs : iterator)
    : option Set_ :=
  match fuel with
  | O => None
  | S fuel' =>
      match FindNextIntersectingPairAndEraseHoles s other mine theirs with
      | None => None
      | Some (false, s, _, _) => Some s
      | Some (true, s, mine, theirs) =>
          match mine with
          | None => None
          | Some i =>
              let s := set_erase s i in
              match intersection_inner (S (length other)) s other i None theirs with
              | None => None
              | Some (s, None, _) => None
              | Some (s, mine, theirs) =>
                  let theirs := set_prev other theirs in
                  let mine := set_next s mine in
                  intersection_loop fuel' s other mine theirs
              end
          end
      end
  end.

Definition Intersection (s other : Set_) : option Set_ :=
  if negb (QuicInterval.Intersects (SpanningInterval s) (SpanningInterval other))
  then Some [] else
  match FindIntersectionCandidate s other with
  | None => None
  | Some mine =>
      let s := set_erase_range s (set_begin s) mine in
      match FindIntersectionCandidate other s with
      | None => None
      | Some theirs =>
          intersection_loop (S (S (length s + length other))) s other mine theirs
      end
  end.

Fixpoint difference_loop (fuel : nat) (s other : Set_) (mine theirs : iterator)
    : option Set_ :=
  match fuel with
  | O => None
  | S fuel' =>
      match FindNextIntersectingPair s other mine theirs with
      | None => None
      | Some (false, s, _, _) => Some s
      | Some (true, s, Some i, Some t) =>
          (* [intervals_.erase(mine++)] *)
          let next := set_next s (Some i) in
          let s := set_erase s i in
          let (lo, hi) := QuicInterval.Difference i t in
          let s := if negb (QuicInterval.Empty lo) then fst (set_insert lo s) else s in
          if negb (QuicInterval.Empty hi)
          then difference_loop fuel' (fst (set_insert hi s)) other (Some hi) (Some t)
          else difference_loop fuel' s other next (Some t)
      | Some (true, _, _, _) => None
      end
  end.

Definition Difference (s other : Set_) : option Set_ :=
  if negb (QuicInterval.Intersects (SpanningInterval s) (SpanningInterval other))
  then Some s else
  match FindIntersectionCandidate s other with
  | None => None
  | Some mine =>
      if iter_eqb mine None then Some s else
      match FindIntersectionCandidate other s with
      | None => None
      | Some theirs =>
          difference_loop (S (S (length s + length other))) s other mine theirs
      end
  end.

(** [QuicIntervalSet(const value_type&)]. *)
Definition of_interval (interval : Interval) : option Set_ := Add [] interval.

Definition Difference_interval (s : Set_) (interval : Interval) : option Set_ :=
  if negb (QuicInterval.Intersects (SpanningInterval s) interval) then Some s else
  match of_interval interval with
  | None => None
  | Some other => Difference s other
  end.

(** [Complement(min, max)]: [span.Difference] of this set, then the storage of
    [span] is swapped into [*this]. *)
Definition Complement (s : Set_) (lo hi : Z) : option Set_ :=
  match of_interval (make lo hi) with
  | None => None
  | Some span => Difference span s
  end.

(** [assign(first, last)]: [Clear()] then [Add] each element. *)
Fixpoint assign_from (s : Set_) (l : list Interval) : option Set_ :=
  match l with
  | [] => Some s
  | x :: l' =>
      match Add s x with
      | None => None
      | Some s' => assign_from s' l'
      end
  end.

Definition assign (l : list Interval) : option Set_ := assign_from [] l.

(** [Valid()]. *)
Fixpoint valid_from (prev : iterator) (s : Set_) : bool :=
  match s with
  | [] => true
  | it :: s' =>
      if min it >=? max it then false else
      match prev with
      | Some p => if max p >=? min it then false else valid_from (Some it) s'
      | None => valid_from (Some it) s'
      end
  end.

Definition Valid (s : Set_) : bool := valid_from None s.

(** [Contains(const T& min, const T& max)]. *)
Definition Contains_range (s : Set_) (lo hi : Z) : bool := Contains s (make lo hi).

(** [Add(const T& min, const T& max)]. *)
Definition Add_range (s : Set_) (lo hi : Z) : option Set_ := Add s (make lo hi).

(** [AddOptimizedForAppend(const T& min, const T& max)]. *)
Definition AddOptimizedForAppend_range (s : Set_) (lo hi : Z) : option Set_ :=
  AddOptimizedForAppend s (make lo hi).

(** [QuicIntervalSet(const T& min, const T& max)]. *)
Definition of_range (lo hi : Z) : option Set_ := Add [] (make lo hi).

(** [Difference(const T& min, const T& max)]. *)
Definition Difference_range (s : Set_) (lo hi : Z) : option Set_ :=
  Difference_interval s (make lo hi).

(** [Find(const T& value)]. *)
Definition Find_value (s : Set_) (value : Z) : iterator :=
  let tmp := make value value in
  let it := set_upper_bound s tmp in
  if iter_eqb it (set_begin s) then None else
  let it := set_prev s it in
  match it with
  | Some i => if QuicInterval.Contains_value i value then it else None
  | None => None
  end.

(** [Find(const value_type& probe)]. *)
Definition Find (s : Set_) (probe : Interval) : iterator :=
  let it := set_upper_bound s probe in
  if iter_eqb it (set_begin s) then None else
  let it := set_prev s it in
  match it with
  | Some i => if QuicInterval.Contains i probe then it else None
  | None => None
  end.

(** [Find(const T& min, const T& max)]. *)
Definition Find_range (s : Set_) (lo hi : Z) : iterator := Find s (make lo hi).

(** [Intersects(const QuicIntervalSet& other)]; [None] where the source is
    undefined ([FindIntersectionCandidate] on an empty [other]). *)
Definition Intersects (s other : Set_) : option bool :=
  if negb (QuicInterval.Intersects (SpanningInterval s) (SpanningInterval other))
  then Some false else
  match FindIntersectionCandidate s other with
  | None => None
  | Some mine =>
      match mine with
      | None => Some false
      | Some m =>
          let theirs := FindIntersectionCandidate_interval other m in
          match FindNextIntersectingPair s other mine theirs with
          | None => None
          | Some (found, _, _, _) => Some found
          end
      end
  end.

(** [NonemptyIntervalEq::operator()]. *)
Definition NonemptyIntervalEq (a b : Interval) : bool :=
  (min a =? min b) && (max a =? max b).

(** [std::equal(first1, last1, first2, pred)]; [None] when the second range
    ends first (reading past [end()]). *)
Fixpoint std_equal (l1 l2 : list Interval) : option bool :=
  match l1, l2 with
  | [], _ => Some true
  | a :: l1', b :: l2' => if NonemptyIntervalEq a b then std_equal l1' l2' else Some false
  | _ :: _, [] => None
  end.

(** [operator==(const QuicIntervalSet&, const QuicIntervalSet&)]. *)
Definition op_eq (a b : Set_) : option bool :=
  if Nat.eqb (Size a) (Size b) then std_equal a b else Some false.

(** [operator!=]. *)
Definition op_ne (a b : Set_) : option bool :=
  match op_eq a b with
  | Some r => Some (negb r)
  | None => None
  end.

End QuicIntervalSet.
(** * Programs over several [QuicIntervalSet<int>] variables

    A store maps variable numbers to sets.  Binary operations take the other
    set by [const&]; [x.Intersection(x)] and [x.Difference(x)] erase the
    element that [theirs] designates and then dereference [theirs]
    (undefined behaviour), so they have no step. *)
Module Program.
Import QuicIntervalSet.

Inductive op :=
| OpConstruct (x : nat)
| OpConstructInterval (x : nat) (i : Interval)
| OpConstructRange (x : nat) (lo hi : Z)
| OpConstructList (x : nat) (l : list Interval)
| OpClear (x : nat)
| OpAdd (x : nat) (i : Interval)
| OpAddRange (x : nat) (lo hi : Z)
| OpAddOptimizedForAppend (x : nat) (i : Interval)
| OpUnion (x y : nat)
| OpIntersection (x y : nat)
| OpDifference (x y : nat)
| OpDifferenceInterval (x : nat) (i : Interval)
| OpDifferenceRange (x : nat) (lo hi : Z)
| OpComplement (x : nat) (lo hi : Z)
| OpSwap (x y : nat)
| OpAssign (x : nat) (l : list Interval)
| OpCopy (x y : nat).

Definition store := nat -> Set_.

Definition init : store := fun _ => [].

Definition update (st : store) (x : nat) (v : Set_) : store :=
  fun z => if Nat.eqb z x then v else st z.

Definition set_result (st : store) (x : nat) (r : option Set_) : option store :=
  match r with
  | Some v => Some (update st x v)
  | None => None
  end.

Definition step (st : store) (o : op) : option store :=
  match o with
  | OpConstruct x => Some (update st x [])
  | OpConstructInterval x i => set_result st x (of_interval i)
  | OpConstructRange x lo hi => set_result st x (Add [] (make lo hi))
  | OpConstructList x l => set_result st x (assign l)
  | OpClear x => Some (update st x [])
  | OpAdd x i => set_result st x (Add (st x) i)
  | OpAddRange x lo hi => set_result st x (Add (st x) (make lo hi))
  | OpAddOptimizedForAppend x i => set_result st x (AddOptimizedForAppend (st x) i)
  | OpUnion x y => set_result st x (Union (st x) (st y))
  | OpIntersection x y =>
      if Nat.eqb x y then None else set_result st x (Intersection (st x) (st y))
  | OpDifference x y =>
      if Nat.eqb x y then None else set_result st x (Difference (st x) (st y))
  | OpDifferenceInterval x i => set_result st x (Difference_interval (st x) i)
  | OpDifferenceRange x lo hi =>
      set_result st x (Difference_interval (st x) (make lo hi))
  | OpComplement x lo hi => set_result st x (Complement (st x) lo hi)
  | OpSwap x y => Some (update (update st x (st y)) y (st x))
  | OpAssign x l => set_result st x (assign l)
  | OpCopy x y => Some (update st x (st y))
  end.

Fixpoint run (st : store) (ops : list op) : option store :=
  match ops with
  | [] => Some st
  | o :: ops' =>
      match step st o with
      | Some st' => run st' ops'
      | None => None
      end
  end.

(** The calls that are not [x.Intersection(x)] or [x.Difference(x)]. *)
Definition no_self_alias (o : op) : Prop :=
  match o with
  | OpIntersection x y | OpDifference x y => x <> y
  | _ => True
  end.

End Program.

(** * Predicates used by the specifications *)
Module Spec.
Import QuicIntervalSet.

Definition lt (a b : Interval) : Prop := IntervalLess a b = true.
Definition ne (i : Interval) : Prop := min i < max i.
(** [a] ends strictly before [b] starts: disjoint and non-adjacent. *)
Definition gap (a b : Interval) : Prop := max a < min b.
Definition in_itv (i : Interval) (v : Z) : Prop := min i <= v < max i.
(** The values represented by a list of intervals. *)
Definition inS (s : list Interval) (v : Z) : Prop :=
  exists i, In i s /\ in_itv i v.
(** Well-formedness as a proposition (see [Valid_vl]). *)
Definition vl (s : list Interval) : Prop := Forall ne s /\ StronglySorted gap s.
(** [v] lies before the interval designated by [it] ([end()]: everywhere). *)
Definition below (it : iterator) (v : Z) : Prop :=
  match it with Some m => v < min m | None => True end.

(** What [Compact] does to the run [prev :: l]. *)
Fixpoint merge_run (prev : Interval) (l : list Interval) : list Interval :=
  match l with
  | [] => [prev]
  | x :: l' =>
      if min x <=? max prev
      then merge_run (make (min prev) (Z.max (max prev) (max x))) l'
      else prev :: merge_run x l'
  end.

Definition meets (M T : list Interval) : bool :=
  match M, T with
  | m :: _, t :: _ => QuicInterval.Intersects m t
  | _, _ => false
  end.

(** Decreases with every iteration of the loops of [Intersection] and
    [Difference]. *)
Definition measure (M T : list Interval) : nat :=
  length M + length T + (if meets M T then 1 else 0).

(** An [on_hole] callback erasing ([keep = false]) or keeping the skipped
    intervals [K]. *)
Definition hole_spec (keep : bool) (on_hole : hole_fn) : Prop :=
  forall D K M, vl (D ++ K ++ M) ->
    on_hole (D ++ K ++ M) (hd_error (K ++ M)) (hd_error M)
    = D ++ (if keep then K else []) ++ M.

End Spec.

(** * Facts about intervals, the ordering and the [std::set] model *)
Module Facts.
Import QuicIntervalSet Spec.

Lemma eqb_true a b : QuicInterval.eqb a b = true <-> a = b.
Proof.
  destruct a as [a1 a2], b as [b1 b2]; unfold QuicInterval.eqb; simpl.
  rewrite andb_true_iff, !Z.eqb_eq.
  split; [intros [-> ->]; reflexivity | intros H; inversion H; auto].
Qed.

Lemma eqb_refl a : QuicInterval.eqb a a = true.
Proof. apply eqb_true; reflexivity. Qed.

Lemma eqb_false a b : a <> b -> QuicInterval.eqb a b = false.
Proof.
  intros H; destruct (QuicInterval.eqb a b) eqn:E; auto.
  apply eqb_true in E; contradiction.
Qed.

Lemma iter_eqb_true a b : iter_eqb a b = true <-> a = b.
Proof.
  destruct a, b; simpl; try (split; congruence).
  rewrite eqb_true; split; congruence.
Qed.

Lemma iter_eqb_refl a : iter_eqb a a = true.
Proof. apply iter_eqb_true; reflexivity. Qed.

Lemma iter_eqb_false a b : a <> b -> iter_eqb a b = false.
Proof.
  intros H; destruct (iter_eqb a b) eqn:E; auto.
  apply iter_eqb_true in E; contradiction.
Qed.

Lemma lt_unfold a b :
  lt a b <-> min a < min b \/ (min a = min b /\ max a > max b).
Proof.
  unfold lt, IntervalLess.
  rewrite orb_true_iff, andb_true_iff, Z.ltb_lt, Z.eqb_eq, Z.gtb_lt.
  split; intros; lia.
Qed.

Lemma nlt_unfold a b :
  ~ lt a b <-> min b < min a \/ (min a = min b /\ max a <= max b).
Proof. rewrite lt_unfold; split; intros; lia. Qed.

Lemma itv_eq a b : min a = min b -> max a = max b -> a = b.
Proof. destruct a, b; simpl; intros -> ->; reflexivity. Qed.

Lemma itv_eq_dec (a b : Interval) : {a = b} + {a <> b}.
Proof. decide equality; apply Z.eq_dec. Defined.

Lemma lt_irrefl a : ~ lt a a.
Proof. rewrite lt_unfold; lia. Qed.

Lemma lt_trans a b c : lt a b -> lt b c -> lt a c.
Proof. rewrite !lt_unfold; lia. Qed.

Lemma lt_asym a b : lt a b -> ~ lt b a.
Proof. rewrite !lt_unfold; lia. Qed.

Lemma lt_neq a b : lt a b -> a <> b.
Proof. intros H ->; exact (lt_irrefl _ H). Qed.

Lemma lt_total a b : a <> b -> lt a b \/ lt b a.
Proof.
  intros H; rewrite !lt_unfold.
  destruct (Z.eq_dec (min a) (min b)); [|lia].
  destruct (Z.eq_dec (max a) (max b)); [|lia].
  exfalso; apply H, itv_eq; auto.
Qed.

Lemma lt_min a b : lt a b -> min a <= min b.
Proof. rewrite lt_unfold; lia. Qed.

Lemma gap_lt a b : ne a -> gap a b -> lt a b.
Proof. unfold ne, gap; rewrite lt_unfold; lia. Qed.


(** ** Strongly sorted lists *)

Lemma SS_cons {A} (R : A -> A -> Prop) a l :
  StronglySorted R (a :: l) <-> StronglySorted R l /\ (forall b, In b l -> R a b).
Proof.
  split.
  - intros H; apply StronglySorted_inv in H as [H1 H2].
    split; auto; apply Forall_forall; auto.
  - intros [H1 H2]; constructor; auto; apply Forall_forall; auto.
Qed.

Lemma SS_app {A} (R : A -> A -> Prop) l1 l2 :
  StronglySorted R (l1 ++ l2) <->
  StronglySorted R l1 /\ StronglySorted R l2 /\
  (forall a b, In a l1 -> In b l2 -> R a b).
Proof.
  induction l1 as [|x l1 IH]; simpl.
  - split; [intros H; repeat split; auto; [constructor | tauto] | tauto].
  - rewrite !SS_cons, IH. split.
    + intros [[H1 [H2 H3]] H4]; repeat split; auto.
      * intros b Hb; apply H4, in_or_app; auto.
      * intros a b [<-|Ha] Hb; auto; apply H4, in_or_app; auto.
    + intros [[H1 H2] [H3 H4]]; repeat split; auto.
      intros b Hb; apply in_app_or in Hb as [Hb|Hb]; auto.
Qed.

Lemma vl_nil : vl [].
Proof. split; constructor. Qed.

Lemma vl_cons a l :
  vl (a :: l) <-> ne a /\ vl l /\ (forall b, In b l -> gap a b).
Proof.
  unfold vl; rewrite SS_cons, Forall_cons_iff; tauto.
Qed.

Lemma vl_app l1 l2 :
  vl (l1 ++ l2) <-> vl l1 /\ vl l2 /\ (forall a b, In a l1 -> In b l2 -> gap a b).
Proof.
  unfold vl; rewrite SS_app, Forall_app; tauto.
Qed.

Lemma vl_single a : ne a -> vl [a].
Proof.
  intros H; apply vl_cons; split; [|split]; auto using vl_nil.
  intros b [].
Qed.

Lemma vl_ne s a : vl s -> In a s -> ne a.
Proof. intros [H _] Ha; rewrite Forall_forall in H; auto. Qed.

Lemma vl_sorted_lt s : vl s -> StronglySorted lt s.
Proof.
  induction s as [|a s IH]; intros H; [constructor|].
  apply vl_cons in H as [H1 [H2 H3]]; apply SS_cons; split; auto.
  intros b Hb; apply gap_lt; auto.
Qed.

Lemma gap_hd_all y z l : vl (z :: l) -> gap y z -> forall b, In b (z :: l) -> gap y b.
Proof.
  intros H Hg b [<-|Hb]; auto.
  apply vl_cons in H as [Hz [_ Hzl]]; specialize (Hzl b Hb).
  unfold gap, ne in *; lia.
Qed.

Lemma valid_from_spec s : forall p,
  valid_from p s = true <->
  vl s /\ (match p, s with Some p, y :: _ => gap p y | _, _ => True end).
Proof.
  induction s as [|y s IH]; intros p; simpl.
  - destruct p; split; auto using vl_nil; tauto.
  - assert (Hy : ne y -> (valid_from (Some y) s = true <-> vl (y :: s))).
    { intros Hne; rewrite IH, vl_cons. split.
      - intros [H1 H2]; split; [auto|split; [auto|]].
        destruct s as [|z s]; [intros b []|].
        apply gap_hd_all; auto.
      - intros [_ [H1 H2]]; split; auto.
        destruct s as [|z s]; auto; apply H2; left; auto. }
    destruct (Z.geb_spec (min y) (max y)) as [Hge|Hlt].
    + split; [discriminate|]. intros [H _].
      apply vl_cons in H as [H _]; unfold ne in H; lia.
    + assert (Hne : ne y) by (unfold ne; lia).
      destruct p as [q|].
      * destruct (Z.geb_spec (max q) (min y)).
        -- split; [discriminate|]; unfold gap; lia.
        -- rewrite Hy by auto; unfold gap; split; [intros; split; auto; lia | tauto].
      * rewrite Hy by auto; tauto.
Qed.

Lemma Valid_vl s : Valid s = true <-> vl s.
Proof. unfold Valid; rewrite valid_from_spec; tauto. Qed.

(** ** The [std::set] operations on a sorted list *)

Lemma SS_mid l1 x l2 :
  StronglySorted lt (l1 ++ x :: l2) ->
  StronglySorted lt (l1 ++ l2) /\
  (forall p, In p l1 -> lt p x) /\ (forall q, In q l2 -> lt x q).
Proof.
  rewrite !SS_app, SS_cons; intros [H1 [[H2 H3] H4]].
  split; [split; [|split]|split]; auto.
  - intros a b Ha Hb; apply H4; simpl; auto.
  - intros p Hp; apply H4; simpl; auto.
Qed.

Lemma upper_bound_app l1 l2 k :
  (forall p, In p l1 -> ~ lt k p) ->
  set_upper_bound (l1 ++ l2) k = set_upper_bound l2 k.
Proof.
  induction l1 as [|y l1 IH]; intros H; simpl; auto.
  destruct (IntervalLess k y) eqn:E; [exfalso; apply (H y); simpl; auto|].
  apply IH; intros p Hp; apply H; simpl; auto.
Qed.

Lemma upper_bound_cons_lt y l k : lt k y -> set_upper_bound (y :: l) k = Some y.
Proof. unfold lt; simpl; intros ->; reflexivity. Qed.

Lemma upper_bound_mid l1 x l2 :
  StronglySorted lt (l1 ++ x :: l2) ->
  set_upper_bound (l1 ++ x :: l2) x = hd_error l2.
Proof.
  intros H; apply SS_mid in H as [_ [H1 H2]].
  rewrite upper_bound_app by (intros p Hp; apply lt_asym; auto).
  simpl. destruct (IntervalLess x x) eqn:E; [exfalso; apply (lt_irrefl x); auto|].
  destruct l2 as [|q l2]; simpl; auto.
  assert (E2 : IntervalLess x q = true) by (apply H2; simpl; auto).
  rewrite E2; auto.
Qed.

Lemma lower_bound_app l1 l2 k :
  (forall p, In p l1 -> lt p k) ->
  set_lower_bound (l1 ++ l2) k = set_lower_bound l2 k.
Proof.
  induction l1 as [|y l1 IH]; intros H; simpl; auto.
  assert (Hy : IntervalLess y k = true) by (apply H; simpl; auto).
  rewrite Hy; apply IH; intros p Hp; apply H; simpl; auto.
Qed.

Lemma set_last_app l y : set_last (l ++ [y]) = Some y.
Proof.
  induction l as [|a l IH]; simpl; auto.
  rewrite IH; destruct (l ++ [y]) eqn:E; auto.
  destruct l; discriminate.
Qed.

Lemma set_last_cons a l : l <> [] -> set_last (a :: l) = set_last l.
Proof. destruct l; [congruence|reflexivity]. Qed.

Lemma set_last_app2 l1 l2 : l2 <> [] -> set_last (l1 ++ l2) = set_last l2.
Proof.
  intros H; induction l1 as [|a l1 IH]; [reflexivity|].
  rewrite <- app_comm_cons, set_last_cons, IH; auto.
  intros E; apply app_eq_nil in E; tauto.
Qed.

Lemma set_last_split l y : set_last l = Some y -> exists l', l = l' ++ [y].
Proof.
  induction l as [|a l IH]; simpl; [discriminate|].
  destruct l as [|b l].
  - intros H; inversion H; exists []; reflexivity.
  - intros H; destruct (IH H) as [l' E]; exists (a :: l'); rewrite E; reflexivity.
Qed.

Lemma set_last_in l y : set_last l = Some y -> In y l.
Proof.
  intros H; destruct (set_last_split _ _ H) as [l' ->]; apply in_or_app; simpl; auto.
Qed.

Lemma set_last_nil l : set_last l = None -> l = [].
Proof.
  destruct l as [|a l]; auto; intros H.
  destruct (exists_last (l := a :: l) ltac:(discriminate)) as [l' [y E]].
  rewrite E, set_last_app in H; discriminate.
Qed.

Lemma prev_of_app l1 l2 k :
  (forall p, In p l1 -> lt p k) ->
  (forall y l, l2 = y :: l -> ~ lt y k) ->
  set_prev_of (l1 ++ l2) k = set_last l1.
Proof.
  intros H1 H2; induction l1 as [|y l1 IH].
  - destruct l2 as [|y l]; simpl; auto.
    destruct (IntervalLess y k) eqn:E; auto; exfalso; eapply H2; eauto.
  - assert (Hy : IntervalLess y k = true) by (apply H1; simpl; auto).
    cbn [app set_prev_of].
    rewrite Hy, IH by (intros p Hp; apply H1; simpl; auto).
    destruct l1 as [|z l1]; [reflexivity|].
    rewrite (set_last_cons y (z :: l1)) by discriminate.
    destruct (set_last (z :: l1)) eqn:E; auto.
    apply set_last_nil in E; discriminate.
Qed.

Lemma prev_mid l1 x l2 :
  StronglySorted lt (l1 ++ x :: l2) ->
  set_prev (l1 ++ x :: l2) (Some x) = set_last l1.
Proof.
  intros H; apply SS_mid in H as [_ [H1 _]]; simpl.
  apply prev_of_app; auto.
  intros y l E; inversion E; subst; apply lt_irrefl.
Qed.

Lemma prev_hd l1 l2 :
  StronglySorted lt (l1 ++ l2) -> set_prev (l1 ++ l2) (hd_error l2) = set_last l1.
Proof.
  destruct l2 as [|x l2]; simpl.
  - rewrite app_nil_r; auto.
  - intros H; apply (prev_mid l1 x l2 H).
Qed.

Lemma insert_mid l1 l2 x :
  StronglySorted lt (l1 ++ l2) ->
  (forall p, In p l1 -> lt p x) -> (forall q, In q l2 -> lt x q) ->
  set_insert x (l1 ++ l2) = (l1 ++ x :: l2, true).
Proof.
  induction l1 as [|y l1 IH]; intros H H1 H2; simpl.
  - destruct l2 as [|q l2]; simpl; auto.
    assert (E : IntervalLess x q = true) by (apply H2; simpl; auto); rewrite E; auto.
  - assert (Hy : lt y x) by (apply H1; simpl; auto).
    assert (E : IntervalLess x y = false)
      by (destruct (IntervalLess x y) eqn:E; auto; exfalso; apply (lt_asym _ _ Hy E)).
    rewrite E, Hy, IH; auto.
    + apply SS_cons in H; tauto.
    + intros p Hp; apply H1; simpl; auto.
Qed.

Lemma insert_in x s :
  StronglySorted lt s -> In x s -> set_insert x s = (s, false).
Proof.
  induction s as [|y s IH]; intros H Hx; [destruct Hx|]; simpl.
  apply SS_cons in H as [H1 H2].
  destruct Hx as [<-|Hx].
  - rewrite (proj1 (not_true_iff_false _) (lt_irrefl y)); auto.
  - assert (Hyx : lt y x) by auto.
    assert (E : IntervalLess x y = false)
      by (destruct (IntervalLess x y) eqn:E; auto; exfalso; apply (lt_asym _ _ Hyx E)).
    rewrite E, Hyx, IH; auto.
Qed.

Lemma insert_cases x s :
  StronglySorted lt s ->
  (In x s /\ set_insert x s = (s, false)) \/
  (~ In x s /\ exists l1 l2, s = l1 ++ l2 /\ (forall p, In p l1 -> lt p x) /\
     (forall q, In q l2 -> lt x q) /\ set_insert x s = (l1 ++ x :: l2, true)).
Proof.
  intros H.
  destruct (in_dec itv_eq_dec x s) as [Hin|Hnin].
  - left; split; auto using insert_in.
  - right; split; auto.
    induction s as [|y s IH].
    + exists [], []; repeat split; simpl; auto; intros ? [].
    + apply SS_cons in H as [H1 H2].
      assert (Hxy : x <> y) by (intros ->; apply Hnin; simpl; auto).
      destruct (lt_total _ _ Hxy) as [Hl|Hl].
      * exists [], (y :: s); repeat split; simpl; auto.
        -- intros p [].
        -- intros q [<-|Hq]; eauto using lt_trans.
        -- rewrite Hl; auto.
      * destruct IH as [l1 [l2 [E [Ha [Hb Hc]]]]]; auto.
        { intros Hx; apply Hnin; simpl; auto. }
        exists (y :: l1), l2; repeat split; auto.
        -- rewrite E; reflexivity.
        -- intros p [<-|Hp]; auto.
        -- assert (E2 : IntervalLess x y = false)
             by (destruct (IntervalLess x y) eqn:E2; auto; exfalso; apply (lt_asym _ _ Hl E2)).
           simpl; rewrite E2, Hl, Hc; auto.
Qed.

Lemma SS_insert l1 l2 x :
  StronglySorted lt (l1 ++ l2) ->
  (forall p, In p l1 -> lt p x) -> (forall q, In q l2 -> lt x q) ->
  StronglySorted lt (l1 ++ x :: l2).
Proof.
  rewrite !SS_app, SS_cons; intros [H1 [H2 H3]] Hp Hq.
  split; [auto|split; [split; auto|]].
  intros a b Ha [<-|Hb]; auto.
Qed.

Lemma SS_remove l1 x l2 :
  StronglySorted lt (l1 ++ x :: l2) -> StronglySorted lt (l1 ++ l2).
Proof. intros H; apply SS_mid in H; tauto. Qed.

Lemma hd_nlt i l y : StronglySorted lt (i :: l) -> In y (i :: l) -> ~ lt y i.
Proof.
  intros H [<-|Hy]; [apply lt_irrefl|].
  apply SS_cons in H as [_ H]; apply lt_asym; auto.
Qed.

Lemma filter_keep_all (f : Interval -> bool) l :
  (forall y, In y l -> f y = true) -> filter f l = l.
Proof.
  induction l as [|a l IH]; intros H; simpl; auto.
  rewrite H by (simpl; auto); f_equal; apply IH; intros y Hy; apply H; simpl; auto.
Qed.

Lemma filter_drop_all (f : Interval -> bool) l :
  (forall y, In y l -> f y = false) -> filter f l = [].
Proof.
  induction l as [|a l IH]; intros H; simpl; auto.
  rewrite H by (simpl; auto); apply IH; intros y Hy; apply H; simpl; auto.
Qed.

Lemma erase_mid l1 x l2 :
  StronglySorted lt (l1 ++ x :: l2) -> set_erase (l1 ++ x :: l2) x = l1 ++ l2.
Proof.
  intros H; apply SS_mid in H as [_ [H1 H2]]; unfold set_erase.
  rewrite filter_app; simpl; rewrite eqb_refl; simpl.
  rewrite !filter_keep_all; auto.
  - intros y Hy; rewrite eqb_false; auto.
    intros ->; apply (lt_irrefl x); auto.
  - intros y Hy; rewrite eqb_false; auto.
    intros ->; apply (lt_irrefl x); auto.
Qed.

Lemma next_mid l1 x l2 :
  StronglySorted lt (l1 ++ x :: l2) -> set_next (l1 ++ x :: l2) (Some x) = hd_error l2.
Proof. apply upper_bound_mid. Qed.

Lemma erase_range_mid D K M :
  StronglySorted lt (D ++ K ++ M) ->
  set_erase_range (D ++ K ++ M) (hd_error (K ++ M)) (hd_error M) = D ++ M.
Proof.
  intros H. destruct (hd_error (K ++ M)) as [i|] eqn:Eh.
  2:{ destruct K, M; try discriminate; reflexivity. }
  assert (EKM : exists l, K ++ M = i :: l)
    by (destruct (K ++ M) as [|i' l]; [discriminate|injection Eh as <-; eauto]).
  destruct EKM as [l EKM].
  apply SS_app in H as [_ [HKM HD]].
  assert (Hi : StronglySorted lt (i :: l)) by (rewrite <- EKM; auto).
  apply SS_app in HKM as [_ [HM HKM]].
  unfold set_erase_range.
    rewrite !filter_app, (filter_keep_all _ D), (filter_drop_all _ K),
      (filter_keep_all _ M); auto.
    + intros y Hy; apply orb_true_iff; right.
      destruct M as [|m M]; simpl; [|apply negb_true_iff].
      * exfalso; revert Hy; rewrite app_nil_r in EKM. auto.
      * destruct Hy as [<-|Hy].
        -- apply (proj1 (not_true_iff_false _)), lt_irrefl.
        -- apply SS_cons in HM as [_ HM]; apply (proj1 (not_true_iff_false _)), lt_asym; auto.
    + intros y Hy; apply orb_false_iff; split.
      * apply (proj1 (not_true_iff_false _)), (hd_nlt i l); auto.
        rewrite <- EKM; apply in_or_app; auto.
      * destruct M as [|m M]; simpl; auto; apply negb_false_iff, HKM; simpl; auto.
    + intros y Hy; apply orb_true_iff; left; apply HD; auto.
      rewrite EKM; simpl; auto.
Qed.


(** ** [Compact] *)

Lemma merge_run_min c p l :
  c <= min p -> Forall (fun z => c <= min z) l ->
  forall y, In y (merge_run p l) -> c <= min y.
Proof.
  revert p; induction l as [|x l IH]; intros p Hp Hl y Hy; simpl in Hy.
  - destruct Hy as [<-|[]]; auto.
  - apply Forall_cons_iff in Hl as [Hx Hl].
    destruct (min x <=? max p).
    + eapply IH; [|exact Hl|exact Hy]; simpl; lia.
    + destruct Hy as [<-|Hy]; auto. apply (IH _ Hx Hl y Hy).
Qed.

Lemma merge_run_max c p l :
  max p < c -> Forall (fun z => max z < c) l ->
  forall y, In y (merge_run p l) -> max y < c.
Proof.
  revert p; induction l as [|x l IH]; intros p Hp Hl y Hy; simpl in Hy.
  - destruct Hy as [<-|[]]; auto.
  - apply Forall_cons_iff in Hl as [Hx Hl].
    destruct (min x <=? max p).
    + eapply IH; [|exact Hl|exact Hy]; simpl; lia.
    + destruct Hy as [<-|Hy]; auto. apply (IH _ Hx Hl y Hy).
Qed.

Lemma merge_run_vl p l :
  ne p -> Forall ne l -> StronglySorted (fun a b => min a <= min b) (p :: l) ->
  vl (merge_run p l).
Proof.
  revert p; induction l as [|x l IH]; intros p Hp Hl Hs; simpl.
  - apply vl_single; auto.
  - apply Forall_cons_iff in Hl as [Hx Hl].
    apply SS_cons in Hs as [Hs Hpx]; apply SS_cons in Hs as [Hs Hxl].
    destruct (min x <=? max p) eqn:E.
    + apply IH; auto.
      * unfold ne in *; simpl; lia.
      * apply SS_cons; split; auto.
        intros b Hb; simpl; specialize (Hpx b (or_intror Hb)); auto.
    + apply Z.leb_gt in E. apply vl_cons; split; [auto|split].
      * apply IH; auto; apply SS_cons; auto.
      * intros b Hb; unfold gap.
        assert (min x <= min b); [|lia].
        apply (merge_run_min (min x) x l); auto; [lia|].
        apply Forall_forall; auto.
Qed.

Lemma merge_run_inS p l v :
  ne p -> Forall ne l -> StronglySorted (fun a b => min a <= min b) (p :: l) ->
  inS (merge_run p l) v <-> inS (p :: l) v.
Proof.
  revert p; induction l as [|x l IH]; intros p Hp Hl Hs; simpl; [tauto|].
  apply Forall_cons_iff in Hl as [Hx Hl].
  apply SS_cons in Hs as [Hs Hpx]; apply SS_cons in Hs as [Hs Hxl].
  assert (Hpx' : min p <= min x) by (apply Hpx; simpl; auto).
  destruct (min x <=? max p) eqn:E.
  - apply Z.leb_le in E. rewrite IH; auto.
    + unfold inS, in_itv, ne in *; simpl; split.
      * intros [i [[<-|Hi] Hv]]; simpl in Hv.
        -- destruct (Z.le_gt_cases (max p) v).
           ++ exists x; simpl; split; auto; lia.
           ++ exists p; simpl; split; auto; lia.
        -- exists i; simpl; auto.
      * intros [i [[<-|[<-|Hi]] Hv]].
        -- exists (make (min p) (Z.max (max p) (max x))); simpl; split; auto; lia.
        -- exists (make (min p) (Z.max (max p) (max x))); simpl; split; auto; lia.
        -- exists i; simpl; auto.
    + unfold ne in *; simpl; lia.
    + apply SS_cons; split; auto.
      intros b Hb; simpl; apply (Hpx b (or_intror Hb)).
  - unfold inS; split.
    + intros [i [[<-|Hi] Hv]]; [exists p; simpl; auto|].
      destruct (proj1 (IH x Hx Hl (proj2 (SS_cons _ _ _) (conj Hs Hxl)))
        (ex_intro _ i (conj Hi Hv))) as [j Hj].
      exists j; simpl; tauto.
    + intros [i [[<-|Hi] Hv]]; [exists p; simpl; auto|].
      destruct (proj2 (IH x Hx Hl (proj2 (SS_cons _ _ _) (conj Hs Hxl)))
        (ex_intro _ i (conj Hi Hv))) as [j Hj].
      exists j; simpl; tauto.
Qed.


Lemma lt_merge p x q :
  lt p x -> lt x q -> lt p q ->
  lt (make (min p) (Z.max (max p) (max x))) q.
Proof. rewrite !lt_unfold; simpl; lia. Qed.

Lemma compact_loop_spec mid : forall fuel pre prev post,
  StronglySorted lt (pre ++ prev :: mid ++ post) ->
  Forall ne (pre ++ prev :: mid) ->
  (forall p, In p pre -> max p < min prev) ->
  (length mid < fuel)%nat ->
  compact_loop fuel (pre ++ prev :: mid ++ post) prev
    (hd_error (mid ++ post)) (hd_error (mid ++ post)) (hd_error post)
  = Some (pre ++ merge_run prev mid ++ post).
Proof.
  induction mid as [|x mid IH]; intros fuel pre prev post Hs Hne Hpre Hf;
    (destruct fuel as [|fuel]; [simpl in Hf; lia|]).
  - simpl. rewrite iter_eqb_refl; reflexivity.
  - assert (Hs' : StronglySorted lt ((pre ++ [prev]) ++ x :: mid ++ post))
      by (rewrite <- app_assoc; exact Hs).
    pose proof (SS_mid _ _ _ Hs') as [Hs2 [Hb Ha]].
    assert (Hpx : lt prev x) by (apply Hb, in_or_app; simpl; auto).
    pose proof (SS_mid _ _ _ Hs) as [_ [Hprex _]].
    cbn [compact_loop app hd_error].
    rewrite iter_eqb_false.
    2:{ destruct post as [|q post]; [discriminate|].
        intros E; injection E as E.
        apply (lt_irrefl x); rewrite E at 2; apply Ha, in_or_app; simpl; auto. }
    assert (En : set_next (pre ++ prev :: x :: mid ++ post) (Some x) = hd_error (mid ++ post))
      by (replace (pre ++ prev :: x :: mid ++ post) with ((pre ++ [prev]) ++ x :: mid ++ post)
            by (rewrite <- app_assoc; reflexivity); apply next_mid; auto).
    rewrite En.
    apply Forall_app in Hne as [Hnepre Hne].
    apply Forall_cons_iff in Hne as [Hnep Hne]; apply Forall_cons_iff in Hne as [Hnex Hne].
    destruct (min x <=? max prev) eqn:E.
    + apply Z.leb_le in E.
      rewrite (erase_mid pre prev (x :: mid ++ post)) by auto.
      rewrite (erase_mid pre x (mid ++ post)).
      2:{ rewrite <- (app_assoc pre [prev]) in Hs'. apply SS_remove in Hs; auto. }
      set (m := make (min prev) (Z.max (max prev) (max x))).
      assert (Hm1 : forall p, In p pre -> lt p m).
      { intros p Hp; specialize (Hpre p Hp). rewrite Forall_forall in Hnepre.
        specialize (Hnepre p Hp); unfold ne in Hnepre; subst m.
        rewrite lt_unfold; simpl; lia. }
      assert (Hm2 : forall q, In q (mid ++ post) -> lt m q).
      { intros q Hq; apply lt_merge; [exact Hpx|apply Ha; auto|].
        apply lt_trans with x; auto. }
      assert (Hss : StronglySorted lt (pre ++ mid ++ post)).
      { apply SS_remove in Hs; apply SS_remove in Hs; auto. }
      rewrite insert_mid; auto.
      rewrite IH; auto.
      * simpl; rewrite (proj2 (Z.leb_le _ _) E); reflexivity.
      * apply SS_insert; auto.
      * apply Forall_app; split; auto.
        constructor; auto. unfold ne in *; subst m; simpl; lia.
      * simpl in Hf; lia.
    + apply Z.leb_gt in E.
      replace (pre ++ prev :: x :: mid ++ post) with ((pre ++ [prev]) ++ x :: mid ++ post)
        by (rewrite <- app_assoc; reflexivity).
      rewrite IH; auto.
      * simpl; rewrite (proj2 (Z.leb_gt _ _) E), <- app_assoc; reflexivity.
      * apply Forall_app; split; auto. apply Forall_app; split; auto.
      * intros p Hp; apply in_app_or in Hp as [Hp|[<-|[]]]; [|lia].
        specialize (Hpre p Hp); apply lt_min in Hpx; lia.
      * simpl in Hf; lia.
Qed.


(** ** Denotations *)

Lemma inS_nil v : ~ inS [] v.
Proof. intros [i [[] _]]. Qed.

Lemma inS_cons a l v : inS (a :: l) v <-> in_itv a v \/ inS l v.
Proof.
  unfold inS; split.
  - intros [i [[<-|Hi] Hv]]; [left; auto|right; exists i; auto].
  - intros [Hv|[i [Hi Hv]]]; [exists a|exists i]; simpl; auto.
Qed.

Lemma inS_app l1 l2 v : inS (l1 ++ l2) v <-> inS l1 v \/ inS l2 v.
Proof.
  induction l1 as [|a l1 IH]; simpl.
  - pose proof (inS_nil v); tauto.
  - rewrite !inS_cons, IH; tauto.
Qed.

Lemma SS_lt_min l : StronglySorted lt l -> StronglySorted (fun a b => min a <= min b) l.
Proof.
  induction l as [|a l IH]; intros H; [constructor|].
  apply SS_cons in H as [H1 H2]; apply SS_cons; split; auto.
  intros b Hb; apply lt_min; auto.
Qed.

(** Splits a sorted list at the first interval starting after [c]. *)
Lemma split_le c l :
  StronglySorted lt l ->
  exists mid post, l = mid ++ post /\ (forall y, In y mid -> min y <= c) /\
    (forall q, In q post -> c < min q).
Proof.
  induction l as [|a l IH]; intros H.
  - exists [], []; simpl; repeat split; tauto.
  - apply SS_cons in H as [H1 H2].
    destruct (Z.le_gt_cases (min a) c) as [Ha|Ha].
    + destruct (IH H1) as [mid [post [-> [Hm Hp]]]].
      exists (a :: mid), post; split; [reflexivity|split; auto].
      intros y [<-|Hy]; auto.
    + exists [], (a :: l); split; [reflexivity|split; [intros y []|]].
      intros q [<-|Hq]; auto. specialize (H2 q Hq); apply lt_min in H2; lia.
Qed.

Lemma vl_hd_in a l : vl (a :: l) -> inS (a :: l) (min a).
Proof.
  intros H; apply vl_cons in H as [Ha _]; exists a; simpl; unfold in_itv, ne in *; split; auto; lia.
Qed.

Lemma vl_tail_ge a l v : vl (a :: l) -> inS l v -> max a < v.
Proof.
  intros H [i [Hi Hv]]; apply vl_cons in H as [_ [_ H]].
  specialize (H i Hi); unfold gap, in_itv in *; lia.
Qed.

Lemma vl_inS_ge a l v : vl (a :: l) -> inS (a :: l) v -> min a <= v.
Proof.
  intros H Hv; apply inS_cons in Hv as [Hv|Hv]; [unfold in_itv in Hv; lia|].
  pose proof (vl_tail_ge _ _ _ H Hv); apply vl_cons in H as [Ha _]; unfold ne in Ha; lia.
Qed.

(** A valid set is determined by the values it represents. *)
Lemma vl_ext r1 : forall r2, vl r1 -> vl r2 -> (forall v, inS r1 v <-> inS r2 v) -> r1 = r2.
Proof.
  induction r1 as [|a r1 IH]; intros [|b r2] H1 H2 Hv; auto.
  - exfalso; apply (inS_nil (min b)), Hv, vl_hd_in; auto.
  - exfalso; apply (inS_nil (min a)), Hv, vl_hd_in; auto.
  - assert (Emin : min a = min b).
    { pose proof (vl_inS_ge _ _ _ H2 (proj1 (Hv _) (vl_hd_in _ _ H1))).
      pose proof (vl_inS_ge _ _ _ H1 (proj2 (Hv _) (vl_hd_in _ _ H2))). lia. }
    assert (Emax : max a = max b).
    { pose proof (vl_cons a r1) as [Ha _]; pose proof (vl_cons b r2) as [Hb _].
      destruct (Ha H1) as [Hna _], (Hb H2) as [Hnb _]; unfold ne in *.
      destruct (Z.lt_trichotomy (max a) (max b)) as [Hlt|[Heq|Hgt]]; auto; exfalso.
      - assert (Hin : inS (a :: r1) (max a))
          by (apply Hv, inS_cons; left; unfold in_itv; lia).
        apply inS_cons in Hin as [Hin|Hin]; [unfold in_itv in Hin; lia|].
        pose proof (vl_tail_ge _ _ _ H1 Hin); lia.
      - assert (Hin : inS (b :: r2) (max b))
          by (apply Hv, inS_cons; left; unfold in_itv; lia).
        apply inS_cons in Hin as [Hin|Hin]; [unfold in_itv in Hin; lia|].
        pose proof (vl_tail_ge _ _ _ H2 Hin); lia. }
    assert (a = b) as <- by (apply itv_eq; auto).
    f_equal; apply IH; [apply vl_cons in H1; tauto|apply vl_cons in H2; tauto|].
    intros v; split; intros Hin.
    + pose proof (vl_tail_ge _ _ _ H1 Hin).
      assert (Hb : inS (a :: r2) v) by (apply Hv, inS_cons; auto).
      apply inS_cons in Hb as [Hb|Hb]; auto; unfold in_itv in Hb; lia.
    + pose proof (vl_tail_ge _ _ _ H2 Hin).
      assert (Hb : inS (a :: r1) v) by (apply Hv, inS_cons; auto).
      apply inS_cons in Hb as [Hb|Hb]; auto; unfold in_itv in Hb; lia.
Qed.


Lemma compact_core pre prev mid post :
  StronglySorted lt (pre ++ prev :: mid ++ post) ->
  Forall ne (pre ++ prev :: mid ++ post) ->
  vl pre -> vl post ->
  (forall p, In p pre -> max p < min prev) ->
  (forall y q, In y (prev :: mid) -> In q post -> max y < min q) ->
  exists r,
    compact_loop (S (length (pre ++ prev :: mid ++ post))) (pre ++ prev :: mid ++ post)
      prev (hd_error (mid ++ post)) (hd_error (mid ++ post)) (hd_error post) = Some r /\
    vl r /\ (forall v, inS r v <-> inS (pre ++ prev :: mid ++ post) v).
Proof.
  intros Hs Hne Hpre Hpost Hp Hq.
  assert (Hne' : Forall ne (pre ++ prev :: mid)).
  { apply Forall_app in Hne as [H1 H2]; apply Forall_app; split; auto.
    apply Forall_cons_iff in H2 as [H2 H3]; constructor; auto.
    apply Forall_app in H3; tauto. }
  assert (Hrun : StronglySorted lt (prev :: mid)).
  { apply SS_app in Hs as [_ [Hs _]]. change (prev :: mid ++ post) with ((prev :: mid) ++ post) in Hs.
    apply SS_app in Hs; tauto. }
  pose proof (SS_lt_min _ Hrun) as Hrun'.
  apply Forall_app in Hne' as [Hne1 Hne2]; apply Forall_cons_iff in Hne2 as [Hnep Hnem].
  exists (pre ++ merge_run prev mid ++ post); split; [|split].
  - apply compact_loop_spec; auto.
    + apply Forall_app; auto.
    + rewrite !length_app; simpl; rewrite length_app; lia.
  - apply vl_app; split; [auto|split].
    + apply vl_app; split; [apply merge_run_vl; auto|split; auto].
      intros a b Ha Hb; unfold gap.
      apply (merge_run_max (min b) prev mid); auto.
      * apply Hq; simpl; auto.
      * apply Forall_forall; intros z Hz; apply Hq; simpl; auto.
    + intros a b Ha Hb; apply in_app_or in Hb as [Hb|Hb]; unfold gap.
      * specialize (Hp a Ha).
        assert (min prev <= min b); [|lia].
        apply (merge_run_min (min prev) prev mid); auto; [lia|].
        apply Forall_forall; intros z Hz. apply SS_cons in Hrun' as [_ Hr]; auto.
      * specialize (Hp a Ha); specialize (Hq prev b (or_introl eq_refl) Hb).
        unfold ne in Hnep; lia.
  - intros v; rewrite !inS_app, merge_run_inS by auto.
    rewrite !inS_cons, !inS_app; tauto.
Qed.


Ltac in_solve H := revert H; repeat (rewrite in_app_iff || (progress simpl)); tauto.

(** ** [Add] *)


Lemma upper_bound_probe l1 l2 c :
  Forall ne l1 -> (forall y, In y l1 -> min y <= c) -> (forall q, In q l2 -> c < min q) ->
  set_upper_bound (l1 ++ l2) (make c c) = hd_error l2.
Proof.
  intros Hne H1 H2. rewrite upper_bound_app.
  - destruct l2 as [|q l2]; [reflexivity|].
    apply upper_bound_cons_lt; rewrite lt_unfold; simpl.
    specialize (H2 q (or_introl eq_refl)); lia.
  - intros p Hp; rewrite nlt_unfold; simpl.
    rewrite Forall_forall in Hne; specialize (Hne p Hp); specialize (H1 p Hp); unfold ne in Hne; lia.
Qed.

Lemma Compact_core pre prev mid post :
  StronglySorted lt (pre ++ prev :: mid ++ post) ->
  Forall ne (pre ++ prev :: mid ++ post) ->
  vl pre -> vl post ->
  (forall p, In p pre -> max p < min prev) ->
  (forall y q, In y (prev :: mid) -> In q post -> max y < min q) ->
  exists r,
    Compact (pre ++ prev :: mid ++ post) (Some prev) (hd_error post) = Some r /\
    vl r /\ (forall v, inS r v <-> inS (pre ++ prev :: mid ++ post) v).
Proof.
  intros Hs Hne Hpre Hpost Hp Hq. unfold Compact.
  rewrite iter_eqb_false.
  2:{ destruct post as [|q post]; [discriminate|]; intros E; injection E as <-.
      specialize (Hq prev prev (or_introl eq_refl) (or_introl eq_refl)).
      rewrite Forall_forall in Hne.
      assert (ne prev) by (apply Hne, in_or_app; simpl; auto).
      unfold ne in *; lia. }
  rewrite next_mid by auto.
  apply compact_core; auto.
Qed.

Lemma Add_spec s i :
  vl s -> exists r, QuicIntervalSet.Add s i = Some r /\ vl r /\
    (forall v, inS r v <-> inS s v \/ in_itv i v).
Proof.
  intros Hs. unfold QuicIntervalSet.Add.
  destruct (QuicInterval.Empty i) eqn:Ei.
  - exists s; split; [reflexivity|split; auto].
    unfold QuicInterval.Empty in Ei; apply Z.leb_le in Ei.
    intros v; unfold in_itv; split; [tauto|intros [H|H]; auto; lia].
  - unfold QuicInterval.Empty in Ei; apply Z.leb_gt in Ei.
    pose proof (vl_sorted_lt _ Hs) as Hss.
    destruct (insert_cases i s Hss) as [[Hin ->]|[Hnin [l1 [l2 [-> [H1 [H2 ->]]]]]]].
    + exists s; split; [reflexivity|split; auto].
      intros v; split; [tauto|intros [H|H]; auto; exists i; auto].
    + cbn [negb].
      assert (Hs' : StronglySorted lt (l1 ++ i :: l2)) by (apply SS_insert; auto).
      assert (Hne : Forall ne (l1 ++ i :: l2)).
      { destruct Hs as [Hn _]; apply Forall_app in Hn as [Hn1 Hn2].
        apply Forall_app; split; auto. }
      apply vl_app in Hs as [Hv1 [Hv2 Hg]].
      destruct (split_le (max i) (i :: l2)) as [mid [post [Em [Hm Hp]]]].
      { apply SS_app in Hs' as [_ [Hs' _]]; auto. }
      destruct mid as [|i' mid'].
      { exfalso; simpl in Em; subst post; specialize (Hp i (or_introl eq_refl)); lia. }
      injection Em as <- El2; subst l2.
      assert (Hpost : vl post) by (apply vl_app in Hv2; tauto).
      assert (Hq : forall y q, In y (i :: mid') -> In q post -> max y < min q).
      { intros y q [<-|Hy] Hq; [specialize (Hp q Hq); lia|].
        apply vl_app in Hv2 as [_ [_ Hg2]]; apply (Hg2 y q Hy Hq). }
      destruct (set_last l1) as [p|] eqn:El.
      * apply set_last_split in El as [pre ->].
        rewrite iter_eqb_false.
        2:{ destruct pre as [|a pre]; simpl; intros E; injection E as E.
            - apply (lt_irrefl p); rewrite <- E at 2; apply H1, in_or_app; simpl; auto.
            - apply (lt_irrefl a); rewrite <- E at 2; apply H1; simpl; auto. }
        rewrite prev_mid by auto.
        rewrite set_last_app.
        replace ((pre ++ [p]) ++ i :: mid' ++ post) with (pre ++ p :: (i :: mid') ++ post)
          by (rewrite <- app_assoc; reflexivity).
        assert (Eu : set_upper_bound (pre ++ p :: (i :: mid') ++ post) (make (max i) (max i))
                     = hd_error post).
        { replace (pre ++ p :: (i :: mid') ++ post) with ((pre ++ p :: i :: mid') ++ post)
            by (rewrite <- app_assoc; reflexivity).
          apply upper_bound_probe; auto.
          - apply Forall_forall; intros y Hy; apply (proj1 (Forall_forall _ _) Hne).
            in_solve Hy.
          - intros y Hy; apply in_app_or in Hy as [Hy|[<-|Hy]].
            + assert (Hl : lt y i) by (apply H1, in_or_app; auto); apply lt_min in Hl; lia.
            + assert (Hl : lt p i) by (apply H1, in_or_app; simpl; auto); apply lt_min in Hl; lia.
            + apply Hm; auto. }
        rewrite Eu.
        apply vl_app in Hv1 as [Hpre [_ Hpp]].
        destruct (Compact_core pre p (i :: mid') post) as [r [Hc [Hr Hd]]]; auto.
        -- rewrite <- app_assoc in Hs'; auto.
        -- apply Forall_forall; intros y Hy; apply (proj1 (Forall_forall _ _) Hne).
           in_solve Hy.
        -- intros a Ha; apply (Hpp a p Ha); simpl; auto.
        -- intros y q [<-|Hy] Hq'; [|apply Hq; auto].
           apply (Hg p q); [apply in_or_app; simpl; auto|apply in_or_app; auto].
        -- exists r; split; [auto|split; auto].
           intros v; pose proof (inS_nil v).
           rewrite Hd, !inS_app, !inS_cons, !inS_app, !inS_cons; tauto.
      * apply set_last_nil in El; subst l1; simpl app in *.
        rewrite iter_eqb_refl.
        assert (Eu : set_upper_bound (i :: mid' ++ post) (make (max i) (max i)) = hd_error post).
        { change (i :: mid' ++ post) with ((i :: mid') ++ post).
          apply upper_bound_probe; auto.
          apply Forall_forall; intros y Hy; apply (proj1 (Forall_forall _ _) Hne).
          in_solve Hy. }
        rewrite Eu.
        destruct (Compact_core [] i mid' post) as [r [Hc [Hr Hd]]];
          [exact Hs'|exact Hne|apply vl_nil|exact Hpost|intros a []|exact Hq|].
        -- exists r; split; [auto|split; auto].
           intros v; rewrite Hd; simpl app; rewrite !inS_cons, !inS_app; tauto.
Qed.

Lemma AddOptimizedForAppend_spec s i :
  vl s -> exists r, AddOptimizedForAppend s i = Some r /\ vl r /\
    (forall v, inS r v <-> inS s v \/ in_itv i v).
Proof.
  intros Hs. unfold AddOptimizedForAppend.
  destruct (QuicIntervalSet.Empty s); [apply Add_spec; auto|].
  destruct (set_last s) as [L|] eqn:EL; [|apply Add_spec; auto].
  destruct ((min i <? min L) || (min i >? max L)) eqn:Ec; [apply Add_spec; auto|].
  apply orb_false_iff in Ec as [Ec1 Ec2]; apply Z.ltb_ge in Ec1.
  rewrite Z.gtb_ltb in Ec2; apply Z.ltb_ge in Ec2.
  apply set_last_split in EL as [s0 ->].
  apply vl_app in Hs as [Hs0 [HL Hg]].
  assert (HnL : ne L) by (apply vl_cons in HL; tauto).
  destruct (max i <=? max L) eqn:Em.
  - apply Z.leb_le in Em. exists (s0 ++ [L]); split; [reflexivity|split].
    + apply vl_app; auto.
    + intros v; rewrite inS_app, inS_cons; pose proof (inS_nil v) as Hnil.
      unfold in_itv in *; split; [tauto|]; intros [H0|H0]; [tauto|].
      right; left; lia.
  - apply Z.leb_gt in Em.
    exists (s0 ++ [QuicInterval.SetMax L (max i)]); split; [rewrite removelast_last; reflexivity|split].
    + apply vl_app; split; [auto|split; [apply vl_single; unfold ne, QuicInterval.SetMax in *; simpl; lia|]].
      intros a b Ha [<-|[]]. specialize (Hg a L Ha (or_introl eq_refl)).
      unfold gap, QuicInterval.SetMax in *; simpl; lia.
    + intros v; rewrite !inS_app, !inS_cons; pose proof (inS_nil v) as Hnil.
      unfold in_itv, QuicInterval.SetMax, ne in *; simpl. split.
      * intros [H0|[H0|H0]]; [tauto| |tauto].
        destruct (Z.lt_ge_cases v (max L)); [left; right; left; lia|right; lia].
      * intros [[H0|[H0|H0]]|H0]; [tauto|right; left; lia|tauto|right; left; lia].
Qed.

Lemma fold_insert_spec other : forall s,
  StronglySorted lt s ->
  let u := fold_left (fun acc x => fst (set_insert x acc)) other s in
  StronglySorted lt u /\ (forall y, In y u <-> In y s \/ In y other).
Proof.
  induction other as [|x other IH]; intros s Hs; simpl.
  - split; auto; tauto.
  - destruct (insert_cases x s Hs) as [[Hin E]|[Hnin [l1 [l2 [-> [H1 [H2 E]]]]]]];
      rewrite E; simpl.
    + destruct (IH s Hs) as [Hu Hy]; split; auto.
      intros y; rewrite Hy; split; [tauto|]; intros [H|[<-|H]]; auto.
    + destruct (IH (l1 ++ x :: l2)) as [Hu Hy]; [apply SS_insert; auto|].
      split; auto. intros y; rewrite Hy, !in_app_iff; simpl; tauto.
Qed.

Lemma Union_spec s other :
  vl s -> vl other -> exists r, Union s other = Some r /\ vl r /\
    (forall v, inS r v <-> inS s v \/ inS other v).
Proof.
  intros Hs Ho. unfold Union.
  destruct (fold_insert_spec other s (vl_sorted_lt _ Hs)) as [Hu Hy].
  set (u := fold_left (fun acc x => fst (set_insert x acc)) other s) in *.
  assert (Hd : forall v, inS u v <-> inS s v \/ inS other v).
  { intros v; split.
    - intros [i [Hi Hv]]; apply Hy in Hi as [Hi|Hi]; [left|right]; exists i; auto.
    - intros [[i [Hi Hv]]|[i [Hi Hv]]]; exists i; split; auto; apply Hy; auto. }
  assert (Hne : Forall ne u).
  { apply Forall_forall; intros y Hi; apply Hy in Hi as [Hi|Hi]; [apply (vl_ne s)|apply (vl_ne other)]; auto. }
  clearbody u. destruct u as [|b rest].
  - exists []; split; [reflexivity|split; [apply vl_nil|]].
    intros v; rewrite <- Hd; tauto.
  - destruct (Compact_core [] b rest []) as [r [Hc [Hr Hd']]];
      rewrite ?app_nil_r; auto; try apply vl_nil; try (intros ? ? ? []); try (intros ? []).
    simpl in Hc, Hd'; rewrite app_nil_r in Hc, Hd'.
    exists r; split; [exact Hc|split; auto].
    intros v; rewrite Hd'; auto.
Qed.

Lemma of_interval_spec i :
  exists r, of_interval i = Some r /\ vl r /\ (forall v, inS r v <-> in_itv i v).
Proof.
  destruct (Add_spec [] i vl_nil) as [r [Ha [Hr Hd]]].
  exists r; split; [exact Ha|split; auto].
  intros v; rewrite Hd; pose proof (inS_nil v); tauto.
Qed.

(** ** [FindNextIntersectingPairImpl] *)

Lemma vl_drop_mid D K M : vl (D ++ K ++ M) -> vl (D ++ M).
Proof.
  rewrite !vl_app; intros [H1 [[H2 [H3 H4]] H5]]; split; [auto|split; [auto|]].
  intros a b Ha Hb; apply H5; auto; apply in_or_app; auto.
Qed.

Lemma vl_hd_le a l b : vl (a :: l) -> In b (a :: l) -> min a <= min b.
Proof.
  intros H [<-|Hb]; [lia|]. apply vl_cons in H as [Ha [_ H]].
  specialize (H b Hb); unfold gap, ne in *; lia.
Qed.

Lemma not_intersects m t :
  ne m -> ne t -> QuicInterval.Intersects m t = false -> max m <= min t \/ max t <= min m.
Proof.
  unfold ne, QuicInterval.Intersects, QuicInterval.Empty; intros Hm Ht.
  rewrite (proj2 (Z.leb_gt _ _) Hm), (proj2 (Z.leb_gt _ _) Ht); simpl.
  rewrite andb_false_iff, !Z.ltb_ge; lia.
Qed.

Lemma intersects_true m t :
  QuicInterval.Intersects m t = true -> ne m /\ ne t /\ min t < max m /\ min m < max t.
Proof.
  unfold ne, QuicInterval.Intersects, QuicInterval.Empty.
  rewrite !andb_true_iff, !negb_true_iff, !Z.leb_gt, !Z.ltb_lt; tauto.
Qed.

Lemma no_hole_spec : hole_spec true no_hole.
Proof. intros D K M _; reflexivity. Qed.

Lemma erase_hole_spec : hole_spec false erase_hole.
Proof. intros D K M H; apply erase_range_mid, vl_sorted_lt; auto. Qed.

Lemma skip_mine_spec t M : forall D fuel, vl (D ++ M) -> (length M < fuel)%nat ->
  exists K M', M = K ++ M' /\ (forall k, In k K -> max k <= min t) /\
    (forall m' M2, M' = m' :: M2 -> min t < max m') /\
    skip_mine fuel (D ++ M) (hd_error M) t = Some (hd_error M').
Proof.
  induction M as [|m M IH]; intros D [|fuel] Hv Hf; simpl in Hf; try lia.
  - exists [], []; repeat split; try discriminate; intros k [].
  - cbn [skip_mine hd_error].
    destruct (max m <=? min t) eqn:E.
    + apply Z.leb_le in E.
      rewrite next_mid by (apply vl_sorted_lt; auto).
      replace (D ++ m :: M) with ((D ++ [m]) ++ M) in * by (rewrite <- app_assoc; reflexivity).
      destruct (IH (D ++ [m]) fuel) as [K [M' [-> [HK [Hh Hs]]]]]; auto; [lia|].
      exists (m :: K), M'; repeat split; auto.
      intros k [<-|Hk]; auto.
    + apply Z.leb_gt in E.
      exists [], (m :: M); repeat split; auto; [intros k []|].
      intros m' M2 Em; injection Em as <- _; auto.
Qed.

Lemma skip_theirs_spec m T : forall T0 fuel, vl (T0 ++ T) -> (length T < fuel)%nat ->
  exists L T', T = L ++ T' /\ (forall l, In l L -> max l <= min m) /\
    (forall t' T2, T' = t' :: T2 -> min m < max t') /\
    skip_theirs fuel (T0 ++ T) (hd_error T) m = Some (hd_error T').
Proof.
  induction T as [|t T IH]; intros T0 [|fuel] Hv Hf; simpl in Hf; try lia.
  - exists [], []; repeat split; try discriminate; intros k [].
  - cbn [skip_theirs hd_error].
    destruct (max t <=? min m) eqn:E.
    + apply Z.leb_le in E.
      rewrite next_mid by (apply vl_sorted_lt; auto).
      replace (T0 ++ t :: T) with ((T0 ++ [t]) ++ T) in * by (rewrite <- app_assoc; reflexivity).
      destruct (IH (T0 ++ [t]) fuel) as [L [T' [-> [HL [Hh Hs]]]]]; auto; [lia|].
      exists (t :: L), T'; repeat split; auto.
      intros l [<-|Hl]; auto.
    + apply Z.leb_gt in E.
      exists [], (t :: T); repeat split; auto; [intros l []|].
      intros t' T2 Et; injection Et as <- _; auto.
Qed.

Lemma vl_suffix l1 l2 : vl (l1 ++ l2) -> vl l2.
Proof. rewrite vl_app; tauto. Qed.

Lemma vl_prefix l1 l2 : vl (l1 ++ l2) -> vl l1.
Proof. rewrite vl_app; tauto. Qed.

Lemma fnip_loop_spec keep on_hole y :
  hole_spec keep on_hole -> forall fuel T0 M T D,
  vl (D ++ M) -> vl y -> y = T0 ++ T -> M <> [] -> T <> [] ->
  (length M + length T <= fuel)%nat ->
  exists K M' L T' (found : bool) x',
    fnip_loop fuel on_hole (D ++ M) y (hd_error M) (hd_error T)
      = Some (found, x', hd_error M', hd_error T') /\
    M = K ++ M' /\ T = L ++ T' /\
    (forall k b, In k K -> In b T -> max k <= min b \/ max b <= min k) /\
    (forall b m, In b L -> In m M' -> max b <= min m) /\
    (if found then meets M' T' = true /\ x' = D ++ (if keep then K else []) ++ M'
     else (M' = [] \/ T' = []) /\ x' = D ++ (if keep then K ++ M' else [])) /\
    ((meets M T = true /\ K = [] /\ L = [] /\ found = true) \/
     (meets M T = false /\ (0 < length K + length L)%nat)).
Proof.
  intros Hh fuel; induction fuel as [|f IH]; intros T0 M T D Hx Hy Ey HM HT Hf.
  { destruct M; [contradiction|simpl in Hf; lia]. }
  destruct M as [|m M1]; [contradiction|]; destruct T as [|t T1]; [contradiction|].
  cbn [fnip_loop hd_error].
  destruct (QuicInterval.Intersects m t) eqn:Ei.
  { exists [], (m :: M1), [], (t :: T1), true, (D ++ m :: M1).
    split; [reflexivity|split; [reflexivity|split; [reflexivity|split; [intros k b []|]]]].
    split; [intros b m' []|split; [|left; auto]].
    split; [exact Ei|destruct keep; reflexivity]. }
  subst y.
  assert (Hvt : vl (t :: T1)) by (apply (vl_suffix T0); auto).
  assert (Hvm : vl (m :: M1)) by (apply (vl_suffix D); auto).
  assert (Hnm : ne m) by (apply vl_cons in Hvm; tauto).
  assert (Hnt : ne t) by (apply vl_cons in Hvt; tauto).
  destruct (skip_mine_spec t (m :: M1) D (S (length (D ++ m :: M1))) Hx)
    as [K1 [M1' [EM [HK1 [Hh1 Hs1]]]]]; [rewrite length_app; simpl; lia|].
  change (hd_error (m :: M1)) with (Some m) in Hs1; rewrite Hs1.
  assert (Hx1 : vl (D ++ (if keep then K1 else []) ++ M1')).
  { rewrite EM in Hx; destruct keep; auto; apply (vl_drop_mid D K1 M1'); auto. }
  assert (Eh : on_hole (D ++ m :: M1) (Some m) (hd_error M1')
               = D ++ (if keep then K1 else []) ++ M1').
  { change (Some m) with (hd_error (m :: M1)); rewrite EM; apply Hh; rewrite <- EM; auto. }
  rewrite Eh.
  assert (Hkt : forall k b, In k K1 -> In b (t :: T1) -> max k <= min b).
  { intros k b Hk Hb; specialize (HK1 k Hk); pose proof (vl_hd_le _ _ _ Hvt Hb); lia. }
  destruct M1' as [|m' M2].
  { exists K1, [], [], (t :: T1), false, (D ++ (if keep then K1 else []) ++ []).
    split; [reflexivity|split; [auto|split; [reflexivity|]]].
    split; [intros k b Hk Hb; left; auto|split; [intros b m' []|split]].
    - split; [left; auto|destruct keep; reflexivity].
    - right; split; [exact Ei|]. destruct K1; [discriminate|simpl; lia]. }
  assert (Hvm' : vl (m' :: M2)) by (rewrite EM in Hvm; apply (vl_suffix K1); auto).
  destruct (skip_theirs_spec m' (t :: T1) T0 (S (length (T0 ++ t :: T1))) Hy)
    as [L1 [T1' [ET [HL1 [Hh2 Hs2]]]]]; [rewrite length_app; simpl; lia|].
  change (hd_error (t :: T1)) with (Some t) in Hs2; cbn [hd_error]; rewrite Hs2.
  assert (Hlm : forall b m0, In b L1 -> In m0 (m' :: M2) -> max b <= min m0).
  { intros b m0 Hb Hm0; specialize (HL1 b Hb); pose proof (vl_hd_le _ _ _ Hvm' Hm0); lia. }
  assert (Hprog : (0 < length K1 + length L1)%nat).
  { destruct K1 as [|k K1]; [|simpl; lia]. destruct L1 as [|l L1]; [|simpl; lia].
    exfalso. simpl in EM, ET. injection EM as <- _.
    destruct T1' as [|t' T2]; [discriminate|]. injection ET as <- _.
    specialize (Hh1 m M2 eq_refl); specialize (Hh2 t T2 eq_refl).
    destruct (not_intersects m t Hnm Hnt Ei); lia. }
  destruct T1' as [|t' T2].
  { assert (Eh2 : on_hole (D ++ (if keep then K1 else []) ++ m' :: M2) (Some m') None
                  = D ++ (if keep then K1 ++ m' :: M2 else [])).
    { pose proof (Hh (D ++ (if keep then K1 else [])) (m' :: M2) []) as H.
      rewrite !app_nil_r, <- !app_assoc in H; simpl hd_error in H.
      rewrite H by auto. destruct keep; simpl; rewrite ?app_nil_r, ?app_assoc; reflexivity. }
    rewrite Eh2.
    exists K1, (m' :: M2), L1, [], false, (D ++ (if keep then K1 ++ m' :: M2 else [])).
    split; [reflexivity|split; [auto|split; [exact ET|]]].
    split; [intros k b Hk Hb; left; auto|split; [auto|split]].
    - split; [right; auto|reflexivity].
    - right; split; auto. }
  rewrite app_assoc.
  destruct (IH (T0 ++ L1) (m' :: M2) (t' :: T2) (D ++ (if keep then K1 else [])))
    as [K2 [M' [L2 [T' [found [x' [Hr [EM2 [ET2 [HK [HL [Hfd Hp]]]]]]]]]]]].
  - rewrite <- app_assoc; auto.
  - exact Hy.
  - rewrite ET, app_assoc; reflexivity.
  - discriminate.
  - discriminate.
  - rewrite EM, ET, !length_app in Hf; simpl in Hf |- *; lia.
  - exists (K1 ++ K2), M', (L1 ++ L2), T', found, x'.
    split; [exact Hr|].
    split; [rewrite EM, EM2, app_assoc; reflexivity|].
    split; [rewrite ET, ET2, app_assoc; reflexivity|].
    split.
    { intros k b Hk Hb. apply in_app_or in Hk as [Hk|Hk]; [left; auto|].
      rewrite ET in Hb; apply in_app_or in Hb as [Hb|Hb]; [right|auto].
      rewrite EM2 in Hlm; apply Hlm; auto; apply in_or_app; auto. }
    split.
    { intros b m0 Hb Hm0. apply in_app_or in Hb as [Hb|Hb]; [|auto].
      apply Hlm; auto; rewrite EM2; apply in_or_app; auto. }
    split.
    { destruct found; destruct Hfd as [Hfd ->]; split; auto;
        destruct keep; rewrite <- ?app_assoc; reflexivity. }
    right; split; [exact Ei|rewrite !length_app; lia].
Qed.

Lemma fnip_spec keep on_hole y T0 M T D :
  hole_spec keep on_hole -> vl (D ++ M) -> vl y -> y = T0 ++ T ->
  (keep = true \/ T <> [] \/ M = []) ->
  exists K M' L T' (found : bool) x',
    FindNextIntersectingPairImpl on_hole (D ++ M) y (hd_error M) (hd_error T)
      = Some (found, x', hd_error M', hd_error T') /\
    M = K ++ M' /\ T = L ++ T' /\
    (forall k b, In k K -> In b T -> max k <= min b \/ max b <= min k) /\
    (forall b m, In b L -> In m M' -> max b <= min m) /\
    (if found then meets M' T' = true /\ x' = D ++ (if keep then K else []) ++ M' /\
                   (measure M' T' <= measure M T)%nat
     else (M' = [] \/ T' = []) /\ x' = D ++ (if keep then K ++ M' else [])).
Proof.
  intros Hh Hx Hy Ey Hk. unfold FindNextIntersectingPairImpl.
  destruct M as [|m M1].
  { exists [], [], [], T, false, (D ++ []); simpl.
    split; [reflexivity|split; [reflexivity|split; [reflexivity|]]].
    split; [intros k b []|split; [intros b m []|]].
    split; [left; auto|destruct keep; reflexivity]. }
  destruct T as [|t T1].
  { destruct Hk as [->|[Hk|Hk]]; [|congruence|discriminate].
    exists [], (m :: M1), [], [], false, (D ++ m :: M1); simpl.
    split; [reflexivity|split; [reflexivity|split; [reflexivity|]]].
    split; [intros k b []|split; [intros b m' []|]].
    split; [right; auto|reflexivity]. }
  cbn [hd_error iter_eqb orb].
  destruct (fnip_loop_spec keep on_hole y Hh (S (length (D ++ m :: M1) + length y))
              T0 (m :: M1) (t :: T1) D Hx Hy Ey ltac:(discriminate) ltac:(discriminate))
    as [K [M' [L [T' [found [x' [Hr [EM [ET [HK [HL [Hfd Hp]]]]]]]]]]]].
  { rewrite Ey, !length_app; lia. }
  exists K, M', L, T', found, x'; split; [exact Hr|].
  do 4 (split; [assumption|]).
  destruct found; [|exact Hfd].
  destruct Hfd as [Hm Hx']; split; [auto|split; [auto|]].
  unfold measure; rewrite Hm.
  destruct Hp as [[Hm0 [-> [-> _]]]|[Hm0 Hl]].
  - simpl in EM, ET; subst; rewrite Hm0; lia.
  - rewrite Hm0, EM, ET, !length_app; simpl; lia.
Qed.

(** ** The loops of [Difference] and [Intersection] *)

Lemma vl_replace P i Q R :
  vl (P ++ i :: Q) -> vl R -> (forall r, In r R -> min i <= min r /\ max r <= max i) ->
  vl (P ++ R ++ Q).
Proof.
  intros H HR Hr; apply vl_app in H as [HP [HiQ' HPQ]]; apply vl_cons in HiQ' as [Hi [HQ HiQ]].
  apply vl_app; split; [auto|split].
  - apply vl_app; split; [auto|split; [auto|]].
    intros a b Ha Hb; specialize (Hr a Ha); specialize (HiQ b Hb); unfold gap in *; lia.
  - intros a b Ha Hb; apply in_app_or in Hb as [Hb|Hb].
    + specialize (Hr b Hb); specialize (HPQ a i Ha (or_introl eq_refl)); unfold gap in *; lia.
    + apply HPQ; simpl; auto.
Qed.

Lemma diff_pieces i t :
  QuicInterval.Intersects i t = true ->
  QuicInterval.Difference i t = (make (min i) (min t), make (max t) (max i)).
Proof.
  intros H; apply intersects_true in H as [_ [_ [H1 H2]]].
  unfold QuicInterval.Difference; f_equal; f_equal; lia.
Qed.

Lemma Empty_make a b : QuicInterval.Empty (make a b) = (b <=? a).
Proof. reflexivity. Qed.

(** Points of [D] lie below the head of [M]. *)
Lemma inS_below D M v : vl (D ++ M) -> inS D v -> below (hd_error M) v.
Proof.
  intros H [d [Hd Hv]]; destruct M as [|m M]; simpl; auto.
  apply vl_app in H as [_ [_ H]]; specialize (H d m Hd (or_introl eq_refl)).
  unfold gap, in_itv in *; lia.
Qed.

Lemma inS_not_below M v : vl M -> inS M v -> ~ below (hd_error M) v.
Proof.
  intros H Hv; destruct M as [|m M]; [destruct Hv as [? [[] _]]|].
  pose proof (vl_inS_ge _ _ _ H Hv); simpl; lia.
Qed.

(** The values of the intervals skipped by [FindNextIntersectingPairImpl]
    are not in the other set. *)
Lemma skipped_out y T0 K M' L T' v :
  vl y -> y = T0 ++ L ++ T' ->
  (forall b m, In b T0 -> In m (K ++ M') -> max b <= min m) ->
  (forall k b, In k K -> In b (L ++ T') -> max k <= min b \/ max b <= min k) ->
  (forall b m, In b L -> In m M' -> max b <= min m) ->
  (inS K v \/ (T' = [] /\ inS M' v)) -> ~ inS y v.
Proof.
  intros Hy Ey H0 HK HL Hv [b [Hb Hbv]]; subst y; unfold in_itv in Hbv.
  destruct Hv as [[k [Hk Hkv]]|[-> [m [Hm Hmv]]]]; unfold in_itv in *.
  - apply in_app_or in Hb as [Hb|Hb].
    + specialize (H0 b k Hb (in_or_app _ _ _ (or_introl Hk))); lia.
    + specialize (HK k b Hk Hb); lia.
  - rewrite app_nil_r in Hb; apply in_app_or in Hb as [Hb|Hb].
    + specialize (H0 b m Hb (in_or_app _ _ _ (or_intror Hm))); lia.
    + specialize (HL b m Hb Hm); lia.
Qed.

Lemma below_dec it v : below it v \/ ~ below it v.
Proof. destruct it as [m|]; simpl; [lia|auto]. Qed.

Lemma difference_loop_spec A y : vl y -> forall fuel T0 M T D,
  vl (D ++ M) -> y = T0 ++ T ->
  (forall b m, In b T0 -> In m M -> max b <= min m) ->
  (forall v, below (hd_error M) v -> (inS D v <-> inS A v /\ ~ inS y v)) ->
  (forall v, ~ below (hd_error M) v -> (inS M v <-> inS A v)) ->
  (measure M T < fuel)%nat ->
  exists r, difference_loop fuel (D ++ M) y (hd_error M) (hd_error T) = Some r /\ vl r /\
    (forall v, inS r v <-> inS A v /\ ~ inS y v).
Proof.
  intros Hy fuel; induction fuel as [|f IH]; intros T0 M T D Hx Ey H0 HD HM Hf; [lia|].
  cbn [difference_loop]; unfold FindNextIntersectingPair.
  destruct (fnip_spec true no_hole y T0 M T D no_hole_spec Hx Hy Ey (or_introl eq_refl))
    as [K [M' [L [T' [found [x' [Hr [EM [ET [HK [HL Hfd]]]]]]]]]]].
  rewrite Hr.
  assert (Hvm : vl M) by (apply (vl_suffix D); auto).
  assert (Hout : forall v, inS K v \/ (T' = [] /\ inS M' v) -> ~ inS y v).
  { intros v; apply (skipped_out y T0 K M' L T'); auto.
    - rewrite Ey, ET; reflexivity.
    - rewrite <- EM; auto.
    - rewrite <- ET; auto. }
  destruct found.
  2:{ destruct Hfd as [Hend ->]. exists (D ++ K ++ M'); split; [reflexivity|].
      rewrite <- EM; split; [auto|]. intros v.
      destruct (below_dec (hd_error M) v) as [Hb|Hb].
      - rewrite <- HD by auto. rewrite inS_app.
        split; [intros [H|H]; auto; exfalso; apply (inS_not_below M v); auto|tauto].
      - rewrite inS_app, <- HM by auto. split.
        + intros [H|H]; [exfalso; apply Hb, (inS_below D M v); auto|split; auto].
          rewrite EM in H; apply inS_app in H as [H|H]; apply Hout; auto.
          destruct Hend as [E|E]; rewrite E in *; [destruct H as [? [[] _]]|auto].
        + tauto. }
  destruct Hfd as [Hm [-> Hmu]].
  destruct M' as [|i M1]; [discriminate|]; destruct T' as [|t T1]; [destruct M1; discriminate|].
  cbn [hd_error]. simpl in Hm.
  pose proof (intersects_true _ _ Hm) as [Hni [Hnt [Hti Hit]]]; unfold ne in Hni, Hnt.
  rewrite (diff_pieces i t Hm). cbv beta iota zeta.
  rewrite EM in Hx.
  replace (D ++ K ++ i :: M1) with ((D ++ K) ++ i :: M1) in Hx |- * by (rewrite app_assoc; reflexivity).
  pose proof (vl_sorted_lt _ Hx) as Hsx.
  rewrite (erase_mid _ _ _ Hsx), (next_mid _ _ _ Hsx).
  set (P := D ++ K) in *.
  set (lol := if min t <=? min i then [] else [make (min i) (min t)]).
  set (hil := if max i <=? max t then [] else [make (max t) (max i)]).
  assert (Hx' : vl ((P ++ lol) ++ hil ++ M1)).
  { rewrite <- app_assoc, app_assoc with (l := lol); apply (vl_replace P i M1); auto.
    - subst lol hil; destruct (min t <=? min i) eqn:E1, (max i <=? max t) eqn:E2;
        rewrite ?Z.leb_le, ?Z.leb_gt in *; simpl;
        try apply vl_nil; try (apply vl_single; unfold ne; simpl; lia).
      apply vl_cons; split; [unfold ne; simpl; lia|split; [apply vl_single; unfold ne; simpl; lia|]].
      intros b [<-|[]]; unfold gap; simpl; lia.
    - intros r Hrr; subst lol hil; destruct (min t <=? min i) eqn:E1, (max i <=? max t) eqn:E2;
        rewrite ?Z.leb_le, ?Z.leb_gt in *; simpl in Hrr;
        repeat (destruct Hrr as [<-|Hrr]); simpl; try lia; destruct Hrr. }
  match goal with |- exists r, ?e = Some r /\ _ =>
    assert (Estep : e = difference_loop f ((P ++ lol) ++ hil ++ M1) y (hd_error (hil ++ M1)) (Some t)) end.
  { pose proof (vl_sorted_lt _ Hx') as Hs'. clear -Hs'.
    subst lol hil; rewrite !Empty_make.
    destruct (min t <=? min i), (max i <=? max t); cbn [negb app]; rewrite ?app_nil_r in *.
    - reflexivity.
    - rewrite insert_mid; [reflexivity|apply SS_mid in Hs'; tauto..].
    - rewrite <- app_assoc in Hs'; cbn [app] in Hs'.
      rewrite insert_mid; [rewrite <- app_assoc; reflexivity|apply SS_mid in Hs'; tauto..].
    - pose proof Hs' as Hs''.
      rewrite <- app_assoc in Hs''; cbn [app] in Hs''.
      pose proof (SS_mid _ _ _ Hs'') as [Hs1 [Hs2 Hs3]].
      rewrite insert_mid; [|apply SS_remove in Hs1; auto|auto|intros q Hq; apply Hs3; simpl; auto].
      cbn [fst].
      replace (P ++ make (min i) (min t) :: M1) with ((P ++ [make (min i) (min t)]) ++ M1)
        by (rewrite <- app_assoc; reflexivity).
      rewrite insert_mid; [reflexivity|apply SS_mid in Hs'; tauto..]. }
  rewrite Estep.
  assert (Hy' : y = T0 ++ L ++ t :: T1) by (rewrite Ey, ET; reflexivity).
  assert (HiM : In i M) by (rewrite EM; apply in_or_app; simpl; auto).
  assert (HM1 : forall m, In m M1 -> In m M)
    by (intros m Hm'; rewrite EM; apply in_or_app; simpl; auto).
  assert (HKM : forall v, inS K v -> inS M v)
    by (intros v [k [Hk Hv]]; exists k; split; auto; rewrite EM; apply in_or_app; auto).
  unfold P in *.
  assert (Hgap : (forall k, In k (D ++ K) -> max k < min i) /\ (forall m, In m M1 -> max i < min m)).
  { apply vl_app in Hx as [_ [Hx2 Hx3]]; split.
    - intros k Hk; apply (Hx3 k i Hk); simpl; auto.
    - apply vl_cons in Hx2 as [_ [_ H]]; exact H. }
  destruct Hgap as [HgK HgM].
  assert (Hhd : forall v, min i <= v -> ~ below (hd_error M) v).
  { intros v Hv; destruct M as [|m M]; [destruct HiM|].
    pose proof (vl_hd_le _ _ _ Hvm HiM); simpl; lia. }
  assert (Hbi : forall b, In b (T0 ++ L) -> max b <= min i).
  { intros b Hb; apply in_app_or in Hb as [Hb|Hb]; [apply H0|apply HL]; simpl; auto. }
  assert (Hlo_out : forall v, min i <= v < min t -> ~ inS y v).
  { intros v Hv [b [Hb Hbv]]; rewrite Hy' in Hb; unfold in_itv in Hbv.
    rewrite app_assoc in Hb; apply in_app_or in Hb as [Hb|[<-|Hb]].
    - specialize (Hbi b Hb); lia.
    - lia.
    - rewrite Hy' in Hy; apply vl_suffix, vl_suffix in Hy; apply vl_cons in Hy as [_ [_ Hy]].
      specialize (Hy b Hb); unfold gap in Hy; lia. }
  assert (Ht_in : forall v, min t <= v < max t -> inS y v).
  { intros v Hv; exists t; split; [rewrite Hy'; apply in_or_app; right; apply in_or_app; simpl; auto|].
    unfold in_itv; lia. }
  assert (Hlol : forall v, inS lol v <-> min i <= v < min t).
  { intros v; subst lol; destruct (min t <=? min i) eqn:E;
      [apply Z.leb_le in E|apply Z.leb_gt in E]; rewrite ?inS_cons; unfold in_itv; simpl;
      pose proof (inS_nil v); split; try tauto; lia. }
  assert (Hhil : forall v, inS hil v <-> max t <= v < max i).
  { intros v; subst hil; destruct (max i <=? max t) eqn:E;
      [apply Z.leb_le in E|apply Z.leb_gt in E]; rewrite ?inS_cons; unfold in_itv; simpl;
      pose proof (inS_nil v); split; try tauto; lia. }
  assert (Hbel : forall v, below (hd_error (hil ++ M1)) v ->
                 (min i <= v < max i -> v < max t) /\ ~ inS M1 v).
  { intros v Hv; split.
    - intros Hiv; subst hil; destruct (max i <=? max t) eqn:E;
        [apply Z.leb_le in E; lia|simpl in Hv; lia].
    - intros [m [Hm' Hmv]]; unfold in_itv in Hmv.
      assert (Hmin : forall m', In m' M1 -> min (match M1 with [] => m | m0 :: _ => m0 end) <= min m').
      { intros m' Hm''; destruct M1 as [|m0 M2]; [destruct Hm''|].
        apply (vl_hd_le m0 M2); auto. apply (vl_suffix (D ++ K ++ [i])).
        rewrite <- !app_assoc; rewrite <- app_assoc in Hx; exact Hx. }
      specialize (Hmin m Hm').
      destruct M1 as [|m0 M2]; [destruct Hm'|].
      subst hil; destruct (max i <=? max t) eqn:E; simpl in Hv, Hmin; [lia|].
      specialize (HgM m Hm'); lia. }
  assert (Hnbel : forall v, ~ below (hd_error (hil ++ M1)) v ->
                  min i <= v /\ (min i <= v < max i -> max t <= v)).
  { intros v Hv; subst hil; destruct (max i <=? max t) eqn:E; simpl in Hv.
    - destruct M1 as [|m0 M2]; [simpl in Hv; tauto|simpl in Hv].
      specialize (HgM m0 (or_introl eq_refl)); apply Z.leb_le in E; lia.
    - apply Z.leb_gt in E; lia. }
  assert (Hmin : forall m, In m (hil ++ M1) -> min i <= min m).
  { intros m Hm'; apply in_app_or in Hm' as [Hm'|Hm'].
    - subst hil; destruct (max i <=? max t); [destruct Hm'|destruct Hm' as [<-|[]]; simpl; lia].
    - specialize (HgM m Hm'); apply vl_app in Hx as [_ [Hx _]].
      apply (vl_ne _ m) in Hx; [unfold ne in Hx; lia|simpl; auto]. }
  change (Some t) with (hd_error (t :: T1)).
  apply IH with (T0 := T0 ++ L); auto.
  - rewrite Hy', app_assoc; reflexivity.
  - intros b m Hb Hm'; specialize (Hbi b Hb); specialize (Hmin m Hm'); lia.
  - intros v Hv. destruct (below_dec (hd_error M) v) as [HbM|HbM].
    + rewrite <- HD by auto. rewrite !inS_app, Hlol. split; [|tauto].
      intros [[H|H]|H]; auto; exfalso.
      * apply (inS_not_below M v); auto.
      * apply (Hhd v); [lia|auto].
    + rewrite <- HM by auto. rewrite !inS_app, Hlol. split.
      * intros [[H|H]|H].
        -- exfalso; apply HbM, (inS_below D M v); auto.
           rewrite <- app_assoc in Hx; rewrite ?EM; exact Hx.
        -- split; [apply HKM; auto|apply Hout; auto].
        -- split; [exists i; split; [auto|unfold in_itv; lia]|apply Hlo_out; lia].
      * intros [H Hny]. rewrite EM in H. apply inS_app in H as [H|H]; [left; right; auto|].
        apply inS_cons in H as [H|H]; unfold in_itv in H.
        -- destruct (Z.lt_ge_cases v (min t)); [right; lia|].
           destruct (Z.lt_ge_cases v (max t)); [exfalso; apply Hny, Ht_in; lia|].
           exfalso; pose proof (proj1 (Hbel v Hv) H); lia.
        -- exfalso; apply (proj2 (Hbel v Hv)); auto.
  - intros v Hv; pose proof (Hnbel v Hv) as [Hv1 Hv2].
    rewrite <- HM by (apply Hhd; auto). rewrite EM, !inS_app, inS_cons, Hhil. split.
    + intros [H|H]; [right; left; unfold in_itv; lia|right; right; auto].
    + intros [[k [Hk Hkv]]|[H|H]]; [|left; unfold in_itv in H; specialize (Hv2 H); lia|right; auto].
      exfalso; specialize (HgK k (in_or_app _ _ _ (or_intror Hk))); unfold in_itv in Hkv; lia.
  - unfold measure in *; simpl in Hmu; rewrite Hm in Hmu.
    subst hil; destruct (max i <=? max t); simpl.
    + destruct (meets M1 (t :: T1)), (meets M T); lia.
    + unfold QuicInterval.Intersects; simpl; rewrite (Z.ltb_irrefl (max t)), !andb_false_r; lia.
Qed.

(** ** [SpanningInterval] and [FindIntersectionCandidate] *)

Lemma vl_last_ge l y v : vl (l ++ [y]) -> inS (l ++ [y]) v -> v < max y.
Proof.
  intros H Hv; apply inS_app in Hv as [[i [Hi Hv]]|Hv].
  - apply vl_app in H as [_ [Hy H]]; specialize (H i y Hi (or_introl eq_refl)).
    apply vl_cons in Hy as [Hy _]; unfold gap, ne, in_itv in *; lia.
  - apply inS_cons in Hv as [Hv|Hv]; [unfold in_itv in Hv; lia|destruct (inS_nil v Hv)].
Qed.

Lemma span_in s v : vl s -> inS s v -> in_itv (SpanningInterval s) v.
Proof.
  intros H Hv; destruct s as [|f s']; [destruct (inS_nil v Hv)|].
  pose proof (vl_inS_ge _ _ _ H Hv) as Hmin.
  destruct (exists_last (l := f :: s') ltac:(discriminate)) as [l [y E]].
  change (SpanningInterval (f :: s')) with
    (match set_last (f :: s') with Some l => make (min f) (max l)
     | None => QuicInterval.default end).
  rewrite E, set_last_app.
  rewrite E in H, Hv; pose proof (vl_last_ge _ _ _ H Hv); unfold in_itv; simpl; lia.
Qed.

(** Sets whose spans do not intersect are disjoint. *)
Lemma span_disjoint s o v :
  vl s -> vl o -> QuicInterval.Intersects (SpanningInterval s) (SpanningInterval o) = false ->
  inS s v -> ~ inS o v.
Proof.
  intros Hs Ho H Hv Hv'; apply span_in in Hv; auto; apply span_in in Hv'; auto.
  revert H; unfold QuicInterval.Intersects, QuicInterval.Empty; unfold in_itv in *.
  rewrite !andb_false_iff, !negb_false_iff, !Z.leb_le, !Z.ltb_ge; lia.
Qed.

Lemma split_ub o l :
  StronglySorted lt l ->
  exists P Q, l = P ++ Q /\ (forall p, In p P -> ~ lt o p) /\ (forall q, In q Q -> lt o q).
Proof.
  induction l as [|a l IH]; intros H.
  - exists [], []; simpl; repeat split; tauto.
  - apply SS_cons in H as [H1 H2].
    destruct (IntervalLess o a) eqn:Ea.
    + exists [], (a :: l); split; [reflexivity|split; [intros p []|]].
      intros q [<-|Hq]; auto; apply (lt_trans _ a); auto.
    + destruct (IH H1) as [P [Q [-> [HP HQ]]]].
      exists (a :: P), Q; split; [reflexivity|split; auto].
      intros p [<-|Hp]; auto; unfold lt; congruence.
Qed.

Lemma FIC_interval_spec s o :
  vl s -> exists D0 M, s = D0 ++ M /\
    FindIntersectionCandidate_interval s o = hd_error M /\
    (forall d, In d D0 -> max d < min o) /\ (s <> [] -> M <> []).
Proof.
  intros H; destruct (split_ub o s (vl_sorted_lt _ H)) as [P [Q [E [HP HQ]]]].
  assert (Hub : set_upper_bound s o = hd_error Q).
  { rewrite E, upper_bound_app by auto.
    destruct Q as [|q Q]; auto; apply upper_bound_cons_lt, HQ; simpl; auto. }
  unfold FindIntersectionCandidate_interval; rewrite Hub.
  destruct P as [|p P'].
  - exists [], Q; simpl in E; subst s; unfold set_begin.
    rewrite iter_eqb_refl; simpl; repeat split; auto; intros d [].
  - assert (Hne : hd_error Q <> set_begin s).
    { rewrite E; unfold set_begin; simpl; destruct Q as [|q Q]; simpl; [discriminate|].
      intros Eq; inversion Eq; subst q; apply (HP p (or_introl eq_refl)), HQ; simpl; auto. }
    rewrite (iter_eqb_false _ _ Hne); simpl.
    destruct (exists_last (l := p :: P') ltac:(discriminate)) as [P0 [l EP]].
    exists P0, (l :: Q); rewrite EP in E; rewrite <- app_assoc in E; simpl in E.
    split; [exact E|split; [|split; [|discriminate]]].
    + replace s with ((P0 ++ [l]) ++ Q) by (rewrite E, <- app_assoc; reflexivity).
      rewrite prev_hd, set_last_app; [reflexivity|].
      rewrite <- app_assoc; simpl; rewrite <- E; apply vl_sorted_lt; auto.
    + intros d Hd; rewrite E in H; apply vl_app in H as [_ [_ H]].
      specialize (H d l Hd (or_introl eq_refl)).
      assert (Hl : ~ lt o l) by (apply HP; rewrite EP; apply in_or_app; simpl; auto).
      rewrite nlt_unfold in Hl; unfold gap in H; lia.
Qed.

Lemma span_nil_not_intersects i :
  QuicInterval.Intersects i (SpanningInterval []) = false /\
  QuicInterval.Intersects (SpanningInterval []) i = false.
Proof.
  split; destruct (QuicInterval.Intersects _ _) eqn:E; auto;
    apply intersects_true in E; unfold ne in E; simpl in E; lia.
Qed.

Lemma Difference_spec s other :
  vl s -> vl other ->
  exists r, Difference s other = Some r /\ vl r /\
    (forall v, inS r v <-> inS s v /\ ~ inS other v).
Proof.
  intros Hs Ho; unfold Difference.
  destruct (QuicInterval.Intersects (SpanningInterval s) (SpanningInterval other)) eqn:EI; cbn [negb].
  2:{ exists s; split; [reflexivity|split; auto].
      intros v; split; [|tauto]; intros Hv; split; auto. exact (span_disjoint _ _ _ Hs Ho EI Hv). }
  destruct other as [|o other']; [rewrite (proj1 (span_nil_not_intersects _)) in EI; discriminate|].
  destruct s as [|f s']; [rewrite (proj2 (span_nil_not_intersects _)) in EI; discriminate|].
  cbn [FindIntersectionCandidate set_begin hd_error].
  destruct (FIC_interval_spec (f :: s') o Hs) as [D0 [M [Es [Hm [HD0 HM]]]]].
  destruct M as [|m M1]; [exfalso; apply HM; [intros E; discriminate E|reflexivity]|].
  rewrite Hm; cbn [hd_error iter_eqb negb].
  destruct (FIC_interval_spec (o :: other') f Ho) as [T0 [T [Eo [Ht [HT0 _]]]]].
  rewrite Ht.
  assert (Hvm : vl (m :: M1)) by (rewrite Es in Hs; apply vl_app in Hs; tauto).
  destruct (difference_loop_spec (f :: s') (o :: other') Ho
    (S (S (length (f :: s') + length (o :: other')))) T0 (m :: M1) T D0)
    as [r [E [Hr Hd]]].
  - rewrite <- Es; auto.
  - exact Eo.
  - intros b x Hb Hx; specialize (HT0 b Hb).
    assert (In x (f :: s')) by (rewrite Es; apply in_or_app; auto).
    pose proof (vl_hd_le _ _ _ Hs H); lia.
  - intros v Hv; rewrite Es, inS_app; split.
    + intros Hd; split; [auto|].
      destruct Hd as [d [Hd Hdv]]; specialize (HD0 d Hd); intros Hov.
      pose proof (vl_inS_ge _ _ _ Ho Hov); unfold in_itv in Hdv; lia.
    + intros [[Hd|Hd] _]; auto; exfalso; apply (inS_not_below _ _ Hvm Hd Hv).
  - intros v Hv; rewrite Es, inS_app; split; auto.
    intros [Hd|Hd]; auto; exfalso; apply Hv, (inS_below D0); auto; rewrite <- Es; auto.
  - unfold measure.
    assert (length (f :: s') = length D0 + length (m :: M1))%nat
      by (rewrite Es, length_app; reflexivity).
    assert (length (o :: other') = length T0 + length T)%nat
      by (rewrite Eo, length_app; reflexivity).
    destruct (meets (m :: M1) T); lia.
  - exists r; rewrite <- Es in E; split; [exact E|auto].
Qed.

(** ** [Intersection] *)

Lemma vl_insert_mid P Q c :
  vl (P ++ Q) -> ne c -> (forall p, In p P -> gap p c) -> (forall q, In q Q -> gap c q) ->
  vl (P ++ c :: Q).
Proof.
  intros H Hc HP HQ; apply vl_app in H as [H1 [H2 H3]].
  apply vl_app; split; [auto|split].
  - apply vl_cons; auto.
  - intros a b Ha [<-|Hb]; auto.
Qed.

Lemma intersection_inner_spec i y Q :
  vl y -> (forall q, In q Q -> max i < min q) ->
  forall fuel J0 T P mine,
  vl (P ++ Q) -> y = J0 ++ T ->
  (forall p t, In p P -> In t T -> max p < Z.max (min i) (min t)) ->
  (length T < fuel)%nat ->
  exists J T2 P2 mine', T = J ++ T2 /\
    intersection_inner fuel (P ++ Q) y i mine (hd_error T)
      = Some (P ++ P2 ++ Q, mine', hd_error T2) /\
    vl (P ++ P2 ++ Q) /\
    (forall j, In j J -> QuicInterval.Intersects i j = true) /\
    (forall h T3, T2 = h :: T3 -> QuicInterval.Intersects i h = false) /\
    (forall v, inS P2 v <-> in_itv i v /\ inS J v) /\
    (J = [] -> P2 = [] /\ mine' = mine) /\
    (J <> [] -> exists P3 c, P2 = P3 ++ [c] /\ mine' = Some c).
Proof.
  intros Hy HQ fuel; induction fuel as [|f IH]; intros J0 T P mine HPQ Ey HP Hf; [lia|].
  destruct T as [|t T1].
  - exists [], [], [], mine; simpl.
    split; [reflexivity|]; split; [reflexivity|]; split; [exact HPQ|].
    split; [intros j []|]; split; [intros h T3 E; discriminate|].
    split; [intros v; pose proof (inS_nil v); tauto|].
    split; [auto|intros E; congruence].
  - cbn [intersection_inner hd_error]; unfold QuicInterval.Intersects_out.
    destruct (QuicInterval.Intersects i t) eqn:Eit.
    2:{ exists [], (t :: T1), [], mine; simpl.
        split; [reflexivity|]; split; [reflexivity|]; split; [exact HPQ|].
        split; [intros j []|]; split; [intros h T3 E; injection E as <- <-; auto|].
        split; [intros v; pose proof (inS_nil v); tauto|].
        split; [auto|intros E; congruence]. }
    pose proof (intersects_true _ _ Eit) as [Hni [Hnt [Hti Hit]]]; unfold ne in Hni, Hnt.
    set (c := make (Z.max (min i) (min t)) (Z.min (max i) (max t))).
    assert (Hc : ne c) by (unfold ne, c; simpl; lia).
    assert (HPc : forall p, In p P -> gap p c)
      by (intros p Hp; specialize (HP p t Hp (or_introl eq_refl)); unfold gap, c; simpl; lia).
    assert (HcQ : forall q, In q Q -> gap c q)
      by (intros q Hq; specialize (HQ q Hq); unfold gap, c; simpl; lia).
    rewrite insert_mid.
    2:{ apply vl_sorted_lt; auto. }
    2:{ intros p Hp; apply gap_lt; auto; apply vl_app in HPQ as [[HP' _] _].
        rewrite Forall_forall in HP'; auto. }
    2:{ intros q Hq; apply gap_lt; auto. }
    replace (set_next y (Some t)) with (hd_error T1)
      by (rewrite Ey; symmetry; apply next_mid; rewrite <- Ey; apply vl_sorted_lt; auto).
    replace (P ++ c :: Q) with ((P ++ [c]) ++ Q) by (rewrite <- app_assoc; reflexivity).
    destruct (IH (J0 ++ [t]) T1 (P ++ [c]) (Some c)) as
      [J [T2 [P2 [m' [ET [Ei [Hv [HJ [HT2 [Hd [Hm1 Hm2]]]]]]]]]]].
    + rewrite <- app_assoc; apply vl_insert_mid; auto.
    + rewrite <- app_assoc; exact Ey.
    + assert (Hyt : forall t', In t' T1 -> max t < min t').
      { intros t' Ht'; rewrite Ey in Hy; apply vl_app in Hy as [_ [Hy _]].
        apply vl_cons in Hy as [_ [_ Hy]]; apply Hy; auto. }
      intros p t' Hp Ht'; specialize (Hyt t' Ht'); apply in_app_or in Hp as [Hp|[<-|[]]].
      * specialize (HP p t Hp (or_introl eq_refl)); lia.
      * unfold c; simpl; lia.
    + simpl in Hf; lia.
    + exists (t :: J), T2, (c :: P2), m'; rewrite <- !app_assoc in Hv.
      split; [rewrite ET; reflexivity|split; [rewrite Ei; rewrite <- !app_assoc; reflexivity|split; [exact Hv|split; [|split; [auto|split; [|split]]]]]].
      * intros j [<-|Hj]; auto.
      * intros v; rewrite !inS_cons, Hd.
        assert (in_itv c v <-> in_itv i v /\ in_itv t v) by (unfold in_itv, c; simpl; lia); tauto.
      * intros E; discriminate.
      * intros _; destruct J as [|j J].
        -- destruct (Hm1 eq_refl) as [-> ->]; exists [], c; auto.
        -- destruct (Hm2 ltac:(discriminate)) as [P3 [c' [-> ->]]]; exists (c :: P3), c'; auto.
Qed.

Lemma intersection_loop_spec A y : vl y -> forall fuel T0 M T D,
  vl (D ++ M) -> y = T0 ++ T -> T <> [] ->
  (forall b m, In b T0 -> In m M -> max b <= min m) ->
  (forall v, below (hd_error M) v -> (inS D v <-> inS A v /\ inS y v)) ->
  (forall v, ~ below (hd_error M) v -> (inS M v <-> inS A v)) ->
  (measure M T < fuel)%nat ->
  exists r, intersection_loop fuel (D ++ M) y (hd_error M) (hd_error T) = Some r /\ vl r /\
    (forall v, inS r v <-> inS A v /\ inS y v).
Proof.
  intros Hy fuel; induction fuel as [|f IH]; intros T0 M T D Hx Ey HT H0 HD HM Hf; [lia|].
  cbn [intersection_loop]; unfold FindNextIntersectingPairAndEraseHoles.
  destruct (fnip_spec false erase_hole y T0 M T D erase_hole_spec Hx Hy Ey (or_intror (or_introl HT)))
    as [K [M' [L [T' [found [x' [Hr [EM [ET [HK [HL Hfd]]]]]]]]]]].
  rewrite Hr.
  assert (Hvm : vl M) by (apply (vl_suffix D); auto).
  assert (Hout : forall v, inS K v \/ (T' = [] /\ inS M' v) -> ~ inS y v).
  { intros v; apply (skipped_out y T0 K M' L T'); auto.
    - rewrite Ey, ET; reflexivity.
    - rewrite <- EM; auto.
    - rewrite <- ET; auto. }
  destruct found.
  2:{ destruct Hfd as [Hend ->]. rewrite app_nil_r. exists D; split; [reflexivity|].
      split; [apply (vl_prefix D M); auto|]. intros v.
      destruct (below_dec (hd_error M) v) as [Hb|Hb]; [apply HD; auto|].
      split.
      - intros H; exfalso; apply Hb, (inS_below D M v); auto.
      - intros [HA Hyv]; exfalso; apply HM in HA; auto.
        rewrite EM in HA; apply inS_app in HA as [H|H]; apply (Hout v); auto.
        destruct Hend as [E|E]; rewrite E in *; [destruct H as [? [[] _]]|auto]. }
  destruct Hfd as [Hm [Ex Hmu]]; cbn [app] in Ex; subst x'.
  destruct M' as [|i M1]; [discriminate|]; destruct T' as [|t T1]; [destruct M1; discriminate|].
  cbn [hd_error]. simpl in Hm.
  pose proof (intersects_true _ _ Hm) as [Hni [Hnt [Hti Hit]]]; unfold ne in Hni, Hnt.
  assert (Hx1 : vl (D ++ i :: M1)) by (rewrite EM in Hx; apply (vl_drop_mid D K); auto).
  rewrite (erase_mid _ _ _ (vl_sorted_lt _ Hx1)).
  assert (HiM1 : forall q, In q M1 -> max i < min q).
  { intros q Hq; apply vl_suffix in Hx1; apply vl_cons in Hx1 as [_ [_ H]]; apply H; auto. }
  assert (HDi : forall p, In p D -> max p < min i).
  { intros p Hp; apply vl_app in Hx1 as [_ [_ H]]; apply (H p i Hp); simpl; auto. }
  assert (Hy1 : y = (T0 ++ L) ++ t :: T1) by (rewrite Ey, ET, app_assoc; reflexivity).
  change (Some t) with (hd_error (t :: T1)).
  destruct (intersection_inner_spec i y M1 Hy HiM1 (S (length y)) (T0 ++ L) (t :: T1) D None)
    as [J [T2 [P2 [mine' [ET2 [Ei [Hv [HJ [HT2 [Hd [Hm1 Hm2]]]]]]]]]]].
  { apply (vl_drop_mid D [i] M1); auto. }
  { exact Hy1. }
  { intros p t' Hp _; specialize (HDi p Hp); lia. }
  { rewrite Hy1, length_app; simpl; lia. }
  rewrite Ei.
  assert (HJne : J <> []).
  { intros ->; simpl in ET2; subst T2; rewrite (HT2 t T1 eq_refl) in Hm; discriminate. }
  destruct (Hm2 HJne) as [P3 [c [EP2 ->]]].
  destruct (exists_last HJne) as [J1 [tl EJ]].
  cbv beta iota zeta.
  assert (Hy2 : y = (T0 ++ L ++ J1) ++ tl :: T2)
    by (rewrite Hy1, ET2, EJ, <- !app_assoc; reflexivity).
  replace (set_prev y (hd_error T2)) with (Some tl).
  2:{ replace y with ((T0 ++ L ++ J1 ++ [tl]) ++ T2)
        by (rewrite Hy2, <- !app_assoc; reflexivity).
      rewrite prev_hd, !app_assoc, set_last_app; [reflexivity|].
      rewrite <- !app_assoc; cbn [app]; rewrite <- !app_assoc in Hy2; cbn [app] in Hy2.
      rewrite <- Hy2; apply vl_sorted_lt; auto. }
  replace (set_next (D ++ P2 ++ M1) (Some c)) with (hd_error M1).
  2:{ rewrite EP2; replace (D ++ (P3 ++ [c]) ++ M1) with ((D ++ P3) ++ c :: M1)
        by (rewrite <- !app_assoc; reflexivity).
      symmetry; apply next_mid; apply vl_sorted_lt.
      rewrite EP2, <- !app_assoc in Hv; rewrite <- app_assoc; exact Hv. }
  replace (D ++ P2 ++ M1) with ((D ++ P2) ++ M1) by (rewrite <- app_assoc; reflexivity).
  change (Some tl) with (hd_error (tl :: T2)).
  assert (HtlJ : In tl J) by (rewrite EJ; apply in_or_app; simpl; auto).
  assert (Htl : QuicInterval.Intersects i tl = true) by auto.
  pose proof (intersects_true _ _ Htl) as [_ [Hntl [Htl1 Htl2]]]; unfold ne in Hntl.
  assert (Hgtl : forall b, In b (T0 ++ L ++ J1) -> max b < min tl).
  { intros b Hb; rewrite Hy2 in Hy; apply vl_app in Hy as [_ [_ H]].
    apply (H b tl Hb); simpl; auto. }
  assert (HT2g : forall b, In b T2 -> max tl < min b).
  { intros b Hb; rewrite Hy2 in Hy; apply vl_suffix in Hy; apply vl_cons in Hy as [_ [_ H]]; apply (H b Hb). }
  assert (HT2i : forall b, In b T2 -> max i <= min b).
  { destruct T2 as [|h T3]; [intros b []|].
    assert (Hnh : ne h) by (apply (vl_ne y); [exact Hy|]; rewrite Hy2; apply in_or_app; simpl; auto).
    pose proof (not_intersects _ _ Hni Hnh (HT2 h T3 eq_refl)) as Hih.
    pose proof (HT2g h (or_introl eq_refl)); unfold ne in Hnh.
    intros b Hb; pose proof (HT2g b Hb).
    assert (Hvh : vl (h :: T3)) by (rewrite Hy2 in Hy; apply vl_suffix in Hy; apply vl_cons in Hy; tauto).
    pose proof (vl_hd_le _ _ _ Hvh Hb); lia. }
  assert (HiM : In i M) by (rewrite EM; apply in_or_app; simpl; auto).
  assert (Hx0 : vl (D ++ M)) by exact Hx.
  apply IH with (T0 := T0 ++ L ++ J1); auto.
  - rewrite <- app_assoc; exact Hv.
  - discriminate.
  - intros b m Hb Hm'; apply in_app_or in Hb as [Hb|Hb].
    + apply H0; auto; rewrite EM; apply in_or_app; simpl; auto.
    + apply in_app_or in Hb as [Hb|Hb]; [apply HL; simpl; auto|].
      assert (In b (T0 ++ L ++ J1)) by (apply in_or_app; right; apply in_or_app; auto).
      specialize (Hgtl b H); specialize (HiM1 m Hm'); lia.
  - intros v Hv1; rewrite inS_app, Hd.
    assert (HvM1 : vl M1) by (apply vl_suffix in Hx1; apply vl_cons in Hx1; tauto).
    destruct (below_dec (hd_error M) v) as [Hb|Hb].
    + rewrite <- HD by auto.
      assert (~ in_itv i v).
      { destruct M as [|m0 M0]; [destruct HiM|]. simpl in Hb.
        pose proof (vl_hd_le _ _ _ Hvm HiM); unfold in_itv; lia. }
      tauto.
    + assert (HnD : ~ inS D v) by (intros H; apply Hb, (inS_below D M v); auto).
      rewrite <- (HM v Hb). split.
      * intros [H|[Hiv HJv]]; [contradiction|split].
        -- exists i; auto.
        -- destruct HJv as [j [Hj Hjv]]; exists j; split; auto.
           rewrite Hy1, ET2; apply in_or_app; right; apply in_or_app; auto.
      * intros [HMv Hyv]; right.
        rewrite EM in HMv; apply inS_app in HMv as [HKv|HMv]; [exfalso; apply (Hout v); auto|].
        apply inS_cons in HMv as [Hiv|HM1v]; [|exfalso; exact (inS_not_below M1 v HvM1 HM1v Hv1)].
        split; auto.
        rewrite Hy1, ET2, <- app_assoc in Hyv.
        apply inS_app in Hyv as [[b [Hb' Hbv]]|Hyv].
        { exfalso; specialize (H0 b i Hb' HiM); unfold in_itv in *; lia. }
        apply inS_app in Hyv as [[b [Hb' Hbv]]|Hyv].
        { exfalso; specialize (HL b i Hb' (or_introl eq_refl)); unfold in_itv in *; lia. }
        apply inS_app in Hyv as [Hyv|[b [Hb' Hbv]]]; auto.
        exfalso; specialize (HT2i b Hb'); unfold in_itv in *; lia.
  - intros v Hv1; destruct M1 as [|m1 M2]; [exfalso; apply Hv1; exact I|].
    simpl in Hv1.
    assert (Hnb : ~ below (hd_error M) v).
    { destruct M as [|m0 M0]; [destruct HiM|]; simpl.
      assert (In m1 (m0 :: M0)) by (rewrite EM; apply in_or_app; simpl; auto).
      pose proof (vl_hd_le _ _ _ Hvm H); lia. }
    rewrite <- (HM v Hnb), EM, inS_app, (inS_cons i). split; [auto|].
    intros [[k [Hk Hkv]]|[Hiv|H]]; auto; exfalso.
    + rewrite EM in Hvm; apply vl_app in Hvm as [_ [_ Hg]].
      assert (In m1 (i :: m1 :: M2)) by (simpl; auto).
      specialize (Hg k m1 Hk H); unfold gap, in_itv in *; lia.
    + specialize (HiM1 m1 (or_introl eq_refl)); unfold in_itv in *; lia.
  - unfold measure in *; simpl in Hmu; rewrite Hm in Hmu.
    assert (length (t :: T1) = length J1 + 1 + length T2)%nat
      by (rewrite ET2, EJ, !length_app; simpl; lia).
    simpl in H; destruct (meets M1 (tl :: T2)), (meets M T); simpl; lia.
Qed.

Lemma Intersection_spec s other :
  vl s -> vl other ->
  exists r, Intersection s other = Some r /\ vl r /\
    (forall v, inS r v <-> inS s v /\ inS other v).
Proof.
  intros Hs Ho; unfold Intersection.
  destruct (QuicInterval.Intersects (SpanningInterval s) (SpanningInterval other)) eqn:EI;
    cbn [negb].
  2:{ exists []; split; [reflexivity|split; [apply vl_nil|]].
      intros v; split; [intros H; destruct (inS_nil v H)|].
      intros [H1 H2]; destruct (span_disjoint _ _ _ Hs Ho EI H1 H2). }
  destruct other as [|o other']; [rewrite (proj1 (span_nil_not_intersects _)) in EI; discriminate|].
  destruct s as [|f s']; [rewrite (proj2 (span_nil_not_intersects _)) in EI; discriminate|].
  cbn [FindIntersectionCandidate set_begin hd_error].
  destruct (FIC_interval_spec (f :: s') o Hs) as [D0 [M [Es [Hm [HD0 HM]]]]].
  destruct M as [|m M1]; [exfalso; apply HM; [intros E; discriminate E|reflexivity]|].
  rewrite Hm.
  replace (set_erase_range (f :: s') (Some f) (hd_error (m :: M1))) with (m :: M1).
  2:{ change (Some f) with (hd_error (f :: s')); rewrite Es.
      symmetry; apply (erase_range_mid [] D0 (m :: M1)); simpl; rewrite <- Es.
      apply vl_sorted_lt; auto. }
  cbn [FindIntersectionCandidate set_begin hd_error].
  destruct (FIC_interval_spec (o :: other') m Ho) as [T0 [T [Eo [Ht [HT0 HT]]]]].
  rewrite Ht.
  assert (Hvm : vl (m :: M1)) by (rewrite Es in Hs; apply vl_app in Hs; tauto).
  destruct (intersection_loop_spec (f :: s') (o :: other') Ho
    (S (S (length (m :: M1) + length (o :: other')))) T0 (m :: M1) T [])
    as [r [E [Hr Hd]]].
  - exact Hvm.
  - exact Eo.
  - apply HT; discriminate.
  - intros b x Hb Hx; specialize (HT0 b Hb); pose proof (vl_hd_le _ _ _ Hvm Hx); lia.
  - intros v Hv; split; [intros H; destruct (inS_nil v H)|].
    intros [HA Hov]; rewrite Es in HA; apply inS_app in HA as [HA|HA].
    + destruct HA as [d [Hd Hdv]]; specialize (HD0 d Hd).
      pose proof (vl_inS_ge _ _ _ Ho Hov); unfold in_itv in Hdv; lia.
    + destruct (inS_not_below _ _ Hvm HA Hv).
  - intros v Hv; rewrite Es, inS_app; split; auto.
    intros [Hd|Hd]; auto; exfalso; apply Hv, (inS_below D0); auto; rewrite <- Es; auto.
  - unfold measure.
    assert (length (o :: other') = length T0 + length T)%nat
      by (rewrite Eo, length_app; reflexivity).
    destruct (meets (m :: M1) T); lia.
  - exists r; split; [exact E|auto].
Qed.

(** ** Queries *)

Lemma nil_or_last {A} (l : list A) : l = [] \/ exists l' x, l = l' ++ [x].
Proof.
  destruct l as [|a l]; [left; reflexivity|right].
  destruct (exists_last (l := a :: l) ltac:(discriminate)) as [l' [x E]]; eauto.
Qed.

Lemma hd_error_in {A} (l : list A) x : hd_error l = Some x -> In x l.
Proof. destruct l; simpl; [discriminate|intros E; injection E as ->; auto]. Qed.

Lemma disjoint_last l1 p l2 i :
  vl (l1 ++ p :: l2) -> min p <= min i -> ne i -> (forall x, In x l2 -> max i <= min x) ->
  ((max p <=? min i) = true <-> forall v, in_itv i v -> ~ inS (l1 ++ p :: l2) v).
Proof.
  intros H Hp Hi H2; unfold ne in Hi; rewrite Z.leb_le; split.
  - intros Hm v Hv Hin; unfold in_itv in Hv.
    apply inS_app in Hin as [[x [Hx Hxv]]|Hin].
    + apply vl_app in H as [_ [_ H]]; specialize (H x p Hx (or_introl eq_refl)).
      unfold gap, in_itv in *; lia.
    + apply inS_cons in Hin as [Hin|[x [Hx Hxv]]]; unfold in_itv in *; [lia|].
      specialize (H2 x Hx); lia.
  - intros Hd; destruct (Z.le_gt_cases (max p) (min i)) as [E|E]; auto; exfalso.
    apply (Hd (min i)); [unfold in_itv; lia|].
    apply inS_app; right; apply inS_cons; left; unfold in_itv; lia.
Qed.

(** [IsDisjoint(interval)] holds exactly when no value of [interval] is in the set. *)
Lemma IsDisjoint_spec A i :
  vl A -> (IsDisjoint A i = true <-> forall v, in_itv i v -> ~ inS A v).
Proof.
  intros H; unfold IsDisjoint.
  destruct (QuicInterval.Empty i) eqn:Ei.
  { split; auto; intros _ v Hv; unfold QuicInterval.Empty in Ei; apply Z.leb_le in Ei.
    unfold in_itv in Hv; lia. }
  unfold QuicInterval.Empty in Ei; apply Z.leb_gt in Ei.
  destruct (split_le (min i) A (vl_sorted_lt _ H)) as [l1 [l2 [EA [H1 H2]]]]; subst A.
  rewrite upper_bound_probe; auto; [|apply vl_prefix in H; apply H].
  destruct l2 as [|e l2'].
  - rewrite app_nil_r in *; cbn [hd_error].
    destruct (nil_or_last l1) as [->|[l1' [p ->]]].
    + simpl; split; auto; intros _ v _ Hv; destruct (inS_nil v Hv).
    + assert (Eb : iter_eqb None (set_begin (l1' ++ [p])) = false)
        by (destruct l1'; reflexivity).
      rewrite Eb; unfold set_prev; rewrite set_last_app.
      apply disjoint_last; [exact H|apply H1, in_or_app; simpl; auto|unfold ne; lia|intros x []].
  - cbn [hd_error]. destruct (max i >? min e) eqn:E1.
    + split; [discriminate|]; intros Hd; exfalso; apply Z.gtb_lt in E1.
      assert (He : ne e) by (apply (vl_ne _ e H), in_or_app; simpl; auto).
      specialize (H2 e (or_introl eq_refl)); unfold ne in He.
      apply (Hd (min e)); [unfold in_itv; lia|].
      exists e; split; [apply in_or_app; simpl; auto|unfold in_itv; lia].
    + rewrite Z.gtb_ltb, Z.ltb_ge in E1.
      assert (Hge : forall x, In x (e :: l2') -> max i <= min x).
      { intros x Hx; apply vl_suffix in H; pose proof (vl_hd_le _ _ _ H Hx); lia. }
      destruct (nil_or_last l1) as [->|[l1' [p ->]]].
      * cbn [app set_begin hd_error]; rewrite iter_eqb_refl; split; auto.
        intros _ v Hv [x [Hx Hxv]]; specialize (Hge x Hx); unfold in_itv in *; lia.
      * rewrite iter_eqb_false.
        2:{ intros E; symmetry in E; unfold set_begin in E.
            assert (Hin : In e (l1' ++ [p]))
              by (destruct l1' as [|h l1'']; simpl in E; injection E as ->; simpl; auto).
            specialize (H1 e Hin); specialize (H2 e (or_introl eq_refl)); lia. }
        rewrite prev_mid by (apply vl_sorted_lt; exact H).
        rewrite set_last_app, <- app_assoc; rewrite <- app_assoc in H; cbn [app] in H |- *.
        apply disjoint_last; [exact H|apply H1, in_or_app; simpl; auto|unfold ne; lia|].
        intros x Hx; apply Hge; simpl; auto.
Qed.

(** [LowerBound] and [UpperBound] at the [min] of a stored interval. *)
Lemma bounds_at_min l1 m l2 :
  vl (l1 ++ m :: l2) ->
  LowerBound (l1 ++ m :: l2) (min m) = Some m /\
  UpperBound (l1 ++ m :: l2) (min m) = hd_error l2.
Proof.
  intros H.
  assert (Hm : ne m) by (apply (vl_ne _ m H), in_or_app; simpl; auto).
  assert (Hl1 : forall x, In x l1 -> max x < min m).
  { intros x Hx; apply vl_app in H as [_ [_ H]]; apply (H x m Hx (or_introl eq_refl)). }
  assert (Hne1 : forall x, In x l1 -> ne x) by (intros x Hx; apply (vl_ne _ x H), in_or_app; auto).
  assert (Hl2 : forall x, In x l2 -> max m < min x).
  { intros x Hx; apply vl_suffix, vl_cons in H as [_ [_ H]]; apply (H x Hx). }
  assert (Hne2 : forall x, In x l2 -> ne x)
    by (intros x Hx; apply (vl_ne _ x H), in_or_app; simpl; auto).
  unfold ne in *.
  replace (l1 ++ m :: l2) with ((l1 ++ [m]) ++ l2) by (rewrite <- app_assoc; reflexivity).
  split.
  - unfold LowerBound.
    rewrite lower_bound_app.
    2:{ intros p Hp; apply lt_unfold; simpl.
        apply in_app_or in Hp as [Hp|[<-|[]]]; [specialize (Hl1 p Hp); specialize (Hne1 p Hp)|]; lia. }
    assert (Elb : set_lower_bound l2 (make (min m) (min m)) = hd_error l2).
    { destruct l2 as [|q l2]; [reflexivity|]; simpl.
      destruct (IntervalLess q (make (min m) (min m))) eqn:E; auto.
      apply lt_unfold in E; simpl in E; specialize (Hl2 q (or_introl eq_refl)); lia. }
    rewrite Elb, iter_eqb_false.
    2:{ intros E; destruct l2 as [|q l2]; unfold set_begin in E.
        - destruct l1; discriminate.
        - assert (Hq : In q (l1 ++ [m])).
          { destruct l1 as [|h l1]; simpl in E; injection E as <-; simpl; auto. }
          specialize (Hl2 q (or_introl eq_refl)).
          apply in_app_or in Hq as [Hq|[<-|[]]]; [specialize (Hl1 q Hq); specialize (Hne1 q Hq)|]; lia. }
    rewrite prev_hd, set_last_app.
    2:{ apply vl_sorted_lt; rewrite <- app_assoc; exact H. }
    unfold QuicInterval.Contains_value; rewrite Z.leb_refl, (proj2 (Z.ltb_lt _ _) Hm); reflexivity.
  - apply upper_bound_probe.
    + apply Forall_forall; intros x Hx; apply in_app_or in Hx as [Hx|[<-|[]]]; unfold ne; auto.
    + intros y Hy; apply in_app_or in Hy as [Hy|[<-|[]]]; [specialize (Hl1 y Hy); specialize (Hne1 y Hy)|]; lia.
    + intros q Hq; specialize (Hl2 q Hq); lia.
Qed.

Lemma Contains_empty s i : QuicInterval.Empty i = true -> Contains s i = false.
Proof.
  intros H; unfold Contains.
  destruct (iter_eqb _ _); auto; destruct (set_prev _ _); auto.
  unfold QuicInterval.Contains; rewrite H; reflexivity.
Qed.

Lemma Contains_set_nil s : Contains_set s [] = false.
Proof. reflexivity. Qed.

(** ** The remaining operations *)

Lemma intersects_false_disjoint a b v :
  QuicInterval.Intersects a b = false -> in_itv a v -> in_itv b v -> False.
Proof.
  unfold QuicInterval.Intersects, QuicInterval.Empty, in_itv.
  rewrite !andb_false_iff, !negb_false_iff, !Z.leb_le, !Z.ltb_ge; lia.
Qed.

Lemma Difference_interval_spec s i :
  vl s -> exists r, Difference_interval s i = Some r /\ vl r /\
    (forall v, inS r v <-> inS s v /\ ~ in_itv i v).
Proof.
  intros Hs; unfold Difference_interval.
  destruct (QuicInterval.Intersects (SpanningInterval s) i) eqn:EI; cbn [negb].
  - destruct (of_interval_spec i) as [o [Eo [Ho Hdo]]]; rewrite Eo.
    destruct (Difference_spec s o Hs Ho) as [r [Er [Hr Hd]]].
    exists r; split; [exact Er|split; [exact Hr|]].
    intros v; rewrite Hd, Hdo; tauto.
  - exists s; split; [reflexivity|split; [exact Hs|]].
    intros v; split; [|tauto]; intros Hv; split; auto; intros Hi.
    exact (intersects_false_disjoint _ _ _ EI (span_in _ _ Hs Hv) Hi).
Qed.

Lemma Complement_spec s lo hi :
  vl s -> exists r, Complement s lo hi = Some r /\ vl r /\
    (forall v, inS r v <-> (lo <= v < hi) /\ ~ inS s v).
Proof.
  intros Hs; unfold Complement.
  destruct (of_interval_spec (make lo hi)) as [o [Eo [Ho Hdo]]]; rewrite Eo.
  destruct (Difference_spec o s Ho Hs) as [r [Er [Hr Hd]]].
  exists r; split; [exact Er|split; [exact Hr|]].
  intros v; rewrite Hd, Hdo; unfold in_itv; simpl; tauto.
Qed.

Lemma assign_from_spec l : forall s, vl s ->
  exists r, assign_from s l = Some r /\ vl r /\ (forall v, inS r v <-> inS s v \/ inS l v).
Proof.
  induction l as [|x l IH]; intros s Hs; simpl.
  - exists s; split; [reflexivity|split; auto]; intros v; pose proof (inS_nil v); tauto.
  - destruct (Add_spec s x Hs) as [s' [Ea [Hs' Hd']]]; rewrite Ea.
    destruct (IH s' Hs') as [r [Er [Hr Hd]]].
    exists r; split; [exact Er|split; [exact Hr|]].
    intros v; rewrite Hd, Hd', inS_cons; tauto.
Qed.

Lemma update_vl st x v :
  (forall z, vl (st z)) -> vl v -> forall z, vl (Program.update st x v z).
Proof. intros H Hv z; unfold Program.update; destruct (Nat.eqb z x); auto. Qed.

Lemma set_result_vl st x r :
  (forall z, vl (st z)) -> (exists v, r = Some v /\ vl v) ->
  exists st', Program.set_result st x r = Some st' /\ forall z, vl (st' z).
Proof.
  intros H [v [-> Hv]]; eexists; split; [reflexivity|]; apply update_vl; auto.
Qed.

Ltac spec_result L :=
  apply set_result_vl; auto;
  let r := fresh "r" in let E := fresh "E" in let Hr := fresh "Hr" in
  edestruct L as [r [E [Hr _]]]; [auto..|exists r; split; [exact E|exact Hr]].

(** Every call but [x.Intersection(x)] and [x.Difference(x)] keeps all sets valid. *)
Lemma step_vl st o :
  (forall z, vl (st z)) -> Program.no_self_alias o ->
  exists st', Program.step st o = Some st' /\ forall z, vl (st' z).
Proof.
  intros H Ha; destruct o; simpl in Ha |- *.
  - eexists; split; [reflexivity|]; apply update_vl; auto using vl_nil.
  - spec_result of_interval_spec.
  - spec_result (Add_spec [] (make lo hi) vl_nil).
  - spec_result (assign_from_spec l [] vl_nil).
  - eexists; split; [reflexivity|]; apply update_vl; auto using vl_nil.
  - spec_result (Add_spec (st x) i).
  - spec_result (Add_spec (st x) (make lo hi)).
  - spec_result (AddOptimizedForAppend_spec (st x) i).
  - spec_result (Union_spec (st x) (st y)).
  - rewrite (proj2 (Nat.eqb_neq x y) Ha); spec_result (Intersection_spec (st x) (st y)).
  - rewrite (proj2 (Nat.eqb_neq x y) Ha); spec_result (Difference_spec (st x) (st y)).
  - spec_result (Difference_interval_spec (st x) i).
  - spec_result (Difference_interval_spec (st x) (make lo hi)).
  - spec_result (Complement_spec (st x) lo hi).
  - eexists; split; [reflexivity|]; repeat apply update_vl; auto.
  - spec_result (assign_from_spec l [] vl_nil).
  - eexists; split; [reflexivity|]; apply update_vl; auto.
Qed.

Lemma run_vl ops : forall st,
  (forall z, vl (st z)) -> Forall Program.no_self_alias ops ->
  exists st', Program.run st ops = Some st' /\ forall z, vl (st' z).
Proof.
  induction ops as [|o ops IH]; intros st H Ha; simpl.
  - exists st; auto.
  - apply Forall_cons_iff in Ha as [Ho Ha].
    destruct (step_vl st o H Ho) as [st' [E H']]; rewrite E; auto.
Qed.

End Facts.

(** * The claims *)
Module Claims.
Import QuicIntervalSet Spec Facts.

(** C1: starting from empty sets, every sequence of calls (construction,
    [Add], [AddOptimizedForAppend], [Union], [Intersection], [Difference],
    [Complement], [Clear], [Swap], [assign], ...) runs to completion and
    leaves every set satisfying [Valid()], provided no call is the
    undefined [x.Intersection(x)] or [x.Difference(x)]. *)
Theorem C1_valid_after_ops (ops : list Program.op) :
  Forall Program.no_self_alias ops ->
  exists st, Program.run Program.init ops = Some st /\ forall z, Valid (st z) = true.
Proof.
  intros Ha; destruct (run_vl ops Program.init (fun _ => vl_nil) Ha) as [st [E H]].
  exists st; split; [exact E|]; intros z; apply (proj2 (Valid_vl _)), H.
Qed.

(** C2: [IntervalLess a b] holds exactly when [a.min < b.min], or
    [a.min = b.min] and [a.max > b.max]; so an interval [a] precedes the
    empty probe [[a.min, a.min)] exactly when it is non-empty. *)
Theorem C2_IntervalLess (a b : Interval) :
  (IntervalLess a b = true <-> min a < min b \/ (min a = min b /\ max a > max b)) /\
  IntervalLess a (make (min a) (min a)) = (min a <? max a).
Proof.
  split; [apply lt_unfold|].
  destruct (IntervalLess a (make (min a) (min a))) eqn:E, (min a <? max a) eqn:E'; auto.
  - apply lt_unfold in E; simpl in E; apply Z.ltb_ge in E'; lia.
  - apply Z.ltb_lt in E'; exfalso.
    apply (proj2 (not_true_iff_false _) E), lt_unfold; simpl; lia.
Qed.

(** C3: [Contains(interval)] is false for an empty interval, whatever the
    set; [Contains(other)] is false for an empty [other]. *)
Theorem C3_Contains_empty (s : Set_) (i : Interval) :
  max i <= min i -> Contains s i = false /\ Contains_set s [] = false.
Proof.
  intros H; split; [apply Contains_empty; apply Z.leb_le; exact H|apply Contains_set_nil].
Qed.

(** C4: on a valid non-empty set whose last interval [L] satisfies
    [L.min <= i.min <= L.max], [AddOptimizedForAppend(i)] gives the same
    set as [Add(i)]. *)
Theorem C4_AddOptimizedForAppend_eq_Add (s : Set_) (i L : Interval) :
  Valid s = true -> s <> [] -> set_last s = Some L -> min L <= min i <= max L ->
  AddOptimizedForAppend s i = QuicIntervalSet.Add s i.
Proof.
  intros Hv _ _ _; apply Valid_vl in Hv.
  destruct (AddOptimizedForAppend_spec s i Hv) as [r1 [E1 [H1 D1]]].
  destruct (Add_spec s i Hv) as [r2 [E2 [H2 D2]]].
  rewrite E1, E2; f_equal; apply vl_ext; auto; intros v; rewrite D1, D2; tauto.
Qed.

(** C5: for a valid [A], [A.Difference(A')] with [A'] equal to [A] is
    empty, [A.Difference(∅)] is [A] and [∅.Difference(A)] is empty. *)
Theorem C5_Difference_identities (A : Set_) :
  Valid A = true ->
  Difference A A = Some [] /\ Difference A [] = Some A /\ Difference [] A = Some [].
Proof.
  intros Hv; apply Valid_vl in Hv; split; [|split].
  - destruct (Difference_spec A A Hv Hv) as [r [E [Hr Hd]]]; rewrite E; f_equal.
    apply vl_ext; auto using vl_nil; intros v; rewrite Hd; pose proof (inS_nil v); tauto.
  - unfold Difference; rewrite (proj1 (span_nil_not_intersects _)); reflexivity.
  - unfold Difference; rewrite (proj2 (span_nil_not_intersects _)); reflexivity.
Qed.

(** C6: on a valid [A], [IsDisjoint(i)] holds exactly when the
    intersection of [A] with the set [{i}] is empty; it holds for every
    empty [i]. *)
Theorem C6_IsDisjoint_Intersection (A : Set_) (i : Interval) :
  Valid A = true ->
  (exists o r, of_interval i = Some o /\ Intersection A o = Some r /\
     (IsDisjoint A i = true <-> r = [])) /\
  (max i <= min i -> IsDisjoint A i = true).
Proof.
  intros Hv; apply Valid_vl in Hv; split.
  - destruct (of_interval_spec i) as [o [Eo [Ho Hdo]]].
    destruct (Intersection_spec A o Hv Ho) as [r [Er [Hr Hd]]].
    exists o, r; split; [exact Eo|split; [exact Er|]].
    rewrite IsDisjoint_spec by exact Hv; split.
    + intros Hdis; apply vl_ext; auto using vl_nil; intros v; rewrite Hd, Hdo.
      pose proof (inS_nil v); pose proof (Hdis v); tauto.
    + intros -> v Hi HA; apply (inS_nil v), Hd; rewrite Hdo; auto.
  - intros H; unfold IsDisjoint, QuicInterval.Empty; rewrite (proj2 (Z.leb_le _ _) H); reflexivity.
Qed.

(** C7: at the [min] of a stored interval [m], [LowerBound] designates [m]
    and [UpperBound] the next interval, the first one whose [min] exceeds
    [m.min]; on [{[10,20), [30,40)}] they give [[10,20)] and [[30,40)] at 10. *)
Theorem C7_bounds_at_min (A : Set_) (m : Interval) :
  Valid A = true -> In m A ->
  (LowerBound A (min m) = Some m /\
   UpperBound A (min m) = set_next A (Some m) /\
   UpperBound A (min m) = hd_error (filter (fun q => min m <? min q) A)) /\
  (LowerBound [make 10 20; make 30 40] 10 = Some (make 10 20) /\
   UpperBound [make 10 20; make 30 40] 10 = Some (make 30 40)).
Proof.
  intros Hv Hm; apply Valid_vl in Hv; split; [|split; reflexivity].
  destruct (in_split _ _ Hm) as [l1 [l2 ->]].
  destruct (bounds_at_min l1 m l2 Hv) as [H1 H2].
  split; [exact H1|split].
  - rewrite H2, next_mid; auto using vl_sorted_lt.
  - rewrite H2, filter_app; cbn [filter]; rewrite Z.ltb_irrefl.
    rewrite filter_drop_all, filter_keep_all; [reflexivity| |].
    + intros q Hq; apply Z.ltb_lt.
      apply vl_suffix, vl_cons in Hv as [Hm' [_ H]]; specialize (H q Hq); unfold gap, ne in *; lia.
    + intros q Hq; apply Z.ltb_ge.
      pose proof (vl_ne _ q Hv (in_or_app _ _ _ (or_introl Hq))) as Hnq.
      apply vl_app in Hv as [_ [_ Hg]]; specialize (Hg q m Hq (or_introl eq_refl)).
      unfold gap, ne in *; lia.
Qed.

(** C8: [Add([10,20))], [Add([30,40))], [Add([15,35))] on an empty set
    give [{[10,40)}], of size 1, containing [[10,40)] but not [[10,41)]. *)
Theorem C8_example :
  exists st,
    Program.run Program.init
      [Program.OpAdd 0 (make 10 20); Program.OpAdd 0 (make 30 40);
       Program.OpAdd 0 (make 15 35)] = Some st /\
    st 0%nat = [make 10 40] /\ Size (st 0%nat) = 1%nat /\
    Contains (st 0%nat) (make 10 40) = true /\ Contains (st 0%nat) (make 10 41) = false.
Proof.
  eexists; split; [vm_compute; reflexivity|].
  vm_compute; repeat split.
Qed.

(** C9: on valid sets every operation finishes (within its linear fuel
    bound), and so does [FindNextIntersectingPair] from any pair of
    positions. *)
Theorem C9_terminates (s other : Set_) (i : Interval) (lo hi : Z) (l : list Interval) :
  Valid s = true -> Valid other = true ->
  (exists r, QuicIntervalSet.Add s i = Some r) /\
  (exists r, AddOptimizedForAppend s i = Some r) /\
  (exists r, Union s other = Some r) /\
  (exists r, Intersection s other = Some r) /\
  (exists r, Difference s other = Some r) /\
  (exists r, Difference_interval s i = Some r) /\
  (exists r, Complement s lo hi = Some r) /\
  (exists r, assign l = Some r) /\
  (forall D M T0 T, s = D ++ M -> other = T0 ++ T ->
     exists r, FindNextIntersectingPair s other (hd_error M) (hd_error T) = Some r).
Proof.
  intros Hs Ho; apply Valid_vl in Hs; apply Valid_vl in Ho.
  repeat split.
  - destruct (Add_spec s i Hs) as [r [E _]]; eauto.
  - destruct (AddOptimizedForAppend_spec s i Hs) as [r [E _]]; eauto.
  - destruct (Union_spec s other Hs Ho) as [r [E _]]; eauto.
  - destruct (Intersection_spec s other Hs Ho) as [r [E _]]; eauto.
  - destruct (Difference_spec s other Hs Ho) as [r [E _]]; eauto.
  - destruct (Difference_interval_spec s i Hs) as [r [E _]]; eauto.
  - destruct (Complement_spec s lo hi Hs) as [r [E _]]; eauto.
  - destruct (assign_from_spec l [] vl_nil) as [r [E _]]; eauto.
  - intros D M T0 T -> ->.
    destruct (fnip_spec true no_hole (T0 ++ T) T0 M T D no_hole_spec Hs Ho eq_refl (or_introl eq_refl))
      as [K [M' [L [T' [found [x' [E _]]]]]]].
    unfold FindNextIntersectingPair; rewrite E; eauto.
Qed.

(** C10: [Intersection] empties the set when [other] is empty, when the
    set is empty, and whenever a spanning interval is empty or the two
    spanning intervals do not intersect. *)
Theorem C10_Intersection_clears (s other : Set_) :
  Intersection s [] = Some [] /\ Intersection [] other = Some [] /\
  (QuicInterval.Empty (SpanningInterval s) = true \/
   QuicInterval.Empty (SpanningInterval other) = true \/
   QuicInterval.Intersects (SpanningInterval s) (SpanningInterval other) = false ->
   Intersection s other = Some []).
Proof.
  split; [|split].
  - unfold Intersection; rewrite (proj1 (span_nil_not_intersects _)); reflexivity.
  - unfold Intersection; rewrite (proj2 (span_nil_not_intersects _)); reflexivity.
  - intros H; unfold Intersection.
    assert (E : QuicInterval.Intersects (SpanningInterval s) (SpanningInterval other) = false).
    { unfold QuicInterval.Intersects.
      destruct H as [H|[H|H]]; [rewrite H|rewrite H, andb_false_r|exact H]; reflexivity. }
    rewrite E; reflexivity.
Qed.

(** ** Witnesses *)

Lemma C1_valid_after_ops_witness :
  Forall Program.no_self_alias
    [Program.OpAdd 0 (make 1 5); Program.OpAdd 1 (make 3 8); Program.OpIntersection 0 1] /\
  exists st, Program.run Program.init
    [Program.OpAdd 0 (make 1 5); Program.OpAdd 1 (make 3 8); Program.OpIntersection 0 1]
    = Some st /\ forall z, Valid (st z) = true.
Proof.
  assert (H : Forall Program.no_self_alias
    [Program.OpAdd 0 (make 1 5); Program.OpAdd 1 (make 3 8); Program.OpIntersection 0 1])
    by (repeat constructor; simpl; discriminate).
  split; [exact H|apply C1_valid_after_ops; exact H].
Defined.

Lemma C3_Contains_empty_witness :
  max (make 3 3) <= min (make 3 3) /\
  Contains [make 1 5] (make 3 3) = false /\ Contains_set [make 1 5] [] = false.
Proof.
  split; [simpl; lia|apply C3_Contains_empty; simpl; lia].
Defined.

Lemma C4_AddOptimizedForAppend_eq_Add_witness :
  Valid [make 1 5] = true /\ [make 1 5] <> [] /\ set_last [make 1 5] = Some (make 1 5) /\
  1 <= 3 <= 5 /\
  AddOptimizedForAppend [make 1 5] (make 3 9) = QuicIntervalSet.Add [make 1 5] (make 3 9).
Proof.
  split; [reflexivity|split; [discriminate|split; [reflexivity|split; [lia|]]]].
  apply (C4_AddOptimizedForAppend_eq_Add [make 1 5] (make 3 9) (make 1 5));
    [reflexivity|discriminate|reflexivity|simpl; lia].
Defined.

Lemma C5_Difference_identities_witness :
  Valid [make 1 5; make 7 9] = true /\
  Difference [make 1 5; make 7 9] [make 1 5; make 7 9] = Some [] /\
  Difference [make 1 5; make 7 9] [] = Some [make 1 5; make 7 9] /\
  Difference [] [make 1 5; make 7 9] = Some [].
Proof.
  split; [reflexivity|apply C5_Difference_identities; reflexivity].
Defined.

Lemma C6_IsDisjoint_Intersection_witness :
  Valid [make 1 5] = true /\
  (exists o r, of_interval (make 5 8) = Some o /\ Intersection [make 1 5] o = Some r /\
     (IsDisjoint [make 1 5] (make 5 8) = true <-> r = [])) /\
  (max (make 5 8) <= min (make 5 8) -> IsDisjoint [make 1 5] (make 5 8) = true).
Proof.
  split; [reflexivity|apply C6_IsDisjoint_Intersection; reflexivity].
Defined.

Lemma C7_bounds_at_min_witness :
  Valid [make 10 20; make 30 40] = true /\ In (make 30 40) [make 10 20; make 30 40] /\
  (LowerBound [make 10 20; make 30 40] 30 = Some (make 30 40) /\
   UpperBound [make 10 20; make 30 40] 30 = set_next [make 10 20; make 30 40] (Some (make 30 40)) /\
   UpperBound [make 10 20; make 30 40] 30 =
     hd_error (filter (fun q => 30 <? min q) [make 10 20; make 30 40])) /\
  (LowerBound [make 10 20; make 30 40] 10 = Some (make 10 20) /\
   UpperBound [make 10 20; make 30 40] 10 = Some (make 30 40)).
Proof.
  split; [reflexivity|split; [simpl; auto|]].
  apply (C7_bounds_at_min [make 10 20; make 30 40] (make 30 40)); [reflexivity|simpl; auto].
Defined.

Lemma C9_terminates_witness :
  Valid [make 1 5; make 7 9] = true /\ Valid [make 4 8] = true /\
  (exists r, QuicIntervalSet.Add [make 1 5; make 7 9] (make 2 3) = Some r) /\
  (exists r, AddOptimizedForAppend [make 1 5; make 7 9] (make 2 3) = Some r) /\
  (exists r, Union [make 1 5; make 7 9] [make 4 8] = Some r) /\
  (exists r, Intersection [make 1 5; make 7 9] [make 4 8] = Some r) /\
  (exists r, Difference [make 1 5; make 7 9] [make 4 8] = Some r) /\
  (exists r, Difference_interval [make 1 5; make 7 9] (make 2 3) = Some r) /\
  (exists r, Complement [make 1 5; make 7 9] 0 10 = Some r) /\
  (exists r, assign [make 2 3] = Some r) /\
  (forall D M T0 T, [make 1 5; make 7 9] = D ++ M -> [make 4 8] = T0 ++ T ->
     exists r, FindNextIntersectingPair [make 1 5; make 7 9] [make 4 8]
                 (hd_error M) (hd_error T) = Some r).
Proof.
  split; [reflexivity|split; [reflexivity|]].
  apply C9_terminates; reflexivity.
Defined.

End Claims.

(** * Facts about the lookups, comparisons and the remaining operations *)
Module ExtraFacts.
Import QuicIntervalSet Spec Facts.

Lemma cv_itv i v : QuicInterval.Contains_value i v = true <-> in_itv i v.
Proof.
  unfold QuicInterval.Contains_value, in_itv; rewrite andb_true_iff, Z.leb_le, Z.ltb_lt; tauto.
Qed.

(** The split of a valid set at [upper_bound(probe)], and the element before it. *)
Lemma probe_split s k : vl s -> exists P Q, s = P ++ Q /\
  (forall p, In p P -> ~ lt k p) /\ (forall q, In q Q -> lt k q) /\
  set_upper_bound s k = hd_error Q /\
  (iter_eqb (hd_error Q) (set_begin s) = true <-> P = []) /\
  set_prev s (hd_error Q) = set_last P.
Proof.
  intros H; destruct (split_ub k s (vl_sorted_lt _ H)) as [P [Q [E [HP HQ]]]].
  exists P, Q; split; [exact E|split; [exact HP|split; [exact HQ|]]].
  split.
  { rewrite E, upper_bound_app by auto.
    destruct Q as [|q Q]; auto; apply upper_bound_cons_lt, HQ; simpl; auto. }
  split.
  - destruct P as [|p P'].
    + subst s; unfold set_begin; simpl; split; [reflexivity|intros _; apply iter_eqb_refl].
    + rewrite iter_eqb_false; [split; discriminate|].
      rewrite E; unfold set_begin; simpl; destruct Q as [|q Q]; simpl; [discriminate|].
      intros Eq; inversion Eq; subst q; apply (HP p (or_introl eq_refl)), HQ; simpl; auto.
  - rewrite E; apply prev_hd; rewrite <- E; apply vl_sorted_lt; auto.
Qed.

(** The only stored interval that can hold a probe is the last one not after it. *)
Lemma probe_unique P' p Q k c :
  vl (P' ++ p :: Q) -> ~ lt c p -> (forall q, In q Q -> lt c q) ->
  In k (P' ++ p :: Q) -> min k <= min c -> max c <= max k -> min c < max k -> k = p.
Proof.
  intros H Hp HQ Hk H1 H2 H3.
  apply in_app_or in Hk as [Hk|[<-|Hk]]; auto; exfalso.
  - apply vl_app in H as [_ [_ H]]; specialize (H k p Hk (or_introl eq_refl)).
    rewrite nlt_unfold in Hp; unfold gap in H; lia.
  - specialize (HQ k Hk); rewrite lt_unfold in HQ; lia.
Qed.

Lemma Contains_value_spec s v : vl s -> (Contains_value s v = true <-> inS s v).
Proof.
  intros H; unfold Contains_value.
  destruct (probe_split s (make v v) H) as [P [Q [E [HP [HQ [Hub [Hb Hpv]]]]]]].
  rewrite Hub.
  destruct (iter_eqb (hd_error Q) (set_begin s)) eqn:Eb.
  - pose proof (proj1 Hb eq_refl) as Eb0; subst P; simpl in E; subst s. split; [discriminate|].
    intros [k [Hk Hkv]]; specialize (HQ k Hk); rewrite lt_unfold in HQ; simpl in HQ.
    unfold in_itv in Hkv; lia.
  - rewrite Hpv. destruct (nil_or_last P) as [->|[P' [p ->]]].
    { discriminate (proj2 Hb eq_refl). }
    rewrite set_last_app, cv_itv.
    assert (Hp : ~ lt (make v v) p) by (apply HP, in_or_app; simpl; auto).
    rewrite <- app_assoc in E; simpl in E; subst s.
    split.
    + intros Hv; exists p; split; [apply in_or_app; simpl; auto|auto].
    + intros [k [Hk Hkv]]; unfold in_itv in Hkv.
      rewrite (probe_unique P' p Q k (make v v) H Hp HQ Hk) in Hkv by (simpl; lia); exact Hkv.
Qed.

Lemma Find_value_spec s v k : vl s -> (Find_value s v = Some k <-> In k s /\ in_itv k v).
Proof.
  intros H; unfold Find_value.
  destruct (probe_split s (make v v) H) as [P [Q [E [HP [HQ [Hub [Hb Hpv]]]]]]].
  rewrite Hub.
  destruct (iter_eqb (hd_error Q) (set_begin s)) eqn:Eb.
  - pose proof (proj1 Hb eq_refl) as Eb0; subst P; simpl in E; subst s. split; [discriminate|].
    intros [Hk Hkv]; specialize (HQ k Hk); rewrite lt_unfold in HQ; simpl in HQ.
    unfold in_itv in Hkv; lia.
  - rewrite Hpv. destruct (nil_or_last P) as [->|[P' [p ->]]].
    { discriminate (proj2 Hb eq_refl). }
    rewrite set_last_app.
    assert (Hp : ~ lt (make v v) p) by (apply HP, in_or_app; simpl; auto).
    rewrite <- app_assoc in E; simpl in E; subst s.
    destruct (QuicInterval.Contains_value p v) eqn:Ec.
    + apply cv_itv in Ec; split.
      * intros Ek; injection Ek as <-; split; [apply in_or_app; simpl; auto|auto].
      * intros [Hk Hkv]; unfold in_itv in Hkv.
        rewrite (probe_unique P' p Q k (make v v) H Hp HQ Hk) by (simpl; lia); reflexivity.
    + split; [discriminate|]; intros [Hk Hkv].
      assert (Hkv' := Hkv); unfold in_itv in Hkv'.
      rewrite (probe_unique P' p Q k (make v v) H Hp HQ Hk) in Hkv by (simpl; lia).
      apply cv_itv in Hkv; congruence.
Qed.

Lemma itv_contains i k :
  QuicInterval.Contains k i = true <-> ne i /\ min k <= min i /\ max i <= max k.
Proof.
  unfold QuicInterval.Contains, QuicInterval.Empty, ne.
  rewrite !andb_true_iff, negb_true_iff, Z.leb_gt, !Z.leb_le; tauto.
Qed.

(** The stored interval that wholly contains a probe, if any. *)
Lemma candidate_interval s i : vl s ->
  exists P Q, s = P ++ Q /\ set_upper_bound s i = hd_error Q /\
    (iter_eqb (hd_error Q) (set_begin s) = true <-> P = []) /\
    set_prev s (hd_error Q) = set_last P /\
    (forall k, In k s -> QuicInterval.Contains k i = true -> set_last P = Some k).
Proof.
  intros H; destruct (probe_split s i H) as [P [Q [E [HP [HQ [Hub [Hb Hpv]]]]]]].
  exists P, Q; do 4 (split; [assumption|]).
  intros k Hk Hc; apply itv_contains in Hc as [Hi [H1 H2]]; unfold ne in Hi.
  destruct (nil_or_last P) as [->|[P' [p ->]]].
  - simpl in E; subst s; specialize (HQ k Hk); rewrite lt_unfold in HQ; lia.
  - rewrite set_last_app; f_equal; symmetry.
    assert (Hp : ~ lt i p) by (apply HP, in_or_app; simpl; auto).
    rewrite <- app_assoc in E; simpl in E; subst s.
    apply (probe_unique P' p Q k i H Hp HQ Hk); lia.
Qed.

Lemma Find_spec s i k : vl s -> (Find s i = Some k <-> In k s /\ QuicInterval.Contains k i = true).
Proof.
  intros H; unfold Find.
  destruct (candidate_interval s i H) as [P [Q [E [Hub [Hb [Hpv Hu]]]]]].
  rewrite Hub.
  destruct (iter_eqb (hd_error Q) (set_begin s)) eqn:Eb.
  - pose proof (proj1 Hb eq_refl) as Eb0; split; [discriminate|]; intros [Hk Hc]; specialize (Hu k Hk Hc).
    subst P; discriminate.
  - rewrite Hpv. destruct (nil_or_last P) as [->|[P' [p ->]]].
    { discriminate (proj2 Hb eq_refl). }
    rewrite set_last_app in Hu |- *.
    destruct (QuicInterval.Contains p i) eqn:Ec.
    + split.
      * intros Ek; injection Ek as <-; split; auto; rewrite E; apply in_or_app; left; apply in_or_app; simpl; auto.
      * intros [Hk Hc]; apply Hu; auto.
    + split; [discriminate|]; intros [Hk Hc]; specialize (Hu k Hk Hc); injection Hu as ->; congruence.
Qed.

Lemma Contains_spec s i : vl s ->
  (Contains s i = true <-> exists k, In k s /\ QuicInterval.Contains k i = true).
Proof.
  intros H; unfold Contains.
  destruct (candidate_interval s i H) as [P [Q [E [Hub [Hb [Hpv Hu]]]]]].
  rewrite Hub.
  destruct (iter_eqb (hd_error Q) (set_begin s)) eqn:Eb.
  - pose proof (proj1 Hb eq_refl) as Eb0; split; [discriminate|]; intros [k [Hk Hc]]; specialize (Hu k Hk Hc).
    subst P; discriminate.
  - rewrite Hpv. destruct (nil_or_last P) as [->|[P' [p ->]]].
    { discriminate (proj2 Hb eq_refl). }
    rewrite set_last_app in Hu |- *. split.
    + intros Hc; exists p; split; auto; rewrite E; apply in_or_app; left; apply in_or_app; simpl; auto.
    + intros [k [Hk Hc]]; specialize (Hu k Hk Hc); injection Hu as ->; exact Hc.
Qed.

(** Two stored intervals are equal or separated by a gap. *)
Lemma vl_pair s a b : vl s -> In a s -> In b s -> a = b \/ gap a b \/ gap b a.
Proof.
  induction s as [|x s IH]; intros H Ha Hb; [destruct Ha|].
  apply vl_cons in H as [_ [Hs Hx]].
  destruct Ha as [<-|Ha], Hb as [<-|Hb]; auto.
Qed.

(** In a valid set an interval is held by one stored interval as soon as all its
    values are in the set. *)
Lemma covered_one s i : vl s -> ne i -> (forall v, in_itv i v -> inS s v) ->
  exists k, In k s /\ QuicInterval.Contains k i = true.
Proof.
  intros H Hi Hv; unfold ne in Hi.
  destruct (Hv (min i)) as [k [Hk Hkv]]; [unfold in_itv; lia|].
  exists k; split; auto; apply itv_contains; unfold in_itv in Hkv; split; [unfold ne; lia|].
  split; [lia|].
  destruct (Z.le_gt_cases (max i) (max k)) as [E|E]; auto; exfalso.
  destruct (Hv (max k)) as [k' [Hk' Hk'v]]; [unfold in_itv; lia|].
  destruct (vl_pair s k k' H Hk Hk') as [<-|[G|G]]; unfold gap, in_itv in *; lia.
Qed.

Lemma Contains_values s i : vl s ->
  (Contains s i = true <-> min i < max i /\ forall v, in_itv i v -> inS s v).
Proof.
  intros H; rewrite (Contains_spec s i H); split.
  - intros [k [Hk Hc]]; apply itv_contains in Hc as [Hi [H1 H2]]; split; [exact Hi|].
    intros v Hv; exists k; split; auto; unfold in_itv in *; lia.
  - intros [Hi Hv]; apply covered_one; auto.
Qed.

(** [SpanningInterval] of a non-empty valid set: non-empty, and both of its
    ends are reached by the set. *)
Lemma span_ends s : vl s -> s <> [] ->
  min (SpanningInterval s) < max (SpanningInterval s) /\
  inS s (min (SpanningInterval s)) /\ inS s (max (SpanningInterval s) - 1).
Proof.
  intros H Hn; destruct s as [|f s']; [contradiction|].
  destruct (exists_last (l := f :: s') ltac:(discriminate)) as [l [y E]].
  assert (Sp : SpanningInterval (f :: s') = make (min f) (max y)).
  { change (SpanningInterval (f :: s')) with
      (match set_last (f :: s') with Some l => make (min f) (max l)
       | None => QuicInterval.default end).
    rewrite E, set_last_app; reflexivity. }
  rewrite Sp; simpl.
  assert (Hy : In y (f :: s')) by (rewrite E; apply in_or_app; simpl; auto).
  assert (Hf : ne f) by (apply (vl_ne _ f H); simpl; auto).
  assert (Hny : ne y) by (apply (vl_ne _ y H Hy)).
  pose proof (vl_hd_le _ _ _ H Hy). unfold ne in *.
  split; [lia|split].
  - exists f; split; [simpl; auto|unfold in_itv; lia].
  - exists y; split; [auto|unfold in_itv; lia].
Qed.

Lemma Contains_set_spec s o : vl s -> vl o ->
  (Contains_set s o = true <-> o <> [] /\ forall v, inS o v -> inS s v).
Proof.
  intros Hs Ho; unfold Contains_set.
  split.
  - destruct (QuicInterval.Contains (SpanningInterval s) (SpanningInterval o)) eqn:Ec;
      cbn [negb]; [|discriminate].
    intros Hf; split.
    + intros ->; discriminate Ec.
    + intros v [i [Hi Hv]]; rewrite forallb_forall in Hf; specialize (Hf i Hi).
      apply (Contains_values s i Hs) in Hf as [_ Hf]; auto.
  - intros [Hn Hsub].
    destruct (span_ends o Ho Hn) as [Hne [H1 H2]].
    pose proof (span_in s _ Hs (Hsub _ H1)) as E1; pose proof (span_in s _ Hs (Hsub _ H2)) as E2.
    unfold in_itv in E1, E2.
    assert (Ec : QuicInterval.Contains (SpanningInterval s) (SpanningInterval o) = true)
      by (apply itv_contains; unfold ne; lia).
    rewrite Ec; cbn [negb]; apply forallb_forall; intros i Hi.
    apply (Contains_values s i Hs); split; [apply (vl_ne o i Ho Hi)|].
    intros v Hv; apply Hsub; exists i; auto.
Qed.

Lemma Intersects_spec s o : vl s -> vl o ->
  exists b, QuicIntervalSet.Intersects s o = Some b /\
    (b = true <-> exists v, inS s v /\ inS o v).
Proof.
  intros Hs Ho; unfold QuicIntervalSet.Intersects.
  destruct (QuicInterval.Intersects (SpanningInterval s) (SpanningInterval o)) eqn:EI;
    cbn [negb].
  2:{ exists false; split; [reflexivity|split; [discriminate|]].
      intros [v [H1 H2]]; destruct (span_disjoint s o v Hs Ho EI H1 H2). }
  destruct o as [|o0 o'].
  { rewrite (proj1 (span_nil_not_intersects _)) in EI; discriminate. }
  assert (Hsn : s <> []).
  { intros ->; rewrite (proj2 (span_nil_not_intersects _)) in EI; discriminate. }
  unfold FindIntersectionCandidate; cbn [set_begin hd_error].
  destruct (FIC_interval_spec s o0 Hs) as [D0 [M [Es [EF [HD0 HM]]]]]; rewrite EF.
  specialize (HM Hsn); destruct M as [|m M1]; [contradiction|]; cbn [hd_error].
  destruct (FIC_interval_spec (o0 :: o') m Ho) as [T0 [T [Eo [EF' [HT0 HT]]]]].
  rewrite EF'; specialize (HT ltac:(discriminate)).
  rewrite Es in Hs.
  destruct (fnip_spec true no_hole (o0 :: o') T0 (m :: M1) T D0 no_hole_spec Hs Ho Eo
              (or_introl eq_refl))
    as [K [M' [L [T' [found [x' [Hr [EM [ET [HK [HL Hfd]]]]]]]]]]].
  unfold FindNextIntersectingPair; rewrite Es; change (Some m) with (hd_error (m :: M1)).
  rewrite Hr; exists found; split; [reflexivity|].
  assert (HvM : vl (m :: M1)) by (apply (vl_suffix D0); auto).
  destruct found.
  - split; [intros _|reflexivity].
    destruct Hfd as [Hm _]; destruct M' as [|m' M2]; [discriminate|].
    destruct T' as [|t' T2]; [discriminate|].
    apply intersects_true in Hm as [Hm [Ht [H1 H2]]]; unfold ne in *.
    exists (Z.max (min m') (min t')); split.
    + exists m'; split; [rewrite EM; apply in_or_app; right; apply in_or_app; simpl; auto|].
      unfold in_itv; lia.
    + exists t'; split; [rewrite Eo, ET; apply in_or_app; right; apply in_or_app; simpl; auto|].
      unfold in_itv; lia.
  - split; [discriminate|]; intros [v [Hv1 Hv2]]; exfalso.
    destruct Hfd as [Hnil _].
    assert (Hvo : min o0 <= v) by (apply (vl_inS_ge o0 o'); auto).
    apply inS_app in Hv1 as [[d [Hd Hdv]]|Hv1].
    { specialize (HD0 d Hd); unfold in_itv in Hdv; lia. }
    assert (Hvm : min m <= v) by (apply (vl_inS_ge m M1); auto).
    rewrite Eo in Hv2; apply inS_app in Hv2 as [[t [Ht Htv]]|Hv2].
    { specialize (HT0 t Ht); unfold in_itv in Htv; lia. }
    destruct Hv2 as [t [Ht Htv]].
    rewrite EM in Hv1; apply inS_app in Hv1 as [[k [Hk Hkv]]|[m' [Hm' Hmv]]].
    + specialize (HK k t Hk Ht); unfold in_itv in *; lia.
    + rewrite ET in Ht; apply in_app_or in Ht as [Ht|Ht].
      * specialize (HL t m' Ht Hm'); unfold in_itv in *; lia.
      * destruct Hnil as [E0|E0]; subst; simpl in *; contradiction.
Qed.

Lemma NonemptyIntervalEq_true a b : NonemptyIntervalEq a b = true <-> a = b.
Proof. apply eqb_true. Qed.

Lemma std_equal_spec a : forall b, length a = length b ->
  exists r, std_equal a b = Some r /\ (r = true <-> a = b).
Proof.
  induction a as [|x a IH]; intros [|y b] Hl; simpl in Hl; try discriminate.
  - exists true; split; [reflexivity|tauto].
  - simpl; destruct (NonemptyIntervalEq x y) eqn:E.
    + apply NonemptyIntervalEq_true in E as ->.
      destruct (IH b ltac:(lia)) as [r [Er Hr]]; exists r; split; auto.
      rewrite Hr; split; [intros ->; reflexivity|intros Eq; injection Eq; auto].
    + exists false; split; [reflexivity|split; [discriminate|]].
      intros Eq; injection Eq as -> _; rewrite eqb_refl in E; discriminate.
Qed.

Lemma op_eq_spec a b : exists r, op_eq a b = Some r /\ (r = true <-> a = b).
Proof.
  unfold op_eq, Size; destruct (Nat.eqb (length a) (length b)) eqn:E.
  - apply Nat.eqb_eq in E; apply std_equal_spec; auto.
  - exists false; split; [reflexivity|split; [discriminate|]].
    intros ->; rewrite Nat.eqb_refl in E; discriminate.
Qed.

Lemma filter_app_drop_keep (f : Interval -> bool) l1 l2 :
  (forall y, In y l1 -> f y = false) -> filter f (l1 ++ l2) = filter f l2.
Proof. intros H; rewrite filter_app, filter_drop_all; auto. Qed.

Lemma UpperBound_spec s v : vl s ->
  UpperBound s v = hd_error (filter (fun k => v <? min k) s).
Proof.
  intros H; destruct (split_le v s (vl_sorted_lt _ H)) as [mid [post [-> [H1 H2]]]].
  unfold UpperBound; rewrite upper_bound_probe; auto; [|apply vl_prefix in H; apply H].
  rewrite filter_app_drop_keep, filter_keep_all; auto.
  - intros q Hq; apply Z.ltb_lt, H2; auto.
  - intros y Hy; apply Z.ltb_ge, H1; auto.
Qed.

Lemma LowerBound_spec s v : vl s ->
  LowerBound s v = hd_error (filter (fun k => v <? max k) s).
Proof.
  intros H; destruct (split_le v s (vl_sorted_lt _ H)) as [mid [post [E [H1 H2]]]].
  assert (Hne : forall k, In k s -> ne k) by (intros k Hk; apply (vl_ne s k H Hk)).
  assert (Hlb : set_lower_bound s (make v v) = hd_error post).
  { rewrite E, lower_bound_app.
    - destruct post as [|q post]; [reflexivity|]; simpl.
      destruct (IntervalLess q (make v v)) eqn:Eq; auto.
      apply lt_unfold in Eq; simpl in Eq; specialize (H2 q (or_introl eq_refl)); lia.
    - intros p Hp; apply lt_unfold; simpl.
      assert (ne p) by (apply Hne; rewrite E; apply in_or_app; auto).
      specialize (H1 p Hp); unfold ne in *; lia. }
  assert (Hpost : forall q, In q post -> v < max q).
  { intros q Hq; assert (ne q) by (apply Hne; rewrite E; apply in_or_app; auto).
    specialize (H2 q Hq); unfold ne in *; lia. }
  unfold LowerBound; rewrite Hlb.
  destruct (nil_or_last mid) as [->|[mid' [p ->]]].
  - simpl in E; subst s; unfold set_begin; rewrite iter_eqb_refl.
    rewrite filter_keep_all; auto; intros q Hq; apply Z.ltb_lt; auto.
  - assert (Hp : ne p) by (apply Hne; rewrite E; apply in_or_app; left; apply in_or_app; simpl; auto).
    assert (Hpv : min p <= v) by (apply H1, in_or_app; simpl; auto).
    assert (Hmid : forall y, In y mid' -> max y < min p).
    { intros y Hy; rewrite E, <- app_assoc in H; apply vl_app in H as [_ [_ H]].
      apply (H y p Hy (or_introl eq_refl)). }
    rewrite iter_eqb_false.
    2:{ intros Eq; rewrite E in Eq; unfold set_begin in Eq.
        destruct post as [|q post]; [destruct mid'; discriminate|].
        assert (Hq : In q (mid' ++ [p])).
        { destruct mid' as [|h mid'']; simpl in Eq; injection Eq as <-; simpl; auto. }
        specialize (H1 q Hq); specialize (H2 q (or_introl eq_refl)); lia. }
    rewrite E, prev_hd, set_last_app by (rewrite <- E; apply vl_sorted_lt; auto).
    rewrite <- app_assoc; cbn [app].
    rewrite filter_app_drop_keep.
    2:{ intros y Hy; apply Z.ltb_ge; specialize (Hmid y Hy); lia. }
    unfold QuicInterval.Contains_value; rewrite (proj2 (Z.leb_le _ _) Hpv); cbn [andb].
    simpl filter. destruct (v <? max p) eqn:Ev; [reflexivity|].
    unfold set_next; rewrite upper_bound_mid.
    2:{ rewrite E, <- app_assoc in H; apply vl_sorted_lt; auto. }
    rewrite filter_keep_all; auto; intros q Hq; apply Z.ltb_lt; auto.
Qed.

Lemma of_interval_eq i : of_interval i = Some (if QuicInterval.Empty i then [] else [i]).
Proof.
  unfold of_interval, QuicIntervalSet.Add.
  destruct (QuicInterval.Empty i) eqn:E; [reflexivity|].
  unfold QuicInterval.Empty in E; apply Z.leb_gt in E.
  assert (E1 : IntervalLess (make (max i) (max i)) i = false).
  { destruct (IntervalLess _ _) eqn:E'; auto; apply lt_unfold in E'; simpl in E'; lia. }
  assert (E2 : IntervalLess i i = false).
  { destruct (IntervalLess i i) eqn:E'; auto; exfalso; apply (lt_irrefl i); exact E'. }
  simpl; rewrite eqb_refl, E1; simpl.
  unfold Compact; simpl; rewrite E2; reflexivity.
Qed.

Lemma inS_dec s v : inS s v \/ ~ inS s v.
Proof.
  induction s as [|a s IH]; [right; apply inS_nil|].
  rewrite inS_cons; unfold in_itv.
  destruct IH as [IH|IH]; [left; right; exact IH|].
  destruct (Z.le_gt_cases (min a) v), (Z.lt_ge_cases v (max a));
    [left; left; lia|right; intros [Hv|Hv]; [lia|tauto]..].
Qed.

Lemma cv_bool r (P : Z -> Prop) b : vl r -> (forall v, inS r v <-> P v) ->
  (forall v, P v <-> b v = true) -> forall v, Contains_value r v = b v.
Proof.
  intros Hr Hd Hb v; apply eq_true_iff_eq; rewrite Contains_value_spec, Hd, Hb by auto; tauto.
Qed.

Lemma SS_gap_split s :
  StronglySorted gap s <-> forall l1 a l2 b l3, s = l1 ++ a :: l2 ++ b :: l3 -> max a < min b.
Proof.
  induction s as [|x s IH]; split.
  - intros _ l1 a l2 b l3 E; destruct l1; discriminate.
  - intros _; constructor.
  - intros H l1 a l2 b l3 E; apply SS_cons in H as [H1 H2].
    destruct l1 as [|y l1]; simpl in E; injection E as -> E.
    + apply H2; rewrite E; apply in_or_app; simpl; auto.
    + apply (proj1 IH H1 l1 a l2 b l3 E).
  - intros H; apply SS_cons; split.
    + apply IH; intros l1 a l2 b l3 E; apply (H (x :: l1) a l2 b l3); rewrite E; reflexivity.
    + intros b Hb; apply in_split in Hb as [l2 [l3 E]].
      apply (H [] x l2 b l3); rewrite E; reflexivity.
Qed.

Lemma Valid_pairs s : Valid s = true <->
  (forall k, In k s -> min k < max k) /\
  (forall l1 a l2 b l3, s = l1 ++ a :: l2 ++ b :: l3 -> max a < min b).
Proof.
  rewrite Valid_vl; unfold vl; rewrite SS_gap_split, Forall_forall; unfold ne; tauto.
Qed.

End ExtraFacts.

(** * Properties of the remaining functions of [QuicIntervalSet] *)
Module Extras.
Import QuicIntervalSet Spec Facts ExtraFacts.

(** [Contains(value)] on a valid set holds exactly when some stored interval
    contains [value]. *)
Theorem Contains_value_iff (s : Set_) (v : Z) :
  Valid s = true ->
  (Contains_value s v = true <-> exists k, In k s /\ QuicInterval.Contains_value k v = true).
Proof.
  intros H; apply Valid_vl in H; rewrite (Contains_value_spec s v H).
  split; intros [k [Hk Hv]]; exists k; split; auto; apply cv_itv; auto.
Qed.

(** [Find(value)] on a valid set returns the stored interval containing
    [value], and [end()] exactly when [Contains(value)] is false. *)
Theorem Find_value_iff (s : Set_) (v : Z) (k : Interval) :
  Valid s = true ->
  (Find_value s v = Some k <-> In k s /\ QuicInterval.Contains_value k v = true) /\
  (Find_value s v = None <-> Contains_value s v = false).
Proof.
  intros H; apply Valid_vl in H; split.
  - rewrite (Find_value_spec s v k H), cv_itv; tauto.
  - rewrite <- not_true_iff_false, (Contains_value_spec s v H); split.
    + intros En [k' [Hk' Hv]]; assert (E := proj2 (Find_value_spec s v k' H) (conj Hk' Hv)).
      congruence.
    + intros Hn; destruct (Find_value s v) as [k'|] eqn:E; auto; exfalso.
      apply Hn; exists k'; apply (Find_value_spec s v k' H); auto.
Qed.

(** [Contains(interval)] on a valid set holds exactly when one stored interval
    wholly contains the interval, which is the case exactly when the interval is
    non-empty and all of its values are in the set; likewise for
    [Contains(min, max)]. *)
Theorem Contains_interval_iff (s : Set_) (i : Interval) (lo hi : Z) :
  Valid s = true ->
  (Contains s i = true <-> exists k, In k s /\ QuicInterval.Contains k i = true) /\
  (Contains s i = true <->
     min i < max i /\ forall v, QuicInterval.Contains_value i v = true -> Contains_value s v = true) /\
  (Contains_range s lo hi = true <->
     lo < hi /\ forall v, lo <= v < hi -> Contains_value s v = true).
Proof.
  intros H; apply Valid_vl in H; split; [apply (Contains_spec s i H)|split].
  - rewrite (Contains_values s i H); split; intros [Hi Hv]; split; auto; intros v Hv'.
    + apply (Contains_value_spec s v H), Hv, cv_itv; auto.
    + apply (Contains_value_spec s v H), Hv, cv_itv; auto.
  - unfold Contains_range; rewrite (Contains_values s _ H); simpl; unfold in_itv; simpl.
    split; intros [Hi Hv]; split; auto; intros v Hv'; apply (Contains_value_spec s v H); auto.
Qed.

(** [Find(interval)] on a valid set returns the stored interval that wholly
    contains the interval, and [end()] exactly when [Contains(interval)] is
    false. *)
Theorem Find_interval_iff (s : Set_) (i k : Interval) :
  Valid s = true ->
  (Find s i = Some k <-> In k s /\ QuicInterval.Contains k i = true) /\
  (Find s i = None <-> Contains s i = false).
Proof.
  intros H; apply Valid_vl in H; split; [apply (Find_spec s i k H)|].
  rewrite <- not_true_iff_false, (Contains_spec s i H); split.
  - intros En [k' Hk']; assert (E := proj2 (Find_spec s i k' H) Hk'); congruence.
  - intros Hn; destruct (Find s i) as [k'|] eqn:E; auto; exfalso.
    apply Hn; exists k'; apply (Find_spec s i k' H); auto.
Qed.

(** [Contains(other)] for valid sets holds exactly when [other] is non-empty
    and every value of [other] is in this set. *)
Theorem Contains_set_iff (s other : Set_) :
  Valid s = true -> Valid other = true ->
  (Contains_set s other = true <->
     other <> [] /\ forall v, Contains_value other v = true -> Contains_value s v = true).
Proof.
  intros Hs Ho; apply Valid_vl in Hs, Ho; rewrite (Contains_set_spec s other Hs Ho).
  split; intros [Hn Hv]; split; auto; intros v.
  - rewrite (Contains_value_spec _ _ Hs), (Contains_value_spec _ _ Ho); auto.
  - rewrite <- (Contains_value_spec _ _ Hs), <- (Contains_value_spec _ _ Ho); auto.
Qed.

(** [Intersects(other)] for valid sets is defined and holds exactly when the
    two sets share a value, that is when their [Intersection] is non-empty. *)
Theorem Intersects_iff (s other : Set_) :
  Valid s = true -> Valid other = true ->
  exists b, QuicIntervalSet.Intersects s other = Some b /\
    (b = true <-> exists v, Contains_value s v = true /\ Contains_value other v = true) /\
    exists r, Intersection s other = Some r /\ (b = true <-> r <> []).
Proof.
  intros Hs Ho; apply Valid_vl in Hs, Ho.
  destruct (Intersects_spec s other Hs Ho) as [b [Eb Hb]].
  destruct (Intersection_spec s other Hs Ho) as [r [Er [Hr Hd]]].
  exists b; split; [exact Eb|split].
  - rewrite Hb; split; intros [v [H1 H2]]; exists v;
      rewrite ?(Contains_value_spec _ _ Hs), ?(Contains_value_spec _ _ Ho) in *; auto.
  - exists r; split; [exact Er|]; rewrite Hb; split.
    + intros [v Hv] ->; apply (inS_nil v), Hd; auto.
    + intros Hn; destruct r as [|k r]; [contradiction|].
      exists (min k); apply Hd, vl_hd_in; auto.
Qed.

(** For a non-empty interval, [IsDisjoint(interval)] is the negation of
    [Intersects] with the set [QuicIntervalSet(interval)]. *)
Theorem IsDisjoint_Intersects (s : Set_) (i : Interval) :
  Valid s = true -> min i < max i ->
  exists o b, of_interval i = Some o /\ QuicIntervalSet.Intersects s o = Some b /\
    IsDisjoint s i = negb b.
Proof.
  intros Hs Hi; apply Valid_vl in Hs.
  destruct (of_interval_spec i) as [o [Eo [Ho Hdo]]].
  destruct (Intersects_spec s o Hs Ho) as [b [Eb Hb]].
  exists o, b; split; [exact Eo|split; [exact Eb|]].
  apply eq_true_iff_eq; rewrite (IsDisjoint_spec s i Hs), negb_true_iff, <- not_true_iff_false, Hb.
  split.
  - intros Hd [v [H1 H2]]; apply (Hd v); [apply Hdo|]; auto.
  - intros Hn v Hv H1; apply Hn; exists v; split; auto; apply Hdo; auto.
Qed.

(** [operator==] compares sizes and then the intervals in order: it is
    defined on all sets and holds exactly when they are equal; [operator!=]
    is its negation. *)
Theorem op_eq_decides (a b : Set_) :
  exists r, op_eq a b = Some r /\ (r = true <-> a = b) /\ op_ne a b = Some (negb r).
Proof.
  destruct (op_eq_spec a b) as [r [Er Hr]]; exists r; split; [exact Er|split; [exact Hr|]].
  unfold op_ne; rewrite Er; reflexivity.
Qed.

(** On valid sets, [operator==] holds exactly when the two sets contain the
    same values. *)
Theorem op_eq_values (a b : Set_) :
  Valid a = true -> Valid b = true ->
  (op_eq a b = Some true <-> forall v, Contains_value a v = Contains_value b v).
Proof.
  intros Ha Hb; apply Valid_vl in Ha, Hb.
  destruct (op_eq_spec a b) as [r [Er Hr]]; rewrite Er; split.
  - intros E; injection E as ->; rewrite (proj1 Hr eq_refl); reflexivity.
  - intros Hv; f_equal; apply Hr, vl_ext; auto; intros v.
    rewrite <- (Contains_value_spec _ _ Ha), <- (Contains_value_spec _ _ Hb), Hv; tauto.
Qed.

(** On a valid set, [LowerBound(value)] is the first stored interval whose
    [max] is greater than [value] (the first that contains or follows it). *)
Theorem LowerBound_first (s : Set_) (v : Z) :
  Valid s = true -> LowerBound s v = hd_error (filter (fun k => v <? max k) s).
Proof. intros H; apply Valid_vl in H; apply LowerBound_spec; auto. Qed.

(** On a valid set, [UpperBound(value)] is the first stored interval whose
    [min] is greater than [value]. *)
Theorem UpperBound_first (s : Set_) (v : Z) :
  Valid s = true -> UpperBound s v = hd_error (filter (fun k => v <? min k) s).
Proof. intros H; apply Valid_vl in H; apply UpperBound_spec; auto. Qed.

(** [SpanningInterval()] of a non-empty valid set contains every value of the
    set, and its first and last values are in the set: it is the smallest
    such interval. *)
Theorem SpanningInterval_tight (s : Set_) :
  Valid s = true -> s <> [] ->
  (forall v, Contains_value s v = true ->
     QuicInterval.Contains_value (SpanningInterval s) v = true) /\
  Contains_value s (min (SpanningInterval s)) = true /\
  Contains_value s (max (SpanningInterval s) - 1) = true.
Proof.
  intros H Hn; apply Valid_vl in H.
  destruct (span_ends s H Hn) as [_ [H1 H2]].
  split; [|split; apply (Contains_value_spec _ _ H); auto].
  intros v Hv; apply cv_itv, span_in; auto; apply (Contains_value_spec _ _ H); auto.
Qed.

(** The constructors [QuicIntervalSet(interval)] and [QuicIntervalSet(min,
    max)] give the empty set for an empty interval and the one-interval set
    otherwise. *)
Theorem constructors_single (i : Interval) (lo hi : Z) :
  of_interval i = Some (if QuicInterval.Empty i then [] else [i]) /\
  of_range lo hi = Some (if lo <? hi then [make lo hi] else []).
Proof.
  split; [apply of_interval_eq|].
  unfold of_range; change (Add [] (make lo hi)) with (of_interval (make lo hi)).
  rewrite of_interval_eq; unfold QuicInterval.Empty; simpl.
  destruct (hi <=? lo) eqn:E, (lo <? hi) eqn:E'; auto;
    rewrite ?Z.leb_le, ?Z.leb_gt, ?Z.ltb_lt, ?Z.ltb_ge in *; lia.
Qed.

(** [Add(interval)] on a valid set gives a valid set holding the values of
    the set and those of the interval; so does [Add(min, max)]. *)
Theorem Add_values (s : Set_) (i : Interval) (lo hi : Z) :
  Valid s = true ->
  (exists r, QuicIntervalSet.Add s i = Some r /\ Valid r = true /\
     forall v, Contains_value r v = Contains_value s v || QuicInterval.Contains_value i v) /\
  (exists r, Add_range s lo hi = Some r /\ Valid r = true /\
     forall v, Contains_value r v = Contains_value s v || ((lo <=? v) && (v <? hi))).
Proof.
  intros H; apply Valid_vl in H; split.
  - destruct (Add_spec s i H) as [r [Er [Hr Hd]]].
    exists r; split; [exact Er|split; [apply Valid_vl; auto|]].
    apply (cv_bool r _ _ Hr Hd); intros v; rewrite orb_true_iff, cv_itv, Contains_value_spec by auto; tauto.
  - destruct (Add_spec s (make lo hi) H) as [r [Er [Hr Hd]]].
    exists r; split; [exact Er|split; [apply Valid_vl; auto|]].
    apply (cv_bool r _ _ Hr Hd); intros v.
    rewrite orb_true_iff, andb_true_iff, Z.leb_le, Z.ltb_lt, Contains_value_spec by auto.
    unfold in_itv; simpl; tauto.
Qed.


(** After [Add(interval)] of a non-empty interval on a valid set, the set
    [Contains] the interval and [Find] returns the stored interval holding it. *)
Theorem Add_then_Contains (s : Set_) (i : Interval) :
  Valid s = true -> min i < max i ->
  exists r k, QuicIntervalSet.Add s i = Some r /\ Contains r i = true /\
    Find r i = Some k /\ min k <= min i /\ max i <= max k.
Proof.
  intros H Hi; apply Valid_vl in H.
  destruct (Add_spec s i H) as [r [Er [Hr Hd]]].
  assert (Hc : Contains r i = true).
  { apply (Contains_values r i Hr); split; auto; intros v Hv; apply Hd; auto. }
  destruct (proj1 (Contains_spec r i Hr) Hc) as [k [Hk Hki]].
  exists r, k; split; [exact Er|split; [exact Hc|]].
  split; [apply (Find_spec r i k Hr); auto|].
  apply itv_contains in Hki; tauto.
Qed.

(** [AddOptimizedForAppend] on a valid set, whatever the position of the
    interval, gives a valid set holding the values of the set and those of
    the interval; likewise its [(min, max)] form. *)
Theorem AddOptimizedForAppend_values (s : Set_) (i : Interval) (lo hi : Z) :
  Valid s = true ->
  (exists r, AddOptimizedForAppend s i = Some r /\ Valid r = true /\
     forall v, Contains_value r v = Contains_value s v || QuicInterval.Contains_value i v) /\
  (exists r, AddOptimizedForAppend_range s lo hi = Some r /\ Valid r = true /\
     forall v, Contains_value r v = Contains_value s v || ((lo <=? v) && (v <? hi))).
Proof.
  intros H; apply Valid_vl in H; split.
  - destruct (AddOptimizedForAppend_spec s i H) as [r [Er [Hr Hd]]].
    exists r; split; [exact Er|split; [apply Valid_vl; auto|]].
    apply (cv_bool r _ _ Hr Hd); intros v; rewrite orb_true_iff, cv_itv, Contains_value_spec by auto; tauto.
  - destruct (AddOptimizedForAppend_spec s (make lo hi) H) as [r [Er [Hr Hd]]].
    exists r; split; [exact Er|split; [apply Valid_vl; auto|]].
    apply (cv_bool r _ _ Hr Hd); intros v.
    rewrite orb_true_iff, andb_true_iff, Z.leb_le, Z.ltb_lt, Contains_value_spec by auto.
    unfold in_itv; simpl; tauto.
Qed.

(** [Union] of valid sets gives a valid set holding the values of either, and
    the result does not depend on the order of the operands. *)
Theorem Union_values_comm (a b : Set_) :
  Valid a = true -> Valid b = true ->
  exists r, Union a b = Some r /\ Valid r = true /\
    (forall v, Contains_value r v = Contains_value a v || Contains_value b v) /\
    Union b a = Some r.
Proof.
  intros Ha Hb; apply Valid_vl in Ha, Hb.
  destruct (Union_spec a b Ha Hb) as [r [Er [Hr Hd]]].
  destruct (Union_spec b a Hb Ha) as [r' [Er' [Hr' Hd']]].
  exists r; split; [exact Er|split; [apply Valid_vl; auto|split]].
  - apply (cv_bool r _ _ Hr Hd); intros v; rewrite orb_true_iff, !Contains_value_spec by auto; tauto.
  - rewrite Er'; f_equal; apply vl_ext; auto; intros v; rewrite Hd, Hd'; tauto.
Qed.

(** [Intersection] of valid (distinct) sets gives a valid set holding the
    values common to both, and the result does not depend on the order of
    the operands. *)
Theorem Intersection_values_comm (a b : Set_) :
  Valid a = true -> Valid b = true ->
  exists r, Intersection a b = Some r /\ Valid r = true /\
    (forall v, Contains_value r v = Contains_value a v && Contains_value b v) /\
    Intersection b a = Some r.
Proof.
  intros Ha Hb; apply Valid_vl in Ha, Hb.
  destruct (Intersection_spec a b Ha Hb) as [r [Er [Hr Hd]]].
  destruct (Intersection_spec b a Hb Ha) as [r' [Er' [Hr' Hd']]].
  exists r; split; [exact Er|split; [apply Valid_vl; auto|split]].
  - apply (cv_bool r _ _ Hr Hd); intros v; rewrite andb_true_iff, !Contains_value_spec by auto; tauto.
  - rewrite Er'; f_equal; apply vl_ext; auto; intros v; rewrite Hd, Hd'; tauto.
Qed.

(** [Difference(other)] of valid sets gives a valid set holding the values of
    the set that are not in [other]; a [Union] with [other] afterwards gives
    the same set as a [Union] of the original set with [other]. *)
Theorem Difference_values_Union (a b : Set_) :
  Valid a = true -> Valid b = true ->
  exists r, Difference a b = Some r /\ Valid r = true /\
    (forall v, Contains_value r v = Contains_value a v && negb (Contains_value b v)) /\
    Union r b = Union a b.
Proof.
  intros Ha Hb; apply Valid_vl in Ha, Hb.
  destruct (Difference_spec a b Ha Hb) as [r [Er [Hr Hd]]].
  exists r; split; [exact Er|split; [apply Valid_vl; auto|split]].
  - apply (cv_bool r _ _ Hr Hd); intros v.
    rewrite andb_true_iff, negb_true_iff, <- not_true_iff_false, !Contains_value_spec by auto; tauto.
  - destruct (Union_spec r b Hr Hb) as [u [Eu [Hu Hdu]]].
    destruct (Union_spec a b Ha Hb) as [u' [Eu' [Hu' Hdu']]].
    rewrite Eu, Eu'; f_equal; apply vl_ext; auto; intros v; rewrite Hdu, Hdu', Hd.
    destruct (inS_dec b v); tauto.
Qed.

(** [Difference(interval)] on a valid set gives a valid set holding the
    values of the set outside the interval; likewise [Difference(min, max)]. *)
Theorem Difference_interval_values (s : Set_) (i : Interval) (lo hi : Z) :
  Valid s = true ->
  (exists r, Difference_interval s i = Some r /\ Valid r = true /\
     forall v, Contains_value r v = Contains_value s v && negb (QuicInterval.Contains_value i v)) /\
  (exists r, Difference_range s lo hi = Some r /\ Valid r = true /\
     forall v, Contains_value r v = Contains_value s v && negb ((lo <=? v) && (v <? hi))).
Proof.
  intros H; apply Valid_vl in H; split.
  - destruct (Difference_interval_spec s i H) as [r [Er [Hr Hd]]].
    exists r; split; [exact Er|split; [apply Valid_vl; auto|]].
    apply (cv_bool r _ _ Hr Hd); intros v.
    rewrite andb_true_iff, negb_true_iff, <- not_true_iff_false, cv_itv, Contains_value_spec by auto; tauto.
  - destruct (Difference_interval_spec s (make lo hi) H) as [r [Er [Hr Hd]]].
    exists r; split; [exact Er|split; [apply Valid_vl; auto|]].
    apply (cv_bool r _ _ Hr Hd); intros v.
    rewrite andb_true_iff, negb_true_iff, <- not_true_iff_false, andb_true_iff,
      Z.leb_le, Z.ltb_lt, Contains_value_spec by auto.
    unfold in_itv; simpl; tauto.
Qed.

(** [Complement(min, max)] on a valid set gives a valid set holding the
    values of [[min, max)] not in the set; taking the complement twice gives
    the [Intersection] of the set with [QuicIntervalSet(min, max)]. *)
Theorem Complement_values_twice (s : Set_) (lo hi : Z) :
  Valid s = true ->
  exists c, Complement s lo hi = Some c /\ Valid c = true /\
    (forall v, Contains_value c v = (lo <=? v) && (v <? hi) && negb (Contains_value s v)) /\
    exists o, of_range lo hi = Some o /\ Complement c lo hi = Intersection s o.
Proof.
  intros H; apply Valid_vl in H.
  destruct (Complement_spec s lo hi H) as [c [Ec [Hc Hd]]].
  exists c; split; [exact Ec|split; [apply Valid_vl; auto|split]].
  - apply (cv_bool c _ _ Hc Hd); intros v.
    rewrite !andb_true_iff, negb_true_iff, <- not_true_iff_false, Z.leb_le, Z.ltb_lt,
      Contains_value_spec by auto; tauto.
  - destruct (of_interval_spec (make lo hi)) as [o [Eo [Ho Hdo]]].
    exists o; split; [exact Eo|].
    destruct (Complement_spec c lo hi Hc) as [cc [Ecc [Hcc Hdcc]]].
    destruct (Intersection_spec s o H Ho) as [r [Er [Hr Hdr]]].
    rewrite Ecc, Er; f_equal; apply vl_ext; auto; intros v.
    rewrite Hdcc, Hdr, Hd, Hdo; unfold in_itv; simpl.
    destruct (inS_dec s v); tauto.
Qed.

(** [assign] of a list of intervals gives a valid set holding the values of
    the listed intervals, whatever their order. *)
Theorem assign_values_perm (l l' : list Interval) :
  Permutation l l' ->
  exists r, assign l = Some r /\ Valid r = true /\
    (forall v, Contains_value r v = existsb (fun i => QuicInterval.Contains_value i v) l) /\
    assign l' = Some r.
Proof.
  intros Hp.
  destruct (assign_from_spec l [] vl_nil) as [r [Er [Hr Hd]]].
  destruct (assign_from_spec l' [] vl_nil) as [r' [Er' [Hr' Hd']]].
  exists r; split; [exact Er|split; [apply Valid_vl; auto|split]].
  - apply (cv_bool r _ _ Hr Hd); intros v; rewrite existsb_exists.
    pose proof (inS_nil v); split; [intros [?|[k [Hk Hkv]]]; [tauto|exists k; rewrite cv_itv; auto]|].
    intros [k [Hk Hkv]]; right; exists k; rewrite <- cv_itv; auto.
  - unfold assign; rewrite Er'; f_equal; apply vl_ext; auto; intros v.
    rewrite Hd, Hd'; unfold inS; split; intros [?|[k [Hk Hkv]]]; auto; right; exists k; split; auto;
      [apply (Permutation_in k (Permutation_sym Hp))|apply (Permutation_in k Hp)]; auto.
Qed.

(** [Valid()] compares only neighbouring intervals, yet it holds exactly when
    every stored interval is non-empty and every interval ends strictly before
    any later one starts. *)
Theorem Valid_all_pairs (s : Set_) :
  Valid s = true <->
  (forall k, In k s -> min k < max k) /\
  (forall l1 a l2 b l3, s = l1 ++ a :: l2 ++ b :: l3 -> max a < min b).
Proof. apply Valid_pairs. Qed.

Lemma Contains_value_iff_witness :
  Valid [make 1 5; make 7 9] = true /\
  (Contains_value [make 1 5; make 7 9] 8 = true <->
     exists k, In k [make 1 5; make 7 9] /\ QuicInterval.Contains_value k 8 = true).
Proof. split; [reflexivity|apply Contains_value_iff; reflexivity]. Defined.

Lemma Find_value_iff_witness :
  Valid [make 1 5; make 7 9] = true /\
  (Find_value [make 1 5; make 7 9] 8 = Some (make 7 9) <->
     In (make 7 9) [make 1 5; make 7 9] /\ QuicInterval.Contains_value (make 7 9) 8 = true) /\
  (Find_value [make 1 5; make 7 9] 8 = None <-> Contains_value [make 1 5; make 7 9] 8 = false).
Proof. split; [reflexivity|apply Find_value_iff; reflexivity]. Defined.

Lemma Contains_interval_iff_witness :
  Valid [make 1 5; make 7 9] = true /\
  (Contains [make 1 5; make 7 9] (make 2 4) = true <->
     exists k, In k [make 1 5; make 7 9] /\ QuicInterval.Contains k (make 2 4) = true) /\
  (Contains [make 1 5; make 7 9] (make 2 4) = true <->
     min (make 2 4) < max (make 2 4) /\
     forall v, QuicInterval.Contains_value (make 2 4) v = true ->
       Contains_value [make 1 5; make 7 9] v = true) /\
  (Contains_range [make 1 5; make 7 9] 4 8 = true <->
     4 < 8 /\ forall v, 4 <= v < 8 -> Contains_value [make 1 5; make 7 9] v = true).
Proof. split; [reflexivity|apply Contains_interval_iff; reflexivity]. Defined.

Lemma Find_interval_iff_witness :
  Valid [make 1 5; make 7 9] = true /\
  (Find [make 1 5; make 7 9] (make 7 8) = Some (make 7 9) <->
     In (make 7 9) [make 1 5; make 7 9] /\ QuicInterval.Contains (make 7 9) (make 7 8) = true) /\
  (Find [make 1 5; make 7 9] (make 7 8) = None <->
     Contains [make 1 5; make 7 9] (make 7 8) = false).
Proof. split; [reflexivity|apply Find_interval_iff; reflexivity]. Defined.

Lemma Contains_set_iff_witness :
  Valid [make 1 5; make 7 9] = true /\ Valid [make 2 3; make 7 8] = true /\
  (Contains_set [make 1 5; make 7 9] [make 2 3; make 7 8] = true <->
     [make 2 3; make 7 8] <> [] /\
     forall v, Contains_value [make 2 3; make 7 8] v = true ->
       Contains_value [make 1 5; make 7 9] v = true).
Proof.
  split; [reflexivity|split; [reflexivity|apply Contains_set_iff; reflexivity]].
Defined.

Lemma Intersects_iff_witness :
  Valid [make 1 5; make 7 9] = true /\ Valid [make 5 7] = true /\
  exists b, QuicIntervalSet.Intersects [make 1 5; make 7 9] [make 5 7] = Some b /\
    (b = true <-> exists v, Contains_value [make 1 5; make 7 9] v = true /\
                            Contains_value [make 5 7] v = true) /\
    exists r, Intersection [make 1 5; make 7 9] [make 5 7] = Some r /\ (b = true <-> r <> []).
Proof.
  split; [reflexivity|split; [reflexivity|apply Intersects_iff; reflexivity]].
Defined.

Lemma IsDisjoint_Intersects_witness :
  Valid [make 1 5; make 7 9] = true /\ min (make 4 8) < max (make 4 8) /\
  exists o b, of_interval (make 4 8) = Some o /\
    QuicIntervalSet.Intersects [make 1 5; make 7 9] o = Some b /\
    IsDisjoint [make 1 5; make 7 9] (make 4 8) = negb b.
Proof.
  split; [reflexivity|split; [reflexivity|apply IsDisjoint_Intersects; reflexivity]].
Defined.

Lemma op_eq_values_witness :
  Valid [make 1 5] = true /\ Valid [make 1 5; make 7 9] = true /\
  (op_eq [make 1 5] [make 1 5; make 7 9] = Some true <->
     forall v, Contains_value [make 1 5] v = Contains_value [make 1 5; make 7 9] v).
Proof.
  split; [reflexivity|split; [reflexivity|apply op_eq_values; reflexivity]].
Defined.

Lemma LowerBound_first_witness :
  Valid [make 0 5; make 10 20; make 50 60] = true /\
  LowerBound [make 0 5; make 10 20; make 50 60] 20 =
    hd_error (filter (fun k => 20 <? max k) [make 0 5; make 10 20; make 50 60]).
Proof. split; [reflexivity|apply LowerBound_first; reflexivity]. Defined.

Lemma UpperBound_first_witness :
  Valid [make 0 5; make 10 20; make 50 60] = true /\
  UpperBound [make 0 5; make 10 20; make 50 60] 10 =
    hd_error (filter (fun k => 10 <? min k) [make 0 5; make 10 20; make 50 60]).
Proof. split; [reflexivity|apply UpperBound_first; reflexivity]. Defined.

Lemma SpanningInterval_tight_witness :
  Valid [make 1 5; make 7 9] = true /\ [make 1 5; make 7 9] <> [] /\
  (forall v, Contains_value [make 1 5; make 7 9] v = true ->
     QuicInterval.Contains_value (SpanningInterval [make 1 5; make 7 9]) v = true) /\
  Contains_value [make 1 5; make 7 9] (min (SpanningInterval [make 1 5; make 7 9])) = true /\
  Contains_value [make 1 5; make 7 9] (max (SpanningInterval [make 1 5; make 7 9]) - 1) = true.
Proof.
  split; [reflexivity|split; [discriminate|]].
  apply SpanningInterval_tight; [reflexivity|discriminate].
Defined.

Lemma Add_values_witness :
  Valid [make 1 5; make 7 9] = true /\
  (exists r, QuicIntervalSet.Add [make 1 5; make 7 9] (make 4 7) = Some r /\ Valid r = true /\
     forall v, Contains_value r v =
       Contains_value [make 1 5; make 7 9] v || QuicInterval.Contains_value (make 4 7) v) /\
  (exists r, Add_range [make 1 5; make 7 9] 4 7 = Some r /\ Valid r = true /\
     forall v, Contains_value r v =
       Contains_value [make 1 5; make 7 9] v || ((4 <=? v) && (v <? 7))).
Proof. split; [reflexivity|apply Add_values; reflexivity]. Defined.


Lemma Add_then_Contains_witness :
  Valid [make 1 5; make 7 9] = true /\ min (make 4 8) < max (make 4 8) /\
  exists r k, QuicIntervalSet.Add [make 1 5; make 7 9] (make 4 8) = Some r /\
    Contains r (make 4 8) = true /\ Find r (make 4 8) = Some k /\
    min k <= min (make 4 8) /\ max (make 4 8) <= max k.
Proof.
  split; [reflexivity|split; [reflexivity|apply Add_then_Contains; reflexivity]].
Defined.

Lemma AddOptimizedForAppend_values_witness :
  Valid [make 1 5; make 7 9] = true /\
  (exists r, AddOptimizedForAppend [make 1 5; make 7 9] (make 8 12) = Some r /\
     Valid r = true /\
     forall v, Contains_value r v =
       Contains_value [make 1 5; make 7 9] v || QuicInterval.Contains_value (make 8 12) v) /\
  (exists r, AddOptimizedForAppend_range [make 1 5; make 7 9] 0 2 = Some r /\ Valid r = true /\
     forall v, Contains_value r v =
       Contains_value [make 1 5; make 7 9] v || ((0 <=? v) && (v <? 2))).
Proof. split; [reflexivity|apply AddOptimizedForAppend_values; reflexivity]. Defined.

Lemma Union_values_comm_witness :
  Valid [make 1 5; make 7 9] = true /\ Valid [make 4 8] = true /\
  exists r, Union [make 1 5; make 7 9] [make 4 8] = Some r /\ Valid r = true /\
    (forall v, Contains_value r v =
       Contains_value [make 1 5; make 7 9] v || Contains_value [make 4 8] v) /\
    Union [make 4 8] [make 1 5; make 7 9] = Some r.
Proof.
  split; [reflexivity|split; [reflexivity|apply Union_values_comm; reflexivity]].
Defined.

Lemma Intersection_values_comm_witness :
  Valid [make 1 5; make 7 9] = true /\ Valid [make 4 8] = true /\
  exists r, Intersection [make 1 5; make 7 9] [make 4 8] = Some r /\ Valid r = true /\
    (forall v, Contains_value r v =
       Contains_value [make 1 5; make 7 9] v && Contains_value [make 4 8] v) /\
    Intersection [make 4 8] [make 1 5; make 7 9] = Some r.
Proof.
  split; [reflexivity|split; [reflexivity|apply Intersection_values_comm; reflexivity]].
Defined.

Lemma Difference_values_Union_witness :
  Valid [make 1 5; make 7 9] = true /\ Valid [make 4 8] = true /\
  exists r, Difference [make 1 5; make 7 9] [make 4 8] = Some r /\ Valid r = true /\
    (forall v, Contains_value r v =
       Contains_value [make 1 5; make 7 9] v && negb (Contains_value [make 4 8] v)) /\
    Union r [make 4 8] = Union [make 1 5; make 7 9] [make 4 8].
Proof.
  split; [reflexivity|split; [reflexivity|apply Difference_values_Union; reflexivity]].
Defined.

Lemma Difference_interval_values_witness :
  Valid [make 1 5; make 7 9] = true /\
  (exists r, Difference_interval [make 1 5; make 7 9] (make 2 8) = Some r /\ Valid r = true /\
     forall v, Contains_value r v =
       Contains_value [make 1 5; make 7 9] v && negb (QuicInterval.Contains_value (make 2 8) v)) /\
  (exists r, Difference_range [make 1 5; make 7 9] 2 8 = Some r /\ Valid r = true /\
     forall v, Contains_value r v =
       Contains_value [make 1 5; make 7 9] v && negb ((2 <=? v) && (v <? 8))).
Proof. split; [reflexivity|apply Difference_interval_values; reflexivity]. Defined.

Lemma Complement_values_twice_witness :
  Valid [make 1 5; make 7 9] = true /\
  exists c, Complement [make 1 5; make 7 9] 0 10 = Some c /\ Valid c = true /\
    (forall v, Contains_value c v =
       (0 <=? v) && (v <? 10) && negb (Contains_value [make 1 5; make 7 9] v)) /\
    exists o, of_range 0 10 = Some o /\ Complement c 0 10 = Intersection [make 1 5; make 7 9] o.
Proof. split; [reflexivity|apply Complement_values_twice; reflexivity]. Defined.

Lemma assign_values_perm_witness :
  Permutation [make 1 5; make 3 9] [make 3 9; make 1 5] /\
  exists r, assign [make 1 5; make 3 9] = Some r /\ Valid r = true /\
    (forall v, Contains_value r v =
       existsb (fun i => QuicInterval.Contains_value i v) [make 1 5; make 3 9]) /\
    assign [make 3 9; make 1 5] = Some r.
Proof.
  split; [apply perm_swap|apply assign_values_perm, perm_swap].
Defined.

End Extras.
